(** * Feedback pipeline: retry wrapper, report parser, score extractor,
      session store and response stream

    A shallow embedding of the TypeScript sources
      - [workers/utils/retryUtils.ts]   ([retryWithBackoff]),
      - [frontend/lib/parser.ts]        ([Parser]),
      - the worker entry point          ([extractScoresFromSummary]),
      - the three stage agents and the scenario generator (their retry
        options and token budgets),
      - [workers/session/sessionManager.ts] (the session data) and the usage
        limits kept in the same store,
      - [workers/utils/streamUtils.ts]  ([createSSEStream],
        [handleTextStream]) and the two read loops of the front end,
    and the properties of them that the specification states, followed by
    further properties of the same code.

    Modelling conventions.
      - A JavaScript string is the list of its UTF-16 code units ([str]).
      - JavaScript numbers that the code only ever uses as integers (retry
        counters, delays in milliseconds) are [Z]. A score read from a run of
        decimal digits is the double nearest to it: an integer, or
        [Infinity].
      - The canonicalisation of the [i] flag is that of Unicode.
        [toLowerCase] and [toUpperCase] are the ASCII ones, a code unit above
        [0x7F] being its own upper and lower case: their results are only
        compared with, or searched for, ASCII words that have no "k" and do
        not end in "i", the two letters that a code unit above [0x7F] can
        turn into, and the one text put in upper case is an ASCII letter,
        digit or underscore.
      - What the parser and the retry wrapper write to the console is part
        of what they do: the calls of the parser in order, with their
        arguments, and the log line of the wrapper in its trace.
      - [Number::toString], which the parser can only reach by being handed
        a JSON array with a number in it, is a parameter. *)

From Stdlib Require Import ZArith NArith List Lia String Ascii Bool.
From Stdlib Require QArith Qround Qminmax.
From stdpp Require Import base list gmap.
Import ListNotations.

Set Warnings "-register-all,-comment-terminator-in-string".

Local Open Scope string_scope.
Local Open Scope list_scope.
Local Open Scope Z_scope.

(** ** JavaScript strings *)

Module Js.

Definition str := list N.

(** A string literal of the source, as its code units. *)
Definition u (s : string) : str :=
  map N_of_ascii (list_ascii_of_string s).

Definition str_eqb (a b : str) : bool :=
  if decide (a = b) then true else false.

(** The string of the one character LF, written "\n" in the sources. *)
Definition newline : str := [10%N].

Section CodeUnits.
Local Open Scope N_scope.

(** LineTerminator: LF, CR, LS, PS. *)
Definition isLineTerminator (c : N) : bool :=
  (c =? 10) || (c =? 13) || (c =? 0x2028) || (c =? 0x2029).

(** WhiteSpace and LineTerminator: what [\s] matches and [trim] strips. *)
Definition isWhiteSpace (c : N) : bool :=
  (c =? 9) || (c =? 10) || (c =? 11) || (c =? 12) || (c =? 13) || (c =? 32)
  || (c =? 0xA0) || (c =? 0x1680) || ((0x2000 <=? c) && (c <=? 0x200A))
  || (c =? 0x2028) || (c =? 0x2029) || (c =? 0x202F) || (c =? 0x205F)
  || (c =? 0x3000) || (c =? 0xFEFF).

Definition isDigit (c : N) : bool := (48 <=? c) && (c <=? 57).
Definition isUpper (c : N) : bool := (65 <=? c) && (c <=? 90).
Definition isLower (c : N) : bool := (97 <=? c) && (c <=? 122).

(** [\w] without the [u] flag: [A-Za-z0-9_]. *)
Definition isWordChar (c : N) : bool :=
  isUpper c || isLower c || isDigit c || (c =? 95).

Definition toUpperCaseUnit (c : N) : N := if isLower c then c - 32 else c.
Definition toLowerCaseUnit (c : N) : N := if isUpper c then c + 32 else c.

(** The code units that Canonicalize moves when a pattern has the [i] flag
    and not the [u] flag (ECMA-262, 22.2.5.6): a code unit goes to its upper
    case, as [toUpperCase] gives it (Unicode 14.0, UnicodeData and
    SpecialCasing), when that is a single code unit and is not below [0x80]
    for a code unit from [0x80] on. A run [(first, last, step, image)]
    sends [first], [first + step], ... up to [last] to [image],
    [image + step], ...; the code units of no run stay as they are. *)
Definition caseRuns : list (N * N * N * N) :=
  [
    (97, 122, 1, 65); (181, 181, 1, 924); (224, 246, 1, 192);
    (248, 254, 1, 216); (255, 255, 1, 376); (257, 303, 2, 256);
    (307, 311, 2, 306); (314, 328, 2, 313); (331, 375, 2, 330);
    (378, 382, 2, 377); (384, 384, 1, 579); (387, 389, 2, 386);
    (392, 392, 1, 391); (396, 396, 1, 395); (402, 402, 1, 401);
    (405, 405, 1, 502); (409, 409, 1, 408); (410, 410, 1, 573);
    (414, 414, 1, 544); (417, 421, 2, 416); (424, 424, 1, 423);
    (429, 429, 1, 428); (432, 432, 1, 431); (436, 438, 2, 435);
    (441, 441, 1, 440); (445, 445, 1, 444); (447, 447, 1, 503);
    (453, 453, 1, 452); (454, 454, 1, 452); (456, 456, 1, 455);
    (457, 457, 1, 455); (459, 459, 1, 458); (460, 460, 1, 458);
    (462, 476, 2, 461); (477, 477, 1, 398); (479, 495, 2, 478);
    (498, 498, 1, 497); (499, 499, 1, 497); (501, 501, 1, 500);
    (505, 543, 2, 504); (547, 563, 2, 546); (572, 572, 1, 571);
    (575, 576, 1, 11390); (578, 578, 1, 577); (583, 591, 2, 582);
    (592, 592, 1, 11375); (593, 593, 1, 11373); (594, 594, 1, 11376);
    (595, 595, 1, 385); (596, 596, 1, 390); (598, 599, 1, 393);
    (601, 601, 1, 399); (603, 603, 1, 400); (604, 604, 1, 42923);
    (608, 608, 1, 403); (609, 609, 1, 42924); (611, 611, 1, 404);
    (613, 613, 1, 42893); (614, 614, 1, 42922); (616, 616, 1, 407);
    (617, 617, 1, 406); (618, 618, 1, 42926); (619, 619, 1, 11362);
    (620, 620, 1, 42925); (623, 623, 1, 412); (625, 625, 1, 11374);
    (626, 626, 1, 413); (629, 629, 1, 415); (637, 637, 1, 11364);
    (640, 640, 1, 422); (642, 642, 1, 42949); (643, 643, 1, 425);
    (647, 647, 1, 42929); (648, 648, 1, 430); (649, 649, 1, 580);
    (650, 651, 1, 433); (652, 652, 1, 581); (658, 658, 1, 439);
    (669, 669, 1, 42930); (670, 670, 1, 42928); (837, 837, 1, 921);
    (881, 883, 2, 880); (887, 887, 1, 886); (891, 893, 1, 1021);
    (940, 940, 1, 902); (941, 943, 1, 904); (945, 961, 1, 913);
    (962, 962, 1, 931); (963, 971, 1, 931); (972, 972, 1, 908);
    (973, 974, 1, 910); (976, 976, 1, 914); (977, 977, 1, 920);
    (981, 981, 1, 934); (982, 982, 1, 928); (983, 983, 1, 975);
    (985, 1007, 2, 984); (1008, 1008, 1, 922); (1009, 1009, 1, 929);
    (1010, 1010, 1, 1017); (1011, 1011, 1, 895); (1013, 1013, 1, 917);
    (1016, 1016, 1, 1015); (1019, 1019, 1, 1018); (1072, 1103, 1, 1040);
    (1104, 1119, 1, 1024); (1121, 1153, 2, 1120); (1163, 1215, 2, 1162);
    (1218, 1230, 2, 1217); (1231, 1231, 1, 1216); (1233, 1327, 2, 1232);
    (1377, 1414, 1, 1329); (4304, 4346, 1, 7312); (4349, 4351, 1, 7357);
    (5112, 5117, 1, 5104); (7296, 7296, 1, 1042); (7297, 7297, 1, 1044);
    (7298, 7298, 1, 1054); (7299, 7300, 1, 1057); (7301, 7301, 1, 1058);
    (7302, 7302, 1, 1066); (7303, 7303, 1, 1122); (7304, 7304, 1, 42570);
    (7545, 7545, 1, 42877); (7549, 7549, 1, 11363); (7566, 7566, 1, 42950);
    (7681, 7829, 2, 7680); (7835, 7835, 1, 7776); (7841, 7935, 2, 7840);
    (7936, 7943, 1, 7944); (7952, 7957, 1, 7960); (7968, 7975, 1, 7976);
    (7984, 7991, 1, 7992); (8000, 8005, 1, 8008); (8017, 8023, 2, 8025);
    (8032, 8039, 1, 8040); (8048, 8049, 1, 8122); (8050, 8053, 1, 8136);
    (8054, 8055, 1, 8154); (8056, 8057, 1, 8184); (8058, 8059, 1, 8170);
    (8060, 8061, 1, 8186); (8112, 8113, 1, 8120); (8126, 8126, 1, 921);
    (8144, 8145, 1, 8152); (8160, 8161, 1, 8168); (8165, 8165, 1, 8172);
    (8526, 8526, 1, 8498); (8560, 8575, 1, 8544); (8580, 8580, 1, 8579);
    (9424, 9449, 1, 9398); (11312, 11359, 1, 11264); (11361, 11361, 1, 11360);
    (11365, 11365, 1, 570); (11366, 11366, 1, 574); (11368, 11372, 2, 11367);
    (11379, 11379, 1, 11378); (11382, 11382, 1, 11381); (11393, 11491, 2, 11392);
    (11500, 11502, 2, 11499); (11507, 11507, 1, 11506); (11520, 11557, 1, 4256);
    (11559, 11559, 1, 4295); (11565, 11565, 1, 4301); (42561, 42605, 2, 42560);
    (42625, 42651, 2, 42624); (42787, 42799, 2, 42786); (42803, 42863, 2, 42802);
    (42874, 42876, 2, 42873); (42879, 42887, 2, 42878); (42892, 42892, 1, 42891);
    (42897, 42899, 2, 42896); (42900, 42900, 1, 42948); (42903, 42921, 2, 42902);
    (42933, 42947, 2, 42932); (42952, 42954, 2, 42951); (42961, 42961, 1, 42960);
    (42967, 42969, 2, 42966); (42998, 42998, 1, 42997); (43859, 43859, 1, 42931);
    (43888, 43967, 1, 5024); (65345, 65370, 1, 65313)
  ].

Definition inRun (run : N * N * N * N) (c : N) : bool :=
  let '(first, last, step, _) := run in
  (first <=? c) && (c <=? last) && ((c - first) mod step =? 0).

Definition canonicalUnit (c : N) : N :=
  match List.find (fun run => inRun run c) caseRuns with
  | Some (first, _, _, image) => image + (c - first)
  | None => c
  end.

(** The code units that Canonicalize sends where it sends [c]: that code
    unit, and in each run the one that goes there. *)
Definition sameCase (c : N) : list N :=
  let cu := canonicalUnit c in
  List.filter (fun a => canonicalUnit a =? cu)
    (cu :: flat_map
             (fun run : N * N * N * N =>
                let '(first, _, _, image) := run in
                if image <=? cu then [first + (cu - image)] else [])
             caseRuns).

End CodeUnits.

Definition toUpperCase (s : str) : str := map toUpperCaseUnit s.
Definition toLowerCase (s : str) : str := map toLowerCaseUnit s.

Fixpoint trimStart (s : str) : str :=
  match s with
  | c :: s' => if isWhiteSpace c then trimStart s' else s
  | [] => []
  end.

Definition trimEnd (s : str) : str := rev (trimStart (rev s)).
Definition trim (s : str) : str := trimEnd (trimStart s).

(** [s.substring(from, to)] for [from <= to]. *)
Definition substring (s : str) (from to : nat) : str :=
  firstn (to - from) (skipn from s).

(** [s.slice(from)] and [s.charAt(i)] for non-negative arguments. *)
Definition slice (s : str) (from : nat) : str := skipn from s.
Definition charAt (s : str) (i : nat) : str :=
  match nth_error s i with Some c => [c] | None => [] end.

Fixpoint startsWith (s prefix : str) : bool :=
  match prefix, s with
  | [], _ => true
  | p :: prefix', c :: s' => N.eqb p c && startsWith s' prefix'
  | _ :: _, [] => false
  end.

(** [s.includes(needle)] *)
Fixpoint includes (s needle : str) : bool :=
  startsWith s needle ||
  match s with
  | [] => false
  | _ :: s' => includes s' needle
  end.

(** [s.split(separator)] for a non-empty separator string: [skip] counts
    the code units of a separator just found that are still to be passed
    over, [piece] is the piece being collected. *)
Fixpoint splitFrom (separator : str) (s : str) (skip : nat) (piece : str) : list str :=
  match s with
  | [] => [piece]
  | c :: s' =>
      match skip with
      | S skip' => splitFrom separator s' skip' piece
      | O =>
          if startsWith s separator
          then piece :: splitFrom separator s' (length separator - 1) []
          else splitFrom separator s' O (piece ++ [c])
      end
  end.

Definition split (s separator : str) : list str := splitFrom separator s O [].

(** The integer that a run of decimal digits writes. *)
Definition digitsValue (s : str) : Z :=
  fold_left (fun acc c => acc * 10 + Z.of_N (c - 48))%Z s 0%Z.

(** A number that is not negative and has no fraction: the integer it is,
    or [Infinity]. *)
Inductive jsNumber :=
| Finite (value : Z)
| Infinity.

(** The double nearest to an integer [n >= 0], a tie going to the one
    whose significand is even, and [Infinity] from [2 ^ 1024 - 2 ^ 970] on:
    below [2 ^ 53] every integer is a double, and above it a double is a
    multiple of the power of two that leaves 53 binary digits. *)
Definition roundToDouble (n : Z) : jsNumber :=
  if (n <? 2 ^ 53)%Z then Finite n
  else
    let shift := (Z.log2 n - 52)%Z in
    let q := Z.shiftr n shift in
    let r := (n - Z.shiftl q shift)%Z in
    let half := (2 ^ (shift - 1))%Z in
    let q' := if (half <? r)%Z || ((r =? half)%Z && Z.odd q) then (q + 1)%Z else q in
    let d := Z.shiftl q' shift in
    if (2 ^ 1024 <=? d)%Z then Infinity else Finite d.

(** [Number(s)] and [parseInt(s, 10)] on a run of decimal digits: the
    double nearest to the integer written. *)
Definition toNumber (s : str) : jsNumber := roundToDouble (digitsValue s).

(** A text with every apostrophe read as a double quote: JSON texts are
    written with apostrophes below. *)
Definition quoted (s : string) : str :=
  map (fun c => if N.eqb c 39 then 34%N else c) (u s).

(** JavaScript truthiness of a string and of an optional string. *)
Definition nonEmpty (s : str) : bool :=
  match s with [] => false | _ => true end.

End Js.

(** ** Regular expressions

    The patterns of the sources are written as syntax trees and run by the
    backtracking matcher of the ECMAScript specification (sections
    22.2.2 and 22.2.7): a matcher takes a match state and a continuation. *)

Module RegExp.
Import Js.

Inductive classItem :=
| One (c : N)            (* a single character *)
| Space                  (* \s *)
| NonSpace               (* \S *)
| Digit                  (* \d *)
| Word.                  (* \w *)

Inductive regex :=
| Empty
| Char (c : N)
| Class (invert : bool) (items : list classItem)
| Seq (r1 r2 : regex)
| Alt (r1 r2 : regex)
| Quant (min : nat) (max : option nat) (greedy : bool) (r : regex)
| Group (n : nat) (r : regex)       (* the n-th capturing parenthesis *)
| Backref (n : nat)                 (* \n *)
| Lookahead (r : regex)             (* (?= r) *)
| AssertStart                       (* ^ *)
| AssertEnd.                        (* $ *)

(** Surface syntax. *)
Fixpoint lit (s : str) : regex :=
  match s with
  | [] => Empty
  | [c] => Char c
  | c :: s' => Seq (Char c) (lit s')
  end.

Fixpoint cat (rs : list regex) : regex :=
  match rs with
  | [] => Empty
  | [r] => r
  | r :: rs' => Seq r (cat rs')
  end.

Definition star (r : regex) : regex := Quant 0 None true r.       (* r*  *)
Definition plus (r : regex) : regex := Quant 1 None true r.       (* r+  *)
Definition opt (r : regex) : regex := Quant 0 (Some 1%nat) true r.  (* r?  *)
Definition lazyStar (r : regex) : regex := Quant 0 None false r.  (* r*? *)

Definition ws : regex := Class false [Space].                     (* \s *)
Definition digit : regex := Class false [Digit].                  (* \d *)
Definition word : regex := Class false [Word].                    (* \w *)
Definition anyChar : regex := Class false [Space; NonSpace].      (* [\s\S] *)
Definition noneOf (s : string) : regex := Class true (map One (u s)).   (* [^...] *)
Definition oneOf (s : string) : regex := Class false (map One (u s)).   (* [...] *)

(** A pattern that cannot match the empty string. *)
Fixpoint consumes (r : regex) : bool :=
  match r with
  | Char _ | Class _ _ => true
  | Seq r1 r2 => consumes r1 || consumes r2
  | Alt r1 r2 => consumes r1 && consumes r2
  | Quant min max _ r' =>
      negb (Nat.eqb min 0) && negb (match max with Some O => true | _ => false end)
      && consumes r'
  | Group _ r' => consumes r'
  | _ => false
  end.

Record RegExp := {
  source : regex;
  global : bool;
  ignoreCase : bool;
  multiline : bool;
}.

Record MatchState := {
  endIndex : nat;
  captures : list (nat * (nat * nat));   (* group, start and end index *)
}.

Definition Continuation := MatchState -> option MatchState.
Definition Matcher := MatchState -> Continuation -> option MatchState.

Definition itemHas (i : classItem) (ch : N) : bool :=
  match i with
  | One c => N.eqb c ch
  | Space => isWhiteSpace ch
  | NonSpace => negb (isWhiteSpace ch)
  | Digit => isDigit ch
  | Word => isWordChar ch
  end.

Definition classHas (items : list classItem) (ch : N) : bool :=
  existsb (fun i => itemHas i ch) items.

Fixpoint capture (n : nat) (caps : list (nat * (nat * nat))) : option (nat * nat) :=
  match caps with
  | [] => None
  | (k, range) :: caps' => if Nat.eqb k n then Some range else capture n caps'
  end.

Definition setCapture (n from to : nat) (y : MatchState) : MatchState :=
  {| endIndex := endIndex y; captures := (n, (from, to)) :: captures y |}.

Definition resetCaptures (groups : list nat) (x : MatchState) : MatchState :=
  {| endIndex := endIndex x;
     captures := List.filter (fun kr => negb (existsb (Nat.eqb (fst kr)) groups)) (captures x) |}.

Fixpoint groupsOf (r : regex) : list nat :=
  match r with
  | Seq r1 r2 | Alt r1 r2 => groupsOf r1 ++ groupsOf r2
  | Quant _ _ _ r' | Lookahead r' => groupsOf r'
  | Group n r' => n :: groupsOf r'
  | _ => []
  end.

Section Matching.

Variable R : RegExp.
Variable Input : str.

Definition canonicalize (ch : N) : N :=
  if ignoreCase R then canonicalUnit ch else ch.

(** CharacterSetMatcher: some member of the set canonicalises to the same
    character as the current one; the members to try are the code units
    that Canonicalize sends where it sends the current one. *)
Definition characterSetMatcher (items : list classItem) (invert : bool) : Matcher :=
  fun x c =>
    match nth_error Input (endIndex x) with
    | None => None
    | Some ch =>
        let found :=
          if ignoreCase R
          then existsb (classHas items) (sameCase ch)
          else classHas items ch in
        if xorb found invert
        then c {| endIndex := S (endIndex x); captures := captures x |}
        else None
    end.

Definition backreferenceMatcher (n : nat) : Matcher :=
  fun x c =>
    match capture n (captures x) with
    | None => c x
    | Some (from, to) =>
        let e := endIndex x in
        let len := (to - from)%nat in
        if (length Input <? e + len)%nat then None
        else if forallb
                  (fun i => match nth_error Input (from + i), nth_error Input (e + i) with
                            | Some a, Some b => N.eqb (canonicalize a) (canonicalize b)
                            | _, _ => false
                            end)
                  (seq 0 len)
        then c {| endIndex := (e + len)%nat; captures := captures x |}
        else None
    end.

Definition assertStart : Matcher :=
  fun x c =>
    let e := endIndex x in
    if Nat.eqb e 0 then c x
    else if multiline R &&
            match nth_error Input (e - 1) with
            | Some ch => isLineTerminator ch
            | None => false
            end
    then c x else None.

Definition assertEnd : Matcher :=
  fun x c =>
    let e := endIndex x in
    if Nat.eqb e (length Input) then c x
    else if multiline R &&
            match nth_error Input e with
            | Some ch => isLineTerminator ch
            | None => false
            end
    then c x else None.

(** RepeatMatcher. An iteration that matches the empty string ends the
    repetition, so the iterations left are bounded by [min] plus what is
    left of the input; [fuel] is that bound. *)
Fixpoint repeatMatcher (fuel : nat) (m : Matcher) (groups : list nat)
    (min : nat) (max : option nat) (greedy : bool)
    (x : MatchState) (c : Continuation) : option MatchState :=
  match fuel with
  | O => None
  | S fuel' =>
      if (match max with Some O => true | _ => false end) then c x
      else
        let d : Continuation := fun y =>
          if Nat.eqb min 0 && Nat.eqb (endIndex y) (endIndex x) then None
          else repeatMatcher fuel' m groups (Nat.pred min) (option_map Nat.pred max) greedy y c in
        let xr := resetCaptures groups x in
        if negb (Nat.eqb min 0) then m xr d
        else if greedy then
          match m xr d with
          | Some z => Some z
          | None => c x
          end
        else
          match c x with
          | Some z => Some z
          | None => m xr d
          end
  end.

Fixpoint compile (r : regex) : Matcher :=
  match r with
  | Empty => fun x c => c x
  | Char ch => characterSetMatcher [One ch] false
  | Class invert items => characterSetMatcher items invert
  | Seq r1 r2 => fun x c => compile r1 x (fun y => compile r2 y c)
  | Alt r1 r2 => fun x c =>
      match compile r1 x c with
      | Some z => Some z
      | None => compile r2 x c
      end
  | Quant min max greedy r' => fun x c =>
      repeatMatcher (S (min + (length Input - endIndex x))) (compile r') (groupsOf r')
        min max greedy x c
  | Group n r' => fun x c =>
      compile r' x (fun y => c (setCapture n (endIndex x) (endIndex y) y))
  | Backref n => backreferenceMatcher n
  | Lookahead r' => fun x c =>
      match compile r' x Some with
      | None => None
      | Some y => c {| endIndex := endIndex x; captures := captures y |}
      end
  | AssertStart => assertStart
  | AssertEnd => assertEnd
  end.

(** A matcher is honest when it calls its continuation only on states
    between its own and the end of the input; it then does not tell apart
    two continuations that agree on those states. *)
Definition inRange (x y : MatchState) : Prop :=
  (endIndex x <= endIndex y <= length Input)%nat.

Definition honest (m : Matcher) : Prop :=
  forall x c c',
    (endIndex x <= length Input)%nat ->
    (forall y, inRange x y -> c y = c' y) ->
    m x c = m x c'.

(** A matcher whose success is the success of its continuation, on a state
    that is not before its own. *)
Definition progressive (m : Matcher) : Prop :=
  forall x c z, m x c = Some z ->
    exists y, (endIndex x <= endIndex y)%nat /\ c y = Some z.

(** The array a successful match yields: the match and the captures, with
    the position and the end of the match. *)
Record MatchResult := {
  index : nat;
  stop : nat;
  matched : list (option str);
}.

Definition nGroups : nat := fold_right Nat.max O (groupsOf (source R)).

Definition matchAt (i : nat) : option MatchResult :=
  match compile (source R) {| endIndex := i; captures := [] |} Some with
  | None => None
  | Some y =>
      Some {| index := i;
              stop := endIndex y;
              matched :=
                Some (substring Input i (endIndex y))
                :: map (fun n => match capture n (captures y) with
                                 | Some (from, to) => Some (substring Input from to)
                                 | None => None
                                 end)
                     (seq 1 nGroups) |}
  end.

(** RegExpBuiltinExec: the leftmost position from [lastIndex] on at which
    the pattern matches. *)
Fixpoint scan (positions : nat) (i : nat) : option MatchResult :=
  match positions with
  | O => None
  | S positions' =>
      match matchAt i with
      | Some m => Some m
      | None => scan positions' (S i)
      end
  end.

Definition exec (lastIndex : nat) : option MatchResult :=
  if (length Input <? lastIndex)%nat then None
  else scan (S (length Input - lastIndex)) lastIndex.

(** Every match of a global pattern, as [String.prototype.replace] collects
    them: after an empty match [lastIndex] is advanced by one. *)
Fixpoint matchesFrom (fuel : nat) (lastIndex : nat) : list MatchResult :=
  match fuel with
  | O => []
  | S fuel' =>
      match exec lastIndex with
      | None => []
      | Some m =>
          m :: matchesFrom fuel'
                 (if Nat.eqb (stop m) (index m) then S (stop m) else stop m)
      end
  end.

Definition matches : list MatchResult := matchesFrom (S (length Input)) O.

(** The input with every match replaced by what [replacer] makes of it. *)
Fixpoint replaceMatches (replacer : list (option str) -> str)
    (ms : list MatchResult) (position : nat) : str :=
  match ms with
  | [] => skipn position Input
  | m :: ms' =>
      substring Input position (index m) ++ replacer (matched m)
      ++ replaceMatches replacer ms' (stop m)
  end.

End Matching.

(** [s.match(R)] for a pattern without the [g] flag. *)
Definition String_match (s : str) (R : RegExp) : option (list (option str)) :=
  option_map matched (exec R s O).

(** [s.replace(R, replacer)] for a pattern with the [g] flag. *)
Definition String_replace (s : str) (R : RegExp) (replacer : list (option str) -> str) : str :=
  replaceMatches s replacer (matches R s) O.

(** [m[i]] of a match array; a group that did not take part is [undefined],
    which none of the patterns here can produce for the groups they read. *)
Definition at_ (m : list (option str)) (i : nat) : str :=
  match nth_error m i with
  | Some (Some s) => s
  | _ => []
  end.

End RegExp.

(** ** JSON values and [JSON.parse]

    [JSON.parse] follows the JSON grammar of ECMA-404. A number keeps the
    decimal it was written as, [mantissa * 10 ^ exp10]. *)

Module Json.
Import Js.

Inductive json :=
| JNull
| JBool (b : bool)
| JNumber (mantissa exp10 : Z)
| JString (s : str)
| JArray (elements : list json)
| JObject (members : list (str * json)).

Inductive result (A : Type) :=
| Ok (a : A) (rest : str)
| Invalid
| OutOfFuel.
Arguments Ok {A} a rest.
Arguments Invalid {A}.
Arguments OutOfFuel {A}.

Section Lexer.
Local Open Scope N_scope.

Definition isJsonSpace (c : N) : bool :=
  (c =? 32) || (c =? 9) || (c =? 10) || (c =? 13).

Fixpoint skipSpace (s : str) : str :=
  match s with
  | c :: s' => if isJsonSpace c then skipSpace s' else s
  | [] => []
  end.

Definition hexValue (c : N) : option N :=
  if isDigit c then Some (c - 48)
  else if (65 <=? c) && (c <=? 70) then Some (c - 55)
  else if (97 <=? c) && (c <=? 102) then Some (c - 87)
  else None.

Definition hex4 (a b c d : N) : option N :=
  match hexValue a, hexValue b, hexValue c, hexValue d with
  | Some a, Some b, Some c, Some d => Some (((a * 16 + b) * 16 + c) * 16 + d)
  | _, _, _, _ => None
  end.

(** The characters of a string literal after its opening quote. *)
Fixpoint stringBody (s : str) (acc : str) : option (str * str) :=
  match s with
  | [] => None
  | c :: s1 =>
      if c =? 34 then Some (acc, s1)
      else if c =? 92 then
        match s1 with
        | [] => None
        | e :: s2 =>
            if e =? 34 then stringBody s2 (acc ++ [34])
            else if e =? 92 then stringBody s2 (acc ++ [92])
            else if e =? 47 then stringBody s2 (acc ++ [47])
            else if e =? 98 then stringBody s2 (acc ++ [8])
            else if e =? 102 then stringBody s2 (acc ++ [12])
            else if e =? 110 then stringBody s2 (acc ++ [10])
            else if e =? 114 then stringBody s2 (acc ++ [13])
            else if e =? 116 then stringBody s2 (acc ++ [9])
            else if e =? 117 then
              match s2 with
              | h1 :: h2 :: h3 :: h4 :: s3 =>
                  match hex4 h1 h2 h3 h4 with
                  | Some cu => stringBody s3 (acc ++ [cu])
                  | None => None
                  end
              | _ => None
              end
            else None
        end
      else if c <? 32 then None
      else stringBody s1 (acc ++ [c])
  end.

Fixpoint digits (s : str) (acc : str) : str * str :=
  match s with
  | c :: s1 => if isDigit c then digits s1 (acc ++ [c]) else (acc, s)
  | [] => (acc, [])
  end.

End Lexer.

(** [s] without its first character, when that is [c]. *)
Definition expect (c : N) (s : str) : option str :=
  match s with
  | x :: s' => if N.eqb x c then Some s' else None
  | [] => None
  end.

(** A number literal: an optional minus sign; [0], or a digit from 1 to 9
    and any digits; optionally a point and one digit or more; optionally
    [e] or [E], a sign and one digit or more. *)
Definition number (s : str) : option (json * str) :=
  let '(negative, s1) :=
    match expect 45 s with                                   (* - *)
    | Some t => (true, t)
    | None => (false, s)
    end in
  let '(int, s2) :=
    match expect 48 s1 with                                  (* 0 *)
    | Some t => ([48%N], t)
    | None => digits s1 []
    end in
  match int with
  | [] => None
  | _ =>
      let fraction :=
        match expect 46 s2 with                              (* . *)
        | Some t =>
            match digits t [] with
            | ([], _) => None
            | (frac, s3) => Some (frac, s3)
            end
        | None => Some ([], s2)
        end in
      match fraction with
      | None => None
      | Some (frac, s3) =>
          let exponent :=
            match expect 101 s3, expect 69 s3 with           (* e, E *)
            | Some t, _ | None, Some t =>
                let '(minus, t') :=
                  match expect 45 t, expect 43 t with        (* -, + *)
                  | Some t', _ => (true, t')
                  | None, Some t' => (false, t')
                  | None, None => (false, t)
                  end in
                match digits t' [] with
                | ([], _) => None
                | (ds, s4) =>
                    Some ((if (minus : bool) then - digitsValue ds else digitsValue ds), s4)
                end
            | None, None => Some (0, s3)
            end in
          match exponent with
          | None => None
          | Some (ex, s4) =>
              let m := digitsValue (int ++ frac) in
              Some (JNumber (if (negative : bool) then - m else m)
                            (ex - Z.of_nat (length frac)), s4)
          end
      end
  end.

Definition ofOption {A} (o : option (A * str)) : result A :=
  match o with
  | Some (a, rest) => Ok a rest
  | None => Invalid
  end.

(** Recursive descent. Every call consumes a character before it recurses
    into a value, so [fuel] bounds the recursion by the length of the text;
    [OutOfFuel] is kept apart from [Invalid]. *)
Fixpoint value (fuel : nat) (s : str) : result json :=
  match fuel with
  | O => OutOfFuel
  | S fuel' =>
      let s0 := skipSpace s in
      match expect 123 s0, expect 91 s0, expect 34 s0 with
      | Some s1, _, _ =>                                      (* { *)
          match expect 125 (skipSpace s1) with
          | Some s2 => Ok (JObject []) s2
          | None => members fuel' s1 []
          end
      | None, Some s1, _ =>                                   (* [ *)
          match expect 93 (skipSpace s1) with
          | Some s2 => Ok (JArray []) s2
          | None => elements fuel' s1 []
          end
      | None, None, Some s1 =>                                (* a string *)
          ofOption (option_map (fun '(s, rest) => (JString s, rest)) (stringBody s1 []))
      | None, None, None =>
          if startsWith s0 (u "true") then Ok (JBool true) (skipn 4 s0)
          else if startsWith s0 (u "false") then Ok (JBool false) (skipn 5 s0)
          else if startsWith s0 (u "null") then Ok JNull (skipn 4 s0)
          else ofOption (number s0)
      end
  end
with elements (fuel : nat) (s : str) (acc : list json) : result json :=
  match fuel with
  | O => OutOfFuel
  | S fuel' =>
      match value fuel' s with
      | Ok v rest =>
          match expect 44 (skipSpace rest), expect 93 (skipSpace rest) with
          | Some rest', _ => elements fuel' rest' (acc ++ [v])       (* , *)
          | None, Some rest' => Ok (JArray (acc ++ [v])) rest'       (* ] *)
          | None, None => Invalid
          end
      | Invalid => Invalid
      | OutOfFuel => OutOfFuel
      end
  end
with members (fuel : nat) (s : str) (acc : list (str * json)) : result json :=
  match fuel with
  | O => OutOfFuel
  | S fuel' =>
      match expect 34 (skipSpace s) with
      | Some s1 =>
          match stringBody s1 [] with
          | Some (key, rest) =>
              match expect 58 (skipSpace rest) with                   (* : *)
              | Some rest' =>
                  match value fuel' rest' with
                  | Ok v rest'' =>
                      match expect 44 (skipSpace rest''), expect 125 (skipSpace rest'') with
                      | Some t, _ => members fuel' t (acc ++ [(key, v)])
                      | None, Some t => Ok (JObject (acc ++ [(key, v)])) t
                      | None, None => Invalid
                      end
                  | Invalid => Invalid
                  | OutOfFuel => OutOfFuel
                  end
              | None => Invalid
              end
          | None => Invalid
          end
      | None => Invalid
      end
  end.

Definition parseText (fuel : nat) (text : str) : result json :=
  match value fuel text with
  | Ok v rest =>
      match skipSpace rest with
      | [] => Ok v []
      | _ => Invalid
      end
  | r => r
  end.

(** [JSON.parse(text)]: [None] when it throws a SyntaxError. *)
Definition JSON_parse (text : str) : option json :=
  match parseText (2 * length text + 2) text with
  | Ok v _ => Some v
  | _ => None
  end.

(** A number is the double nearest to the decimal: it is zero when the
    decimal is, or is at most half the least positive double, [2 ^ -1074]. *)
Definition isZero (mantissa exp10 : Z) : bool :=
  (mantissa =? 0) ||
  ((exp10 <? 0) && (Z.abs mantissa * 2 ^ 1075 <=? 10 ^ (- exp10))).

(** ToBoolean. *)
Definition truthy (v : json) : bool :=
  match v with
  | JNull => false
  | JBool b => b
  | JNumber m e => negb (isZero m e)
  | JString s => nonEmpty s
  | JArray _ | JObject _ => true
  end.

(** [v.key] for a value that is not [null]: the last member of that name of
    an object, and [undefined] ([None]) otherwise; none of the names read
    here is a property of a prototype. *)
Fixpoint lookupLast (members : list (str * json)) (key : str) : option json :=
  match members with
  | [] => None
  | (k, v) :: members' =>
      match lookupLast members' key with
      | Some v' => Some v'
      | None => if str_eqb k key then Some v else None
      end
  end.

Definition get (v : json) (key : str) : option json :=
  match v with
  | JObject members => lookupLast members key
  | _ => None
  end.

(** [a || b]: [a] when it is truthy. *)
Definition orElse (a : option json) (b : json) : json :=
  match a with
  | Some v => if truthy v then v else b
  | None => b
  end.

Fixpoint join (pieces : list str) (separator : str) : str :=
  match pieces with
  | [] => []
  | [p] => p
  | p :: pieces' => p ++ separator ++ join pieces' separator
  end.

Section ToString.

(** [Number::toString] of the double a decimal denotes: the platform's
    shortest round-trip printing, which this development does not model. *)
Variable Number_toString : Z -> Z -> str.

(** ToString of a JSON value, [None] when it throws a TypeError. An array
    is joined with commas, [null] elements printing as the empty string; an
    object prints through [Object.prototype.toString], unless a member
    named "toString" hides that method with a value that cannot be called. *)
Fixpoint ToString (v : json) : option str :=
  match v with
  | JNull => Some (u "null")
  | JBool true => Some (u "true")
  | JBool false => Some (u "false")
  | JNumber m e => Some (Number_toString m e)
  | JString s => Some s
  | JArray elements =>
      option_map (fun pieces => join pieces (u ","))
        ((fix each (l : list json) : option (list str) :=
            match l with
            | [] => Some []
            | e :: l' =>
                match (match e with JNull => Some [] | _ => ToString e end), each l' with
                | Some piece, Some pieces => Some (piece :: pieces)
                | _, _ => None
                end
            end) elements)
  | JObject members =>
      match lookupLast members (u "toString") with
      | Some _ => None
      | None => Some (u "[object Object]")
      end
  end.

End ToString.

End Json.

(** ** The resilient call wrapper ([retryWithBackoff]) *)

Module Retry.
Import Js.

(** What the property [message] of a thrown value can hold: nothing
    ([undefined] or [null]), a string, an array (of its elements, those
    that are strings), or a value that has no method [includes] - a number,
    a boolean, an object without one. *)
Inductive messageValue :=
| NoMessage
| Text (s : str)
| Items (elements : list (option str))
| Other.

(** What an operation can reject with. The default predicate reads the
    properties [retryable] and [message] through optional chaining, so the
    thrown value may also be [undefined]; a value without these properties
    is an [ErrorObj] with a flag and a message that are not there.
    [TypeError] is the error of calling what is not a function, which the
    default predicate raises on a message that has no [includes]. *)
Inductive thrown :=
| Undefined
| ErrorObj (retryable : option bool) (message : messageValue)
| TypeError.

(** What a call of the predicate does: it returns, or it throws. *)
Inductive verdict :=
| Says (b : bool)
| Throws.

(** [interface RetryOptions]: every field is optional. A predicate passed
    as [retryable] is a function that returns a boolean, as its type says. *)
Record RetryOptions := {
  maxRetries : option Z;
  initialDelay : option Z;
  maxDelay : option Z;
  retryable : option (thrown -> bool);
}.

Definition noOptions : RetryOptions :=
  {| maxRetries := None; initialDelay := None; maxDelay := None; retryable := None |}.

(** [message?.includes(text)]: [None] when the call throws. *)
Definition messageIncludes (message : messageValue) (text : string) : option bool :=
  match message with
  | NoMessage => Some false
  | Text m => Some (includes m (u text))
  | Items elements =>
      Some (existsb (fun e => match e with Some s => str_eqb s (u text) | None => false end)
              elements)
  | Other => None
  end.

(** [error?.message]: the TypeError of the runtime is an Error whose
    message names the call that failed. *)
Definition messageOf (error : thrown) : messageValue :=
  match error with
  | Undefined => NoMessage
  | ErrorObj _ message => message
  | TypeError => Text (u "error.message.includes is not a function")
  end.

(** An error with the property [retryable] set to [true], one whose
    [message] contains a given text, and one whose message cannot be asked. *)
Definition flagged (error : thrown) : bool :=
  match error with
  | ErrorObj (Some true) _ => true
  | _ => false
  end.

Definition mentions (error : thrown) (text : string) : bool :=
  match messageIncludes (messageOf error) text with
  | Some b => b
  | None => false
  end.

Definition unreadable (error : thrown) : bool :=
  match messageOf error with
  | Other => true
  | _ => false
  end.

(** The default of the [retryable] option (lines 26-32). *)
Definition defaultRetryable (error : thrown) : verdict :=
  if flagged error then Says true
  else
    match messageIncludes (messageOf error) "Network connection lost" with
    | None => Throws
    | Some true => Says true
    | Some false =>
        match messageIncludes (messageOf error) "timeout" with
        | None => Throws
        | Some true => Says true
        | Some false => Says false
        end
    end.

(** The destructuring of [options] with its defaults (lines 22-33). *)
Definition retriesOf (o : RetryOptions) : Z := default 3 (maxRetries o).
Definition firstDelayOf (o : RetryOptions) : Z := default 1000 (initialDelay o).
Definition ceilingOf (o : RetryOptions) : Z := default 10000 (maxDelay o).
Definition verdictOf (o : RetryOptions) : thrown -> verdict :=
  match retryable o with
  | Some predicate => fun error => Says (predicate error)
  | None => defaultRetryable
  end.

(** The predicate returns [true]. *)
Definition retryableOf (o : RetryOptions) (error : thrown) : bool :=
  match verdictOf o error with
  | Says b => b
  | Throws => false
  end.

(** What the wrapper does to the outside, in order. *)
Inductive event :=
| Invoke                                   (* await fn() *)
| Log (attempt total backoffDelay : Z)     (* console.log of a retry *)
| Sleep (ms : Z).                          (* setTimeout(resolve, backoffDelay) *)

Inductive settled (T : Type) :=
| Resolved (v : T)
| Rejected (e : thrown).
Arguments Resolved {T} v.
Arguments Rejected {T} e.

Section Wrapper.

(** The operation [fn : () => Promise<T>] acts on a world [W]: one call
    settles and leaves the world in a new state. *)
Context {W T : Type}.
Variable fn : W -> settled T * W.

Section Loop.
Variables (maxRetries' delay maxDelay' : Z) (retryable' : thrown -> verdict).

(** The [for] loop of lines 38-60. [remaining] counts the iterations the
    loop condition [attempt <= maxRetries] still allows; when none is left
    the loop is over and line 62 throws [lastError]. What the predicate
    throws inside the [catch] block leaves the function. *)
Fixpoint attempts (remaining : nat) (attempt : Z) (lastError : thrown)
    (w : W) (trace : list event) : settled T * W * list event :=
  match remaining with
  | O => (Rejected lastError, w, trace)
  | S remaining' =>
      match fn w with
      | (Resolved v, w') => (Resolved v, w', trace ++ [Invoke])
      | (Rejected error, w') =>
          if attempt =? maxRetries' then (Rejected error, w', trace ++ [Invoke])
          else
            match retryable' error with
            | Throws => (Rejected TypeError, w', trace ++ [Invoke])
            | Says false => (Rejected error, w', trace ++ [Invoke])
            | Says true =>
                let backoffDelay := Z.min (delay * 2 ^ attempt) maxDelay' in
                attempts remaining' (attempt + 1) error w'
                  (trace ++ [Invoke; Log (attempt + 1) (maxRetries' + 1) backoffDelay;
                             Sleep backoffDelay])
            end
      end
  end.

End Loop.

Definition retryWithBackoff (options : RetryOptions) (w : W)
    : settled T * W * list event :=
  let maxRetries' := retriesOf options in
  let initialDelay' := firstDelayOf options in
  let maxDelay' := ceilingOf options in
  let retryable' := verdictOf options in
  let delay := initialDelay' in
  attempts maxRetries' delay maxDelay' retryable'
    (Z.to_nat (maxRetries' + 1)) 0 Undefined w [].

(** The world after [k] calls of the operation, and what the call made in
    that world settles with. *)
Fixpoint after (k : nat) (w : W) : W :=
  match k with
  | O => w
  | S k' => after k' (snd (fn w))
  end.

Definition settles (k : nat) (w : W) : settled T := fst (fn (after k w)).

End Wrapper.

Fixpoint invocations (trace : list event) : nat :=
  match trace with
  | [] => O
  | Invoke :: trace' => S (invocations trace')
  | _ :: trace' => invocations trace'
  end.

Fixpoint sleeps (trace : list event) : list Z :=
  match trace with
  | [] => []
  | Sleep ms :: trace' => ms :: sleeps trace'
  | _ :: trace' => sleeps trace'
  end.

(** The delay computed at line 50 for the attempt of index [k]. *)
Definition backoffDelay (o : RetryOptions) (k : nat) : Z :=
  Z.min (firstDelayOf o * 2 ^ Z.of_nat k) (ceilingOf o).

End Retry.

(** ** The report parser ([frontend/lib/parser.ts]) *)

Module Report.
Import Js RegExp Json.

(** [type Segment] *)
Record Segment := {
  title : str;
  content : str;
}.

(** What the [category] of a score entry can hold at run time: a string,
    or, when the normalised token names a member that [CATEGORY_ALIASES]
    inherits from [Object.prototype], that member. *)
Inductive categoryValue :=
| Name (s : str)
| Inherited (member : str).

#[global] Instance categoryValue_eq_dec : EqDecision categoryValue.
Proof. solve_decision. Defined.

(** An element of [ParsedResult["scores"]]. *)
Record ScoreEntry := {
  category : categoryValue;
  score : jsNumber;
}.

(** *** The store

    Score entries are objects and score tables are arrays of references to
    them: the table of the module, [defaultScores], lives as long as the
    module does and every call of [Parser] reads it. A location is an index
    into the store and allocation appends. *)
Abbreviation loc := nat.

Inductive cell :=
| Obj (o : ScoreEntry)
| Arr (elements : list loc).

Abbreviation heap := (list cell).

Definition alloc (c : cell) (h : heap) : loc * heap := (length h, h ++ [c]).

Definition object (h : heap) (l : loc) : option ScoreEntry :=
  match h !! l with
  | Some (Obj o) => Some o
  | _ => None
  end.

Definition array (h : heap) (l : loc) : option (list loc) :=
  match h !! l with
  | Some (Arr elements) => Some elements
  | _ => None
  end.

(** The entries an array refers to, in order. *)
Definition entries (h : heap) (l : loc) : option (list ScoreEntry) :=
  match array h l with
  | Some elements => mapM (object h) elements
  | None => None
  end.

Definition entry (c : string) (s : Z) : ScoreEntry :=
  {| category := Name (u c); score := Finite s |}.

(** [const defaultScores] (lines 18-25): the store once the module is
    loaded, and where the array is in it. *)
Definition defaultTable : list ScoreEntry :=
  [ entry "Empathy" 85;
    entry "Clarity" 90;
    entry "Flexibility" 80;
    entry "Assertiveness" 75;
    entry "Active Listening" 88;
    entry "Conflict Management" 99 ].

Definition moduleHeap : heap :=
  map Obj defaultTable ++ [Arr (seq 0 (length defaultTable))].

Definition defaultScores : loc := length defaultTable.

(** [const CATEGORY_ALIASES] (lines 27-46). *)
Definition CATEGORY_ALIASES : list (string * string) :=
  [ ("empathy", "Empathy");
    ("clarity", "Clarity");
    ("openmindness", "Flexibility");
    ("openmindedness", "Flexibility");
    ("open mindness", "Flexibility");
    ("open mind", "Flexibility");
    ("flexibility", "Flexibility");
    ("flexible", "Flexibility");
    ("assertiveness", "Assertiveness");
    ("persuasion", "Persuasion");
    ("activelistening", "Active Listening");
    ("active listening", "Active Listening");
    ("objectionhandling", "Objection Handling");
    ("objection handling", "Objection Handling");
    ("closingability", "Closing Ability");
    ("closing ability", "Closing Ability");
    ("conflictmanagement", "Conflict Management");
    ("conflict management", "Conflict Management") ].

(** The members of [Object.prototype], which an object literal inherits. *)
Definition Object_prototype : list string :=
  [ "constructor"; "__defineGetter__"; "__defineSetter__"; "hasOwnProperty";
    "__lookupGetter__"; "__lookupSetter__"; "isPrototypeOf";
    "propertyIsEnumerable"; "toString"; "valueOf"; "__proto__";
    "toLocaleString" ].

(** [CATEGORY_ALIASES[key]]: an own property, else an inherited one, else
    [undefined]. *)
Definition aliasOf (key : str) : option categoryValue :=
  match List.find (fun kv => str_eqb (u (fst kv)) key) CATEGORY_ALIASES with
  | Some (_, canonical) => Some (Name (u canonical))
  | None =>
      if existsb (fun member => str_eqb (u member) key) Object_prototype
      then Some (Inherited key)
      else None
  end.

(** [type ParsedResult]; [scores] refers to an array of the store. *)
Record ParsedResult := {
  summary : option str;
  feedback : option str;
  suggestions : option str;
  segments : list Segment;
  scores : loc;
}.

(** *** The patterns *)

Definition header (name : string) : RegExp :=
  {| source := cat [lit (u "##"); star ws; lit (u name); star ws;
                    Group 1 (lazyStar anyChar);
                    Lookahead (Alt (lit (u "##")) AssertEnd)];
     global := false; ignoreCase := true; multiline := false |}.

(** "/##\s*CONVERSATION OVERVIEW\s*([\s\S]*?)(?=##|$)/i" and the three
    patterns of the same shape (lines 83, 98, 113, 123). *)
Definition overviewRegex : RegExp := header "CONVERSATION OVERVIEW".
Definition analysisRegex : RegExp := header "USER PERFORMANCE ANALYSIS".
Definition recommendationsRegex : RegExp := header "IMPROVEMENT RECOMMENDATIONS".
Definition ratingRegex : RegExp := header "RATING".

(** "/^\*+/g" (line 127) *)
Definition starsRegex : RegExp :=
  {| source := cat [AssertStart; plus (lit (u "*"))];
     global := true; ignoreCase := false; multiline := false |}.

(** "/-?\s*([^:]+):\s*(\d+)/i" (line 132) *)
Definition scoreLineRegex : RegExp :=
  {| source := cat [opt (lit (u "-")); star ws; Group 1 (plus (noneOf ":"));
                    lit (u ":"); star ws; Group 2 (plus digit)];
     global := false; ignoreCase := true; multiline := false |}.

(** "/[\s\-_]+/g" (line 134) *)
Definition separatorsRegex : RegExp :=
  {| source := plus (Class false [Space; One 45%N; One 95%N]);
     global := true; ignoreCase := false; multiline := false |}.

Definition segmentOpen : list regex :=
  [lit (u "<segment:"); star ws; Group 1 (plus (noneOf ">")); lit (u ">");
   Group 2 (lazyStar anyChar)].

(** "/<segment:\s*([^>]+)>([\s\S]*?)<\/segment:\s*\1>/gi" (line 155) *)
Definition segRegex1 : RegExp :=
  {| source := cat (segmentOpen ++ [lit (u "</segment:"); star ws; Backref 1; lit (u ">")]);
     global := true; ignoreCase := true; multiline := false |}.

(** "/<segment:\s*([^>]+)>([\s\S]*?)<\/segment:[^>]+>/gi" (line 156) *)
Definition segRegex2 : RegExp :=
  {| source := cat (segmentOpen ++ [lit (u "</segment:"); plus (noneOf ">"); lit (u ">")]);
     global := true; ignoreCase := true; multiline := false |}.

(** "/<segment:\s*([^>]+)>([\s\S]*?)<\/segment>/gi" (line 157) *)
Definition segRegex3 : RegExp :=
  {| source := cat (segmentOpen ++ [lit (u "</segment>")]);
     global := true; ignoreCase := true; multiline := false |}.

(** "/Segment:\s*([^\n]+)\n([\s\S]*?)(?=Segment:|$)/gi" (line 221) *)
Definition plainTextRegex : RegExp :=
  {| source := cat [lit (u "Segment:"); star ws; Group 1 (plus (Class true [One 10%N]));
                    Char 10%N; Group 2 (lazyStar anyChar);
                    Lookahead (Alt (lit (u "Segment:")) AssertEnd)];
     global := true; ignoreCase := true; multiline := false |}.

(** "/^(\s*)(\w+):/gim" (lines 171, 188, 206, 231) *)
Definition speakerRegex : RegExp :=
  {| source := cat [AssertStart; Group 1 (star ws); Group 2 (plus word); lit (u ":")];
     global := true; ignoreCase := true; multiline := true |}.

(** *** Summary, feedback and suggestions (lines 81-120) *)

(** [a || b] on strings. *)
Definition orString (a b : str) : str := if nonEmpty a then a else b.

(** Truthiness of a field that is a string or [null]. *)
Definition isSet (field : option str) : bool :=
  match field with
  | Some s => nonEmpty s
  | None => false
  end.

Definition extractSummary (summaryText : str) : option str :=
  match String_match summaryText overviewRegex with
  | Some summaryMatch => Some (trim (at_ summaryMatch 1))
  | None =>
      if nonEmpty (trim summaryText)
      then Some (orString (trim (hd [] (split summaryText (u "##"))))
                          (substring summaryText 0 500))
      else None
  end.

Definition extractFeedback (summaryText : str) (summary' : option str) : option str :=
  match String_match summaryText analysisRegex with
  | Some feedbackMatch => Some (trim (at_ feedbackMatch 1))
  | None =>
      if nonEmpty (trim summaryText) && negb (isSet summary')
      then Some (substring summaryText 0 500)
      else None
  end.

Definition extractSuggestions (summaryText : str) : option str :=
  match String_match summaryText recommendationsRegex with
  | Some suggestionsMatch => Some (trim (at_ suggestionsMatch 1))
  | None => None
  end.

(** *** Scores (lines 122-151) *)

(** The lines of the RATING block (lines 125-128). *)
Definition ratingLines (block : str) : list str :=
  List.filter nonEmpty
    (map (fun l => trim (String_replace l starsRegex (fun _ => []))) (split block newline)).

(** One line of the block (lines 132-137): the entry it adds to
    [parsedScores], if it matches. *)
Definition parseScoreLine (line : str) : option ScoreEntry :=
  match String_match line scoreLineRegex with
  | Some m =>
      let rawCat :=
        String_replace (toLowerCase (trim (at_ m 1))) separatorsRegex (fun _ => []) in
      let canonicalCat := default (Name (trim (at_ m 1))) (aliasOf rawCat) in
      Some {| category := canonicalCat; score := toNumber (at_ m 2) |}
  | None => None
  end.

(** [parsedScores] as the loop of lines 131-138 leaves it: the entries are
    allocated in the order of the lines. *)
Fixpoint pushParsed (lines : list str) (h : heap) : list loc * heap :=
  match lines with
  | [] => ([], h)
  | line :: lines' =>
      match parseScoreLine line with
      | Some o =>
          let '(l, h1) := alloc (Obj o) h in
          let '(ls, h2) := pushParsed lines' h1 in
          (l :: ls, h2)
      | None => pushParsed lines' h
      end
  end.

(** [defaultScores.map((s) => ({ ...s }))] (line 56): a new array of new
    objects. *)
Fixpoint copyEach (elements : list loc) (h : heap) : list loc * heap :=
  match elements with
  | [] => ([], h)
  | l :: elements' =>
      match object h l with
      | Some o =>
          let '(l', h1) := alloc (Obj {| category := category o; score := score o |}) h in
          let '(ls, h2) := copyEach elements' h1 in
          (l' :: ls, h2)
      | None => copyEach elements' h
      end
  end.

Definition copyScores (h : heap) : loc * heap :=
  let '(copies, h1) := copyEach (default [] (array h defaultScores)) h in
  alloc (Arr copies) h1.

(** [defaultMap] (lines 140-141): the index of each category of the table;
    a later [set] of the same key replaces the earlier one. *)
Definition scoreMap := list (categoryValue * nat).

Definition mapSet (m : scoreMap) (k : categoryValue) (i : nat) : scoreMap :=
  (k, i) :: List.filter (fun ki => negb (bool_decide (fst ki = k))) m.

Definition mapGet (m : scoreMap) (k : categoryValue) : option nat :=
  option_map snd (List.find (fun ki => bool_decide (fst ki = k)) m).

Fixpoint indexAll (h : heap) (elements : list loc) (i : nat) (m : scoreMap) : scoreMap :=
  match elements with
  | [] => m
  | l :: elements' =>
      match object h l with
      | Some s => indexAll h elements' (S i) (mapSet m (category s) i)
      | None => indexAll h elements' (S i) m
      end
  end.

(** The loop of lines 143-150 over [parsedScores]: an entry of a category
    of the table replaces the element at its index by a new object, any
    other entry is itself pushed. *)
Fixpoint mergeParsed (defaultMap : scoreMap) (scores' : loc) (parsedScores : list loc)
    (h : heap) : heap :=
  match parsedScores with
  | [] => h
  | l :: parsedScores' =>
      match object h l, array h scores' with
      | Some ps, Some elements =>
          match mapGet defaultMap (category ps) with
          | Some idx =>
              let '(l', h1) := alloc (Obj {| category := category ps; score := score ps |}) h in
              mergeParsed defaultMap scores' parsedScores'
                (<[scores' := Arr (<[idx := l']> elements)]> h1)
          | None =>
              mergeParsed defaultMap scores' parsedScores'
                (<[scores' := Arr (elements ++ [l])]> h)
          end
      | _, _ => mergeParsed defaultMap scores' parsedScores' h
      end
  end.

Definition extractScores (summaryText : str) (scores' : loc) (h : heap) : heap :=
  match String_match summaryText ratingRegex with
  | Some ratingMatch =>
      let lines := ratingLines (at_ ratingMatch 1) in
      let '(parsedScores, h1) := pushParsed lines h in
      let defaultMap := indexAll h1 (default [] (array h1 scores')) 0 [] in
      mergeParsed defaultMap scores' parsedScores h1
  | None => h
  end.

(** *** Segments (lines 153-240) *)

(** The replacement of line 170: the speaker label in bold, its first
    letter in upper case. *)
Definition boldSpeakers (content' : str) : str :=
  String_replace content' speakerRegex
    (fun m =>
       let ws := at_ m 1 in
       let speaker := at_ m 2 in
       ws ++ u "**" ++ toUpperCase (charAt speaker 0) ++ slice speaker 1 ++ u ":**").

(** The variables the four loops share. *)
Record Extraction := {
  found : list Segment;        (* result.segments *)
  segmentCount : nat;
  usedRegex : string;
}.

Definition noSegments : Extraction :=
  {| found := []; segmentCount := 0; usedRegex := "" |}.

(** [while ((segMatch = R.exec(text)) !== null) body]: [lastIndex] is the
    pattern's own, set by [exec] to the end of the match. *)
Fixpoint whileExec (R : RegExp) (text : str) (body : list (option str) -> Extraction -> Extraction)
    (fuel lastIndex : nat) (state : Extraction) : Extraction :=
  match fuel with
  | O => state
  | S fuel' =>
      match exec R text lastIndex with
      | None => state
      | Some segMatch =>
          whileExec R text body fuel' (stop segMatch) (body (matched segMatch) state)
      end
  end.

(** The body of the first three loops (lines 165-178). *)
Definition pushSegment (name : string) (segMatch : list (option str)) (state : Extraction)
    : Extraction :=
  let title' := trim (at_ segMatch 1) in
  let content' := boldSpeakers (trim (at_ segMatch 2)) in
  {| found := found state ++ [{| title := title'; content := content' |}];
     segmentCount := S (segmentCount state);
     usedRegex := name |}.

(** The body of the plain-text loop (lines 223-238). *)
Definition pushPlainSegment (segMatch : list (option str)) (state : Extraction) : Extraction :=
  let title' := trim (at_ segMatch 1) in
  let content' := trim (at_ segMatch 2) in
  if (length content' <? 10)%nat then state
  else
    {| found := found state ++ [{| title := title'; content := boldSpeakers content' |}];
       segmentCount := S (segmentCount state);
       usedRegex := "plainText" |}.

Definition tryRegex (R : RegExp) (name : string) (detailText : str) (state : Extraction)
    : Extraction :=
  whileExec R detailText (pushSegment name) (S (length detailText)) 0 state.

Definition tryPlainText (detailText : str) (state : Extraction) : Extraction :=
  whileExec plainTextRegex detailText pushPlainSegment (S (length detailText)) 0 state.

Definition unlessFound (step : Extraction -> Extraction) (state : Extraction) : Extraction :=
  if Nat.eqb (segmentCount state) 0 then step state else state.

(** The state after the three loops over the tag patterns (line 216),
    and after the four. *)
Definition taggedSegments (detailText : str) : Extraction :=
  let s1 := tryRegex segRegex1 "regex1" detailText noSegments in
  let s2 := unlessFound (tryRegex segRegex2 "regex2" detailText) s1 in
  unlessFound (tryRegex segRegex3 "regex3" detailText) s2.

Definition extractSegments (detailText : str) : Extraction :=
  let s1 := tryRegex segRegex1 "regex1" detailText noSegments in
  let s2 := unlessFound (tryRegex segRegex2 "regex2" detailText) s1 in
  let s3 := unlessFound (tryRegex segRegex3 "regex3" detailText) s2 in
  unlessFound (tryPlainText detailText) s3.

(** *** The console

    What [Parser] writes: the calls of [console.log], [console.warn] and
    [console.error] in the order they are made, each with its arguments. A
    number the code computes is a count, a value it reads in the parsed
    text is that value ([None] for [undefined]), and an exception is its
    name. *)
Inductive method := log | warn | error.

Inductive logged :=
| LText (s : str)
| LCount (n : nat)
| LBool (b : bool)
| LValue (v : option json)
| LError (name : string)
| LObject (members : list (string * logged)).

Definition call := (method * list logged)%type.

(** [v.length] of a value that is not [null]. *)
Definition lengthOf (v : json) : option json :=
  match v with
  | JString s => Some (JNumber (Z.of_nat (length s)) 0)
  | JArray elements => Some (JNumber (Z.of_nat (length elements)) 0)
  | JObject members => lookupLast members (u "length")
  | _ => None
  end.

(** [!!parsed.key] and [parsed.key?.length || 0] (lines 63-66). *)
Definition hasMember (parsed : json) (key : string) : bool :=
  match get parsed (u key) with
  | Some v => truthy v
  | None => false
  end.

Definition memberLength (parsed : json) (key : string) : json :=
  match get parsed (u key) with
  | Some JNull | None => JNumber 0 0
  | Some v => orElse (lengthOf v) (JNumber 0 0)
  end.

(** Line 49, and lines 62-67 and 76-79 or line 69. *)
Definition inputLine (rawText : str) : call :=
  (log, [LText (u "[Parser] Input length:"); LCount (length rawText)]).

Definition parsedLine (parsed : json) : call :=
  (log, [LText (u "[Parser] Parsed JSON successfully:");
         LObject [ ("hasSummaryAnalysis", LBool (hasMember parsed "summaryAnalysis"));
                   ("hasDetailedFeedback", LBool (hasMember parsed "detailedFeedback"));
                   ("summaryAnalysisLength", LValue (Some (memberLength parsed "summaryAnalysis")));
                   ("detailedFeedbackLength",
                    LValue (Some (memberLength parsed "detailedFeedback"))) ]]).

Definition invalidLine (rawText : str) : call :=
  (error, [LText (u "[Parser] Invalid JSON string:");
           LError (match JSON_parse rawText with
                   | Some _ => "TypeError"
                   | None => "SyntaxError"
                   end)]).

Definition extractingLine (summaryText detailText : json) : call :=
  (log, [LText (u "[Parser] Extracting data:");
         LObject [ ("summaryTextLength", LValue (lengthOf summaryText));
                   ("detailTextLength", LValue (lengthOf detailText)) ]]).

(** Lines 85-89, 100-104 and 115-119: the length of the block, or that
    the header was not found. *)
Definition blockLine (R : RegExp) (summaryText : str) (found' missing : string) : call :=
  match String_match summaryText R with
  | Some m => (log, [LText (u found'); LCount (length (trim (at_ m 1)))])
  | None => (warn, [LText (u missing)])
  end.

Definition blockLines (summaryText : str) : list call :=
  [ blockLine overviewRegex summaryText "[Parser] Extracted summary, length:"
      "[Parser] No CONVERSATION OVERVIEW found in summaryText";
    blockLine analysisRegex summaryText "[Parser] Extracted feedback, length:"
      "[Parser] No USER PERFORMANCE ANALYSIS found";
    blockLine recommendationsRegex summaryText "[Parser] Extracted suggestions, length:"
      "[Parser] No IMPROVEMENT RECOMMENDATIONS found" ].

(** Line 220, when the three tag patterns found nothing, and lines
    242-243; [text] is the detail text as [exec] reads it. *)
Definition segmentLines (text : str) (detailText : json) : list call :=
  (if Nat.eqb (segmentCount (taggedSegments text)) 0
   then [(log, [LText (u "[Parser] Trying plain text segment format")])]
   else [])
  ++ [ (log, [LText (u "[Parser] Extracted segments:");
              LCount (segmentCount (extractSegments text));
              LText (u "using");
              LText (match usedRegex (extractSegments text) with
                     | EmptyString => u "none"
                     | name => u name
                     end)]);
       (log, [LText (u "[Parser] detailText length:"); LValue (lengthOf detailText)]) ].

(** Lines 244, 247 and 250-256. *)
Definition containsLine (contains : bool) : call :=
  (log, [LText (u "[Parser] detailText contains <segment:"); LBool contains]).

Definition previewLine (detailText : str) : call :=
  (warn, [LText (u "[Parser] No segments found. detailText preview:");
          LText (substring detailText 0 500)]).

Definition finalLine (summary' feedback' suggestions' : option str)
    (segmentsCount scoresCount : nat) : call :=
  (log, [LText (u "[Parser] Final result:");
         LObject [ ("hasSummary", LBool (isSet summary'));
                   ("hasFeedback", LBool (isSet feedback'));
                   ("hasSuggestions", LBool (isSet suggestions'));
                   ("segmentsCount", LCount segmentsCount);
                   ("scoresCount", LCount scoresCount) ]]).

(** [detailText.includes('<segment:')] on an array. *)
Definition hasElement (elements : list json) (s : str) : bool :=
  existsb (fun e => match e with JString s' => str_eqb s' s | _ => false end) elements.

(** *** The parser *)

Inductive outcome :=
| Returned (result : ParsedResult)
| Threw.                                    (* a TypeError leaves the function *)

(** The [try] block (lines 60-71): [JSON.parse] throws on invalid text, and
    reading a property of [null] throws as well; both are caught. *)
Definition tryParse (rawText : str) : option json :=
  match JSON_parse rawText with
  | Some JNull => None
  | Some parsed => Some parsed
  | None => None
  end.

(** Lines 73-74. *)
Definition summaryTextOf (parsed : json) : json :=
  orElse (get parsed (u "summaryAnalysis")) (orElse (get parsed (u "summary")) (JString [])).

Definition detailTextOf (parsed : json) : json :=
  orElse (get parsed (u "detailedFeedback")) (orElse (get parsed (u "detail")) (JString [])).

Section Parser.

Variable Number_toString : Z -> Z -> str.

(** The result, the store and what has been written to the console when
    the call returns or throws. *)
Definition Parser (rawText : str) (h : heap) : outcome * heap * list call :=
  let '(scores0, h0) := copyScores h in
  let result :=
    {| summary := None; feedback := None; suggestions := None;
       segments := []; scores := scores0 |} in
  match tryParse rawText with
  | None => (Returned result, h0, [inputLine rawText; invalidLine rawText])
  | Some parsed =>
      let summaryText := summaryTextOf parsed in
      let detailText := detailTextOf parsed in
      let said := [inputLine rawText; parsedLine parsed; extractingLine summaryText detailText] in
      match summaryText with
      | JString summaryText =>
          let summary' := extractSummary summaryText in
          let feedback' := extractFeedback summaryText summary' in
          let suggestions' := extractSuggestions summaryText in
          let h1 := extractScores summaryText scores0 h0 in
          let said := said ++ blockLines summaryText in
          (* [exec] converts its argument to a string *)
          match ToString Number_toString detailText with
          | Some text =>
              let extraction := extractSegments text in
              let result :=
                {| summary := summary'; feedback := feedback'; suggestions := suggestions';
                   segments := found extraction; scores := scores0 |} in
              let said := said ++ segmentLines text detailText in
              let final :=
                finalLine summary' feedback' suggestions' (length (found extraction))
                  (length (default [] (array h1 scores0))) in
              match detailText with
              | JString d =>
                  (Returned result, h1,
                   said ++ [containsLine (includes d (u "<segment:"))]
                   ++ (if Nat.eqb (segmentCount extraction) 0 && negb (Nat.eqb (length d) 0)
                       then [previewLine d] else [])
                   ++ [final])
              | JArray elements =>
                  (* line 247: an array has no [substring] *)
                  if Nat.eqb (segmentCount extraction) 0 && negb (Nat.eqb (length elements) 0)
                  then (Threw, h1, said ++ [containsLine (hasElement elements (u "<segment:"))])
                  else (Returned result, h1,
                        said ++ [containsLine (hasElement elements (u "<segment:")); final])
              | _ => (Threw, h1, said)   (* line 244: no [includes] to call *)
              end
          | None => (Threw, h1, said)    (* line 164: the conversion throws *)
          end
      | _ => (Threw, h0, said)           (* line 82: no [match] to call *)
      end
  end.

End Parser.

(** *** Reading a result

    What a caller finds behind a result: the fields, with the score entries
    the array holds. *)
Record Report := {
  summaryOf : option str;
  feedbackOf : option str;
  suggestionsOf : option str;
  segmentsOf : list Segment;
  scoresOf : list ScoreEntry;
}.

Definition read (h : heap) (r : ParsedResult) : option Report :=
  match entries h (scores r) with
  | Some table =>
      Some {| summaryOf := summary r; feedbackOf := feedback r;
              suggestionsOf := suggestions r; segmentsOf := segments r;
              scoresOf := table |}
  | None => None
  end.

Inductive observed :=
| Result (report : Report)
| TypeError.

(** What a call is seen to do: [None] would be a result whose array has
    been lost. *)
Definition observe (run : outcome * heap) : option observed :=
  match run with
  | (Returned r, h) => option_map Result (read h r)
  | (Threw, _) => Some TypeError
  end.

(** [h'] keeps every object of [h] where it was. *)
Definition keeps (h h' : heap) : Prop :=
  forall l o, object h l = Some o -> object h' l = Some o.

(** The table of the module is as the module left it. *)
Definition intact (h : heap) : Prop :=
  entries h defaultScores = Some defaultTable.

(** *** The score table as a value

    The table a call builds, written on lists of entries instead of the
    store; [extractScores_spec] below shows that the array of the result holds
    exactly this. *)
Fixpoint indexEntries (table : list ScoreEntry) (i : nat) (m : scoreMap) : scoreMap :=
  match table with
  | [] => m
  | s :: table' => indexEntries table' (S i) (mapSet m (category s) i)
  end.

Fixpoint mergeEntries (defaultMap : scoreMap) (table parsed : list ScoreEntry)
    : list ScoreEntry :=
  match parsed with
  | [] => table
  | ps :: parsed' =>
      match mapGet defaultMap (category ps) with
      | Some idx => mergeEntries defaultMap (<[idx := ps]> table) parsed'
      | None => mergeEntries defaultMap (table ++ [ps]) parsed'
      end
  end.

Definition scoresFor (summaryText : str) : list ScoreEntry :=
  match String_match summaryText ratingRegex with
  | Some ratingMatch =>
      mergeEntries (indexEntries defaultTable 0 []) defaultTable
        (omap parseScoreLine (ratingLines (at_ ratingMatch 1)))
  | None => defaultTable
  end.

(** The lines of the RATING block of a summary text, none when it has no
    such block. *)
Definition ratedLines (summaryText : str) : list str :=
  match String_match summaryText ratingRegex with
  | Some ratingMatch => ratingLines (at_ ratingMatch 1)
  | None => []
  end.

(** The last of the parsed entries of a category, and whether a category
    is one of the default table. *)
Definition lastWith (c : categoryValue) (parsed : list ScoreEntry) : option ScoreEntry :=
  last (List.filter (fun p => bool_decide (category p = c)) parsed).

Definition inDefaultTable (c : categoryValue) : bool :=
  existsb (fun d => bool_decide (category d = c)) defaultTable.

(** The table a list of parsed entries leads to: each entry of the default
    table, or in its place the last parsed entry of its category, and then
    the parsed entries of the other categories, in the order of the lines. *)
Definition tableOf (parsed : list ScoreEntry) : list ScoreEntry :=
  map (fun d => default d (lastWith (category d) parsed)) defaultTable
  ++ List.filter (fun p => negb (inDefaultTable (category p))) parsed.

(** The body of the loop of lines 143-150. *)
Definition mergeStep (table : list ScoreEntry) (ps : ScoreEntry) : list ScoreEntry :=
  match mapGet (indexEntries defaultTable 0 []) (category ps) with
  | Some idx => <[idx := ps]> table
  | None => table ++ [ps]
  end.

(** The stores the module can be in: the one it is loaded with, and those
    calls of [Parser] leave. *)
Inductive reachable : heap -> Prop :=
| reachable_loaded : reachable moduleHeap
| reachable_called (Number_toString : Z -> Z -> str) (rawText : str) (h : heap) :
    reachable h -> reachable (snd (fst (Parser Number_toString rawText h))).

(** What a call is seen to do, as a function of the text alone;
    [Parser_reportOf] below shows that [Parser] does this whatever earlier
    calls have left in the store. *)
Definition reportOf (Number_toString : Z -> Z -> str) (rawText : str) : observed :=
  match tryParse rawText with
  | None =>
      Result {| summaryOf := None; feedbackOf := None; suggestionsOf := None;
                segmentsOf := []; scoresOf := defaultTable |}
  | Some parsed =>
      match summaryTextOf parsed, ToString Number_toString (detailTextOf parsed) with
      | JString summaryText, Some text =>
          let extraction := extractSegments text in
          let report :=
            {| summaryOf := extractSummary summaryText;
               feedbackOf := extractFeedback summaryText (extractSummary summaryText);
               suggestionsOf := extractSuggestions summaryText;
               segmentsOf := found extraction;
               scoresOf := scoresFor summaryText |} in
          match detailTextOf parsed with
          | JString _ => Result report
          | JArray elements =>
              if Nat.eqb (segmentCount extraction) 0 && negb (Nat.eqb (length elements) 0)
              then TypeError
              else Result report
          | _ => TypeError
          end
      | _, _ => TypeError
      end
  end.

(** [h'] has the cells of [h] below [n], but for the one at [a]. *)
Definition same_below (n a : nat) (h h' : heap) : Prop :=
  forall l, (l < n)%nat -> l <> a -> h' !! l = h !! l.

(** The segment a match of one of the tag patterns adds, the one a match
    of the plain-text pattern adds, and the test of line 227. *)
Definition segmentOf (m : list (option str)) : Segment :=
  {| title := trim (at_ m 1); content := boldSpeakers (trim (at_ m 2)) |}.

Definition longEnough (m : list (option str)) : bool :=
  negb (length (trim (at_ m 2)) <? 10)%nat.

(** The successive results of [R.exec(text)], as the [while] loops
    receive them. *)
Fixpoint execAll (R : RegExp) (text : str) (fuel lastIndex : nat) : list (list (option str)) :=
  match fuel with
  | O => []
  | S fuel' =>
      match exec R text lastIndex with
      | None => []
      | Some m => matched m :: execAll R text fuel' (stop m)
      end
  end.

(** The categories the specification calls canonical, and its reading of
    a complete score table: not empty, and each of them present with a
    score from 0 to 100. *)
Definition canonicalCategories : list string :=
  [ "Empathy"; "Clarity"; "Assertiveness"; "Persuasion"; "Active Listening";
    "Objection Handling"; "Closing Ability"; "Flexibility" ].

Definition upTo100 (n : jsNumber) : bool :=
  match n with
  | Finite z => (0 <=? z) && (z <=? 100)
  | Infinity => false
  end.

Definition scoresComplete (table : list ScoreEntry) : bool :=
  negb (Nat.eqb (length table) 0) &&
  forallb
    (fun c =>
       existsb (fun e => bool_decide (category e = Name (u c)) && upTo100 (score e)) table)
    canonicalCategories.

(** A number that is an integer and not negative, or [Infinity]. *)
Definition wholeOrInfinite (n : jsNumber) : Prop :=
  match n with
  | Finite z => 0 <= z
  | Infinity => True
  end.

(** What a call writes, as a function of the text alone;
    [Parser_console] below shows that [Parser] writes this whatever earlier
    calls have left in the store. *)
Definition consoleFor (Number_toString : Z -> Z -> str) (rawText : str) : list call :=
  match tryParse rawText with
  | None => [inputLine rawText; invalidLine rawText]
  | Some parsed =>
      let said :=
        [inputLine rawText; parsedLine parsed;
         extractingLine (summaryTextOf parsed) (detailTextOf parsed)] in
      match summaryTextOf parsed with
      | JString summaryText =>
          let said := said ++ blockLines summaryText in
          match ToString Number_toString (detailTextOf parsed) with
          | Some text =>
              let extraction := extractSegments text in
              let said := said ++ segmentLines text (detailTextOf parsed) in
              let final :=
                finalLine (extractSummary summaryText)
                  (extractFeedback summaryText (extractSummary summaryText))
                  (extractSuggestions summaryText) (length (found extraction))
                  (length (scoresFor summaryText)) in
              match detailTextOf parsed with
              | JString d =>
                  said ++ [containsLine (includes d (u "<segment:"))]
                  ++ (if Nat.eqb (segmentCount extraction) 0 && negb (Nat.eqb (length d) 0)
                      then [previewLine d] else [])
                  ++ [final]
              | JArray elements =>
                  if Nat.eqb (segmentCount extraction) 0 && negb (Nat.eqb (length elements) 0)
                  then said ++ [containsLine (hasElement elements (u "<segment:"))]
                  else said ++ [containsLine (hasElement elements (u "<segment:")); final]
              | _ => said
              end
          | None => said
          end
      | _ => said
      end
  end.

End Report.

(** ** The score extractor ([extractScoresFromSummary]) *)

Module Extractor.
Import Js RegExp.

(** "/##\s*RATING\s*([\s\S]*?)(?=##|$)/i" (line 715) *)
Definition ratingRegex : RegExp :=
  {| source := cat [lit (u "##"); star ws; lit (u "RATING"); star ws;
                    Group 1 (lazyStar anyChar);
                    Lookahead (Alt (lit (u "##")) AssertEnd)];
     global := false; ignoreCase := true; multiline := false |}.

(** "/[-*]\s*([^:]+):\s*(\d+)/i" (line 727) *)
Definition lineRegex : RegExp :=
  {| source := cat [oneOf "-*"; star ws; Group 1 (plus (noneOf ":"));
                    lit (u ":"); star ws; Group 2 (plus digit)];
     global := false; ignoreCase := true; multiline := false |}.

(** "/[\s\-_]+/g" (line 729) *)
Definition separatorsRegex : RegExp :=
  {| source := plus (Class false [Space; One 45%N; One 95%N]);
     global := true; ignoreCase := false; multiline := false |}.

(** [const scores: Record<string, number> = {}]: the properties in the
    order they were first assigned. *)
Definition record := list (string * jsNumber).

(** [scores.key = score] *)
Fixpoint assign (scores : record) (key : string) (score : jsNumber) : record :=
  match scores with
  | [] => [(key, score)]
  | (k, v) :: scores' =>
      if String.eqb k key then (k, score) :: scores'
      else (k, v) :: assign scores' key score
  end.

(** [scores[key]] *)
Fixpoint property (scores : record) (key : string) : option jsNumber :=
  match scores with
  | [] => None
  | (k, v) :: scores' => if String.eqb k key then Some v else property scores' key
  end.

(** The chain of lines 733-752 for one matching line. *)
Definition assignCategory (scores : record) (category : str) (score : jsNumber) : record :=
  let has (s : string) := includes category (u s) in
  if has "empathy" then assign scores "empathy" score
  else if has "clarity" then assign scores "clarity" score
  else if has "assertiveness" then assign scores "assertiveness" score
  else if has "persuasion" then assign scores "persuasion" score
  else if has "activelistening" || (has "active" && has "listening")
  then assign scores "activeListening" score
  else if has "objectionhandling" || (has "objection" && has "handling")
  then assign scores "objectionHandling" score
  else if has "closingability" || (has "closing" && has "ability")
  then assign scores "closingAbility" score
  else if has "flexibility" || has "flexible"
  then assign scores "flexibility" score
  else if has "openmindedness" || has "openminded" || (has "open" && has "mind")
  then assign scores "flexibility" score
  else scores.

(** [token.trim().toLowerCase().replace(/[\s\-_]+/g, '')] (line 729) *)
Definition normalise (token : str) : str :=
  String_replace (toLowerCase (trim token)) separatorsRegex (fun _ => []).

(** The body of the loop over the lines (lines 726-753). *)
Definition scanLine (scores : record) (line : str) : record :=
  match String_match line lineRegex with
  | Some m =>
      let category := normalise (at_ m 1) in
      let score := toNumber (at_ m 2) in
      assignCategory scores category score
  | None => scores
  end.

Definition extractScoresFromSummary (summaryAnalysis : str) : option record :=
  match String_match summaryAnalysis ratingRegex with
  | None => None
  | Some ratingMatch =>
      let ratingText := at_ ratingMatch 1 in
      let lines := List.filter nonEmpty (map trim (split ratingText newline)) in
      let scores := fold_left scanLine lines [] in
      match scores with
      | [] => None
      | _ => Some scores
      end
  end.

End Extractor.

(** ** The retry options of the three stages *)

Module Stages.
Import Retry.

(** [analyzeTranscript] ([transcriptAnalyzer.ts], lines 211-215) *)
Definition analyzeTranscript_options : RetryOptions :=
  {| maxRetries := Some 2; initialDelay := Some 500; maxDelay := Some 5000;
     retryable := None |}.

(** [generateSummary] ([transcriptSummaryAnalyzer.ts], lines 522-526) *)
Definition generateSummary_options : RetryOptions :=
  {| maxRetries := Some 2; initialDelay := Some 500; maxDelay := Some 5000;
     retryable := None |}.

(** [analyzeDetails] ([transcriptDetailAgent.ts], lines 255-259) *)
Definition analyzeDetails_options : RetryOptions :=
  {| maxRetries := Some 2; initialDelay := Some 500; maxDelay := Some 5000;
     retryable := None |}.

End Stages.

(** ** Sample inputs *)

Module Samples.
Import Js Json Retry Report.

(** An operation that always rejects with a time-out; its world counts the
    calls made. *)
Definition timeoutError : thrown := ErrorObj None (Text (u "Request timeout")).
Definition alwaysTimeout (calls : nat) : settled unit * nat :=
  (Rejected timeoutError, S calls).

(** An operation that rejects with an error that is not retryable. *)
Definition badRequest : thrown := ErrorObj None (Text (u "400 Bad Request")).
Definition alwaysBadRequest (calls : nat) : settled unit * nat :=
  (Rejected badRequest, S calls).

(** An operation that rejects with an object whose message is a number,
    as [{ message: 5 }]. *)
Definition numericMessage : thrown := ErrorObj None Other.
Definition alwaysNumericMessage (calls : nat) : settled unit * nat :=
  (Rejected numericMessage, S calls).

(** A retry budget below zero. *)
Definition negativeBudget : RetryOptions :=
  {| maxRetries := Some (-1); initialDelay := None; maxDelay := None;
     retryable := None |}.

Definition twoRetries : RetryOptions :=
  {| maxRetries := Some 2; initialDelay := Some 500; maxDelay := Some 800;
     retryable := None |}.

(** No JSON array is printed for these inputs, so any printing of numbers
    does. *)
Definition noNumbers (mantissa exp10 : Z) : str := [].

(** The text the specification gives for the score extractor. *)
Definition openMindedness : str := u "## RATING" ++ newline ++ u "- Open-Mindedness: 40".

Definition notJson : str := u "Report unavailable".

Definition headerless : str := quoted "{'summaryAnalysis':'The call went well.','detailedFeedback':''}".

Definition overRated : str :=
  quoted "{'summaryAnalysis':'## RATING\n- Empathy: 150','detailedFeedback':''}".

Definition wellFormed : str :=
  quoted "{'summaryAnalysis':'## CONVERSATION OVERVIEW\nA short call.\n## RATING\n- Empathy: 70\n','detailedFeedback':'<segment:Opening>\nuser: Hi\ncustomer: Hi\n</segment:Opening>'}".

(** Detail texts for the four patterns: an open and a close tag of the
    same title, of titles that differ in case (the second in the letter
    e with an acute accent, U+00E9 and U+00C9, between tags of other
    titles), of two titles, a close tag without a title, and plain text
    whose second segment has 5 characters. *)
Definition matchedTags : str := u "<segment:Opening>user: Hi</segment:Opening>".
Definition caseTitles : str := u "<segment:Opening>user: Hi</segment:OPENING>".
Definition accentedTitles : str :=
  u "<segment:" ++ [233%N] ++ u ">a</segment:X><segment:b>c</segment:" ++ [201%N] ++ u ">".
Definition otherTitle : str := u "<segment:Opening>user: Hi</segment:Closing>".
Definition untitledClose : str := u "<segment:Opening>user: Hi</segment>".
Definition plainSegments : str :=
  u "Segment: One" ++ newline ++ u "user: hello there" ++ newline
  ++ u "Segment: Two" ++ newline ++ u "short" ++ newline
  ++ u "Segment: Three" ++ newline ++ u "agent: long enough".

End Samples.


(** ** The retry options of the scenario generator *)

Module Generator.
Import Retry.

(** [generateScenario] ([scenarioGenerator.ts], lines 226-230) *)
Definition generateScenario_options : RetryOptions :=
  {| maxRetries := Some 3; initialDelay := Some 1000; maxDelay := Some 10000;
     retryable := None |}.

End Generator.

(** ** Runs of the retry wrapper *)

Module Runs.
Import Retry.

(** A call that ends the loop: it resolves, or is rejected with an error
    for which the predicate does not return [true]. *)
Definition final {T : Type} (p : thrown -> verdict) (s : settled T) : Prop :=
  match s with
  | Resolved _ => True
  | Rejected e => p e <> Says true
  end.

(** What the wrapper settles with after such a call: as the call did,
    unless the predicate throws on its error. *)
Definition conclude {T : Type} (p : thrown -> verdict) (s : settled T) : settled T :=
  match s with
  | Resolved v => Resolved v
  | Rejected e =>
      match p e with
      | Throws => Rejected TypeError
      | Says _ => Rejected e
      end
  end.

End Runs.

(** ** Sample operations *)

Module Operations.
Import Js Retry.

(** An operation that times out until it has been called [failures] times
    and resolves with the number of the call from then on; its world counts
    the calls made. *)
Definition flaky (failures : nat) (calls : nat) : settled nat * nat :=
  if (calls <? failures)%nat
  then (Rejected (ErrorObj None (Text (u "Request timeout"))), S calls)
  else (Resolved calls, S calls).

End Operations.

(** ** The token budgets of the three stages

    [max_tokens] is computed from the length of the text handed to the
    stage. The doubles involved are halves of integers far below [2 ^ 53],
    so the arithmetic is exact and is done here on rationals. *)

Module Tokens.
Import QArith Qround Qminmax.
Local Open Scope Q_scope.

(** [Math.ceil(length / 4)] *)
Definition estimatedTokens (length : nat) : Z :=
  Qceiling (inject_Z (Z.of_nat length) / 4).

(** [Math.floor(Math.min(Math.max(estimatedTokens * factor, 512), 2048))] *)
Definition budget (factor : Q) (length : nat) : Z :=
  Qfloor (Qmin (Qmax (inject_Z (estimatedTokens length) * factor) 512) 2048).

(** [analyzeTranscript] ([transcriptAnalyzer.ts], lines 197-199): the
    factor is 2. *)
Definition analyzeTranscript_maxTokens (transcriptLength : nat) : Z :=
  budget 2 transcriptLength.

(** [generateSummary] (lines 508-510 of its file): the
    factor is 1.5. *)
Definition generateSummary_maxTokens (transcriptLength : nat) : Z :=
  budget 1.5 transcriptLength.

(** [analyzeDetails] ([transcriptDetailAgent.ts], lines 242-244): the
    factor is 1.5, the length that of the segmented analysis. *)
Definition analyzeDetails_maxTokens (segmentLength : nat) : Z :=
  budget 1.5 segmentLength.

End Tokens.

(** ** Readings of a report *)

Module Reading.
Import Js RegExp Json Report.

(** The result [Parser] starts from (lines 51-57), as a caller reads it. *)
Definition defaultReport : Report :=
  {| summaryOf := None; feedbackOf := None; suggestionsOf := None;
     segmentsOf := []; scoresOf := defaultTable |}.

(** A member that is missing or holds a falsy value: [null], [false], [0]
    or the empty string. *)
Definition falsy (member : option json) : bool :=
  match member with
  | Some v => negb (truthy v)
  | None => true
  end.

(** The entries parsed from the RATING block of a summary text. *)
Definition parsedScores (block : str) : list ScoreEntry :=
  omap parseScoreLine (ratingLines block).

(** A string without white space at either end. *)
Definition trimmed (s : str) : bool :=
  match s with
  | [] => true
  | c :: _ => negb (isWhiteSpace c) && negb (isWhiteSpace (List.last s c))
  end.

End Reading.

Module ParserSamples.
Import Js Json Report.

Definition falsyTexts : str := quoted "{'summary':null,'detail':0,'other':'x'}".

Definition numericSummary : str := quoted "{'summaryAnalysis':7,'detailedFeedback':''}".

(** A RATING block that names Empathy and Persuasion twice, as the text
    and as the JSON text that carries it. *)
Definition repeatedScoresSummary : str :=
  u "## RATING" ++ newline ++ u "- Empathy: 10" ++ newline ++ u "- Persuasion: 70"
  ++ newline ++ u "- empathy: 20" ++ newline ++ u "- Persuasion: 60" ++ newline.

Definition repeatedScores : str :=
  quoted "{'summaryAnalysis':'## RATING\n- Empathy: 10\n- Persuasion: 70\n- empathy: 20\n- Persuasion: 60\n','detailedFeedback':''}".

(** An overview header with nothing under it. *)
Definition emptyOverviewSummary : str :=
  u "## CONVERSATION OVERVIEW" ++ newline ++ u "## RATING" ++ newline ++ u "- Empathy: 70".

Definition emptyOverview : str :=
  quoted "{'summaryAnalysis':'## CONVERSATION OVERVIEW\n## RATING\n- Empathy: 70','detailedFeedback':''}".

(** The two texts of [Samples.wellFormed]. *)
Definition wellFormedSummary : str :=
  u "## CONVERSATION OVERVIEW" ++ newline ++ u "A short call." ++ newline
  ++ u "## RATING" ++ newline ++ u "- Empathy: 70" ++ newline.

Definition wellFormedDetail : str :=
  u "<segment:Opening>" ++ newline ++ u "user: Hi" ++ newline ++ u "customer: Hi"
  ++ newline ++ u "</segment:Opening>".

End ParserSamples.

(** ** The properties of an extracted mapping *)

Module Keys.
Import Js Extractor.

(** The properties [extractScoresFromSummary] assigns (entry point, lines
    731-752). *)
Definition extractorKeys : list string :=
  [ "empathy"; "clarity"; "assertiveness"; "persuasion"; "activeListening";
    "objectionHandling"; "closingAbility"; "flexibility" ].

(** A mapping with each property once, every property one of those and
    every score a non-negative integer or [Infinity]. *)
Definition wellKeyed (scores : record) : Prop :=
  NoDup (map fst scores) /\
  Forall (fun kv => In (fst kv) extractorKeys /\ Report.wholeOrInfinite (snd kv)) scores.

End Keys.

(** ** [JSON.stringify]

    A JSON value stands for the JavaScript value it denotes, an object
    being the list of its properties in the order [JSON.stringify] goes
    through them. Numbers are printed in this development when they are
    integers of absolute value at most [2 ^ 53], in decimal. *)

Module Stringify.
Import Js Json.

Section CodeUnits.
Local Open Scope N_scope.

Definition hexDigit (d : N) : N := if d <? 10 then 48 + d else 87 + d.

(** UnicodeEscape: "\u" and four lower-case hexadecimal digits. *)
Definition unicodeEscape (c : N) : str :=
  [92; 117; hexDigit (c / 4096); hexDigit ((c / 256) mod 16);
   hexDigit ((c / 16) mod 16); hexDigit (c mod 16)].

Definition isHighSurrogate (c : N) : bool := (0xD800 <=? c) && (c <=? 0xDBFF).
Definition isLowSurrogate (c : N) : bool := (0xDC00 <=? c) && (c <=? 0xDFFF).

(** QuoteJSONString, without the two quotes: the short escapes, a
    UnicodeEscape for the other control characters and for a surrogate
    that is not part of a pair, and any other character as it is. *)
Fixpoint quoteBody (s : str) : str :=
  match s with
  | [] => []
  | c :: s' =>
      if c =? 8 then [92; 98] ++ quoteBody s'
      else if c =? 9 then [92; 116] ++ quoteBody s'
      else if c =? 10 then [92; 110] ++ quoteBody s'
      else if c =? 12 then [92; 102] ++ quoteBody s'
      else if c =? 13 then [92; 114] ++ quoteBody s'
      else if c =? 34 then [92; 34] ++ quoteBody s'
      else if c =? 92 then [92; 92] ++ quoteBody s'
      else if c <? 32 then unicodeEscape c ++ quoteBody s'
      else if isHighSurrogate c then
        match s' with
        | d :: s'' =>
            if isLowSurrogate d then c :: d :: quoteBody s''
            else unicodeEscape c ++ quoteBody s'
        | [] => unicodeEscape c
        end
      else if isLowSurrogate c then unicodeEscape c ++ quoteBody s'
      else c :: quoteBody s'
  end.

Definition quote (s : str) : str := [34] ++ quoteBody s ++ [34].

(** The decimal digits of a natural number, the last one first. *)
Fixpoint decimalFrom (fuel : nat) (n : N) (acc : str) : str :=
  match fuel with
  | O => acc
  | S fuel' =>
      let acc' := (48 + n mod 10) :: acc in
      if n <? 10 then acc' else decimalFrom fuel' (n / 10) acc'
  end.

(** A number of [k] binary digits has at most [k] decimal digits. *)
Definition decimal (n : N) : str := decimalFrom (S (N.to_nat (N.size n))) n [].

End CodeUnits.

Section Stringify.

Variable Number_toString : Z -> Z -> str.

(** Number::toString *)
Definition printNumber (mantissa exp10 : Z) : str :=
  if (exp10 =? 0) && (Z.abs mantissa <=? 2 ^ 53)
  then (if mantissa <? 0 then [45%N] else []) ++ decimal (Z.to_N (Z.abs mantissa))
  else Number_toString mantissa exp10.

(** SerializeJSONProperty without a gap, on a value with no [undefined],
    function or [toJSON] in it. *)
Fixpoint JSON_stringify (v : json) : str :=
  match v with
  | JNull => u "null"
  | JBool true => u "true"
  | JBool false => u "false"
  | JNumber m e => printNumber m e
  | JString s => quote s
  | JArray elements => [91%N] ++ join (map JSON_stringify elements) [44%N] ++ [93%N]
  | JObject members =>
      [123%N]
      ++ join (map (fun kv => quote (fst kv) ++ 58%N :: JSON_stringify (snd kv)) members)
           [44%N]
      ++ [125%N]
  end.

End Stringify.

(** The values whose numbers this development prints. *)
Fixpoint integral (v : json) : bool :=
  match v with
  | JNumber m e => (e =? 0) && (Z.abs m <=? 2 ^ 53)
  | JArray elements => forallb integral elements
  | JObject members => forallb (fun kv => integral (snd kv)) members
  | _ => true
  end.

(** What [number] needs of the text after a literal: it does not go on
    with a digit, a point or an exponent. *)
Definition closes (rest : str) : Prop :=
  match rest with
  | [] => True
  | c :: _ => isDigit c = false /\ c <> 46%N /\ c <> 101%N /\ c <> 69%N
  end.

Fixpoint size (v : json) : nat :=
  match v with
  | JArray elements => S (fold_right (fun e n => S (size e + n)) O elements)
  | JObject members => S (fold_right (fun kv n => S (size (snd kv) + n)) O members)
  | _ => 1
  end.

End Stringify.

(** ** The session store ([workers/session/sessionManager.ts])

    [env.SESSIONS] is a KV namespace: texts under keys. An operation on it
    is a request that can fail; the store carries the outcomes of the
    requests to come, [true] for one that is rejected, and every request is
    served once that list is used up. Entries are not seen to expire: no
    time passes between the calls considered. *)

Module Session.
Import Js Json Stringify.

Record namespace := {
  entries : gmap str str;
  faults : list bool;
}.

Inductive outcome (A : Type) :=
| Done (a : A)
| Throws.
Arguments Done {A} a.
Arguments Throws {A}.

(** The request made, and whether it is rejected. *)
Definition request (w : namespace) : bool * namespace :=
  match faults w with
  | rejected :: later => (rejected, {| entries := entries w; faults := later |})
  | [] => (false, w)
  end.

(** [SESSIONS.get(key)], [SESSIONS.put(key, value, ...)] and
    [SESSIONS.delete(key)] *)
Definition kvGet (key : str) (w : namespace) : outcome (option str) * namespace :=
  let '(rejected, w') := request w in
  if rejected then (Throws, w') else (Done (entries w' !! key), w').

Definition kvPut (key value : str) (w : namespace) : outcome unit * namespace :=
  let '(rejected, w') := request w in
  if rejected then (Throws, w')
  else (Done tt, {| entries := <[key := value]> (entries w'); faults := faults w' |}).

Definition kvDelete (key : str) (w : namespace) : outcome unit * namespace :=
  let '(rejected, w') := request w in
  if rejected then (Throws, w')
  else (Done tt, {| entries := delete key (entries w'); faults := faults w' |}).

(** "session:${sessionId}:${key}" *)
Definition dataKey (sessionId key : str) : str :=
  u "session:" ++ sessionId ++ u ":" ++ key.

Section Manager.

Variable Number_toString : Z -> Z -> str.

(** [getSessionData] (lines 57-65): the namespace parses the text, a
    rejection and a text that does not parse are caught, and [null] is
    returned ([None]) as for a key that is not there. *)
Definition getSessionData (sessionId key : str) (w : namespace) : option json * namespace :=
  match kvGet (dataKey sessionId key) w with
  | (Done (Some text), w') =>
      (match JSON_parse text with
       | Some JNull => None
       | Some data => Some data
       | None => None
       end, w')
  | (Done None, w') => (None, w')
  | (Throws, w') => (None, w')
  end.

(** [setSessionData] (lines 76-86) and [deleteSessionData] (lines 95-102):
    a rejection is logged and thrown again. *)
Definition setSessionData (sessionId key : str) (data : json) (w : namespace)
    : outcome unit * namespace :=
  kvPut (dataKey sessionId key) (JSON_stringify Number_toString data) w.

Definition deleteSessionData (sessionId key : str) (w : namespace) : outcome unit * namespace :=
  kvDelete (dataKey sessionId key) w.

End Manager.

End Session.

(** ** The usage limits ([workers/usage/usageLimits.ts]) *)

Module Usage.
Import Js Json Stringify Session.

(** [interface UsageLimits] *)
Record UsageLimits := {
  dailyScenariosUsed : Z;
  dailyLimit : Z;
  isPremium : bool;
  resetDate : str;
}.

Definition DEFAULT_DAILY_LIMIT : Z := 4.
Definition PREMIUM_DAILY_LIMIT : Z := 999.

(** [Number.isSafeInteger]: the integers that [+= 1] takes to the next
    integer exactly. *)
Definition isSafeInteger (n : Z) : bool := Z.abs n <? 2 ^ 53.

(** A limits object as a value, its properties in the order the object
    literals of the source list them, and a stored value read at the type
    [UsageLimits]. [stored as UsageLimits] checks nothing; this development
    follows a call on the values that [toJson] gives for safe integers,
    which are the ones this module stores, and on no other: [ofJson] is
    [None] for those. *)
Definition toJson (limits : UsageLimits) : json :=
  JObject [ (u "dailyScenariosUsed", JNumber (dailyScenariosUsed limits) 0);
            (u "dailyLimit", JNumber (dailyLimit limits) 0);
            (u "isPremium", JBool (isPremium limits));
            (u "resetDate", JString (resetDate limits)) ].

Definition ofJson (stored : json) : option UsageLimits :=
  match stored with
  | JObject [ (used_, JNumber used 0); (limit_, JNumber limit 0);
              (premium_, JBool premium); (date_, JString date) ] =>
      if str_eqb used_ (u "dailyScenariosUsed") && str_eqb limit_ (u "dailyLimit")
         && str_eqb premium_ (u "isPremium") && str_eqb date_ (u "resetDate")
         && isSafeInteger used && isSafeInteger limit
      then Some {| dailyScenariosUsed := used; dailyLimit := limit;
                   isPremium := premium; resetDate := date |}
      else None
  | _ => None
  end.

(** What a call returns, [NotFollowed] standing for a call that found a
    stored value on which it is not followed. *)
Inductive reply (A : Type) :=
| Reply (a : A)
| NotFollowed.
Arguments Reply {A} a.
Arguments NotFollowed {A}.

(** "usage_limits_${resourceId}" *)
Definition limitsKey (resourceId : str) : str := u "usage_limits_" ++ resourceId.

Definition limitOf (premium : bool) : Z :=
  if premium then PREMIUM_DAILY_LIMIT else DEFAULT_DAILY_LIMIT.

(** What the [catch] blocks return (lines 79-84). *)
Definition fallbackLimits (today : str) : UsageLimits :=
  {| dailyScenariosUsed := 0; dailyLimit := DEFAULT_DAILY_LIMIT;
     isPremium := false; resetDate := today |}.

(** [w'] has what [w] has under every key but that of the limits of the
    resource. *)
Definition elsewhere (resourceId : str) (w w' : namespace) : Prop :=
  forall k, k <> dataKey resourceId (limitsKey resourceId) ->
            entries w' !! k = entries w !! k.

Section Limits.

Variable Number_toString : Z -> Z -> str.

(** [today] is what [getTodayDate()] returns during the call. *)
Variable today : str.

Definition store (resourceId : str) (limits : UsageLimits) (w : namespace)
    : outcome unit * namespace :=
  setSessionData Number_toString resourceId (limitsKey resourceId) (toJson limits) w.

(** [await sessionManager.setSessionData(...); return limits] inside the
    [try] of [getUsageLimits]: a rejection is caught at lines 76-85. *)
Definition storeAndReturn (resourceId : str) (limits : UsageLimits) (w : namespace)
    : reply UsageLimits * namespace :=
  match store resourceId limits w with
  | (Done _, w') => (Reply limits, w')
  | (Throws, w') => (Reply (fallbackLimits today), w')
  end.

(** [if (!stored)] *)
Definition present (stored : option json) : option json :=
  match stored with
  | Some v => if truthy v then Some v else None
  | None => None
  end.

(** [getUsageLimits] (lines 32-86) *)
Definition getUsageLimits (resourceId : str) (w : namespace) : reply UsageLimits * namespace :=
  let '(stored, w1) := getSessionData resourceId (limitsKey resourceId) w in
  match present stored with
  | None =>
      storeAndReturn resourceId
        {| dailyScenariosUsed := 0; dailyLimit := DEFAULT_DAILY_LIMIT;
           isPremium := false; resetDate := today |} w1
  | Some stored =>
      match ofJson stored with
      | None => (NotFollowed, w1)
      | Some limits =>
          if negb (str_eqb (resetDate limits) today) then
            storeAndReturn resourceId
              {| dailyScenariosUsed := 0;
                 dailyLimit := limitOf (isPremium limits);
                 isPremium := isPremium limits; resetDate := today |} w1
          else if isPremium limits && negb (dailyLimit limits =? PREMIUM_DAILY_LIMIT) then
            storeAndReturn resourceId
              {| dailyScenariosUsed := dailyScenariosUsed limits;
                 dailyLimit := PREMIUM_DAILY_LIMIT;
                 isPremium := isPremium limits; resetDate := resetDate limits |} w1
          else if negb (isPremium limits) && negb (dailyLimit limits =? DEFAULT_DAILY_LIMIT) then
            storeAndReturn resourceId
              {| dailyScenariosUsed := dailyScenariosUsed limits;
                 dailyLimit := DEFAULT_DAILY_LIMIT;
                 isPremium := isPremium limits; resetDate := resetDate limits |} w1
          else (Reply limits, w1)
      end
  end.

(** [incrementScenarioUsage] (lines 91-111) *)
Definition incrementScenarioUsage (resourceId : str) (w : namespace)
    : reply UsageLimits * namespace :=
  match getUsageLimits resourceId w with
  | (NotFollowed, w1) => (NotFollowed, w1)
  | (Reply limits, w1) =>
      if isPremium limits then (Reply limits, w1)
      else
        let limits' :=
          {| dailyScenariosUsed := dailyScenariosUsed limits + 1;
             dailyLimit := dailyLimit limits;
             isPremium := isPremium limits; resetDate := resetDate limits |} in
        match store resourceId limits' w1 with
        | (Done _, w2) => (Reply limits', w2)
        | (Throws, w2) => getUsageLimits resourceId w2
        end
  end.

(** What [canStartScenario] returns. *)
Record Decision := {
  allowed : bool;
  limits : UsageLimits;
  reason : option str;
}.

(** [canStartScenario] (lines 116-136) *)
Definition canStartScenario (resourceId : str) (w : namespace) : reply Decision * namespace :=
  match getUsageLimits resourceId w with
  | (NotFollowed, w1) => (NotFollowed, w1)
  | (Reply l, w1) =>
      if isPremium l then (Reply {| allowed := true; limits := l; reason := None |}, w1)
      else if dailyLimit l <=? dailyScenariosUsed l then
        (Reply {| allowed := false; limits := l;
                  reason := Some (u "Daily limit reached ("
                                  ++ printNumber Number_toString (dailyLimit l) 0
                                  ++ u " scenarios). Upgrade to premium for unlimited scenarios.") |},
         w1)
      else (Reply {| allowed := true; limits := l; reason := None |}, w1)
  end.

(** [setPremiumStatus] (lines 141-160) *)
Definition setPremiumStatus (resourceId : str) (premium : bool) (w : namespace)
    : reply UsageLimits * namespace :=
  match getUsageLimits resourceId w with
  | (NotFollowed, w1) => (NotFollowed, w1)
  | (Reply limits, w1) =>
      let limits' :=
        {| dailyScenariosUsed := dailyScenariosUsed limits;
           dailyLimit := limitOf premium;
           isPremium := premium; resetDate := resetDate limits |} in
      match store resourceId limits' w1 with
      | (Done _, w2) => (Reply limits', w2)
      | (Throws, w2) => getUsageLimits resourceId w2
      end
  end.

(** [n] calls of [incrementScenarioUsage] in a row. *)
Fixpoint incrementTimes (n : nat) (resourceId : str) (w : namespace) : namespace :=
  match n with
  | O => w
  | S n' => incrementTimes n' resourceId (snd (incrementScenarioUsage resourceId w))
  end.

(** What the store holds for a resource: the text of a limits object, or
    nothing. *)
Definition holds (w : namespace) (resourceId : str) (stored : option UsageLimits) : Prop :=
  entries w !! dataKey resourceId (limitsKey resourceId)
    = option_map (fun l => JSON_stringify Number_toString (toJson l)) stored.

(** A store that serves every request and holds for the resource the
    limits [l], which are those of the day, with the limit of their status
    and a count that is a safe integer. *)
Definition settled (w : namespace) (resourceId : str) (l : UsageLimits) : Prop :=
  faults w = [] /\
  holds w resourceId (Some l) /\
  resetDate l = today /\
  dailyLimit l = limitOf (isPremium l) /\
  isSafeInteger (dailyScenariosUsed l) = true.

End Limits.

End Usage.

(** ** Streaming a chat response

    The worker writes server-sent events ([workers/utils/streamUtils.ts])
    and the chat page reads them ([frontend/pages/ChatPage.tsx]). What the
    controller is given is encoded as UTF-8 and what a read returns is
    decoded from it; every text written is well-formed, [JSON.stringify]
    escaping a surrogate that stands alone, so that the texts decoded are,
    put together, the texts written: the stream is taken here as its string,
    and a read returns any part of it. *)

Module Sse.
Import Js Json Stringify.

Section Stream.

Variable Number_toString : Z -> Z -> str.

Local Abbreviation stringify := (JSON_stringify Number_toString).

(** The objects [{ type: "text", content: chunk }] and
    [{ type: "error", message }]. *)
Definition textObject (chunk : str) : json :=
  JObject [(u "type", JString (u "text")); (u "content", JString chunk)].
Definition errorObject (message : str) : json :=
  JObject [(u "type", JString (u "error")); (u "message", JString message)].

(** What [handleTextStream] enqueues for a chunk (lines 91-92). *)
Definition textEvent (chunk : str) : str :=
  u "data:" ++ stringify (textObject chunk) ++ newline ++ newline.

Definition handleTextStream (chunk : str) (controller : list str) : list str :=
  controller ++ [textEvent chunk].

(** [createSSEStream] (lines 12-43) with a callback that passes the
    chunks [chunks] to [handleTextStream] and then returns, or throws an
    error ([message] is its message, or "Internal error" when it is not an
    Error): what has been enqueued when the stream is closed. *)
Definition createSSEStream (chunks : list str) (failure : option str) : list str :=
  let controller := fold_left (fun c chunk => handleTextStream chunk c) chunks [] in
  match failure with
  | None =>
      controller ++ [u "event: done" ++ newline; u "data:" ++ newline ++ newline]
  | Some message =>
      controller
      ++ [u "data: "; stringify (errorObject message) ++ newline ++ newline]
  end.

(** The body of the loop over the lines of [sendMessageWithText]
    ([ChatPage.tsx], lines 467-487): [fullResponseText] after the line. A
    TypeError - [parsed] is [null], or the content cannot be converted to a
    string - is caught like the SyntaxError of [JSON.parse]. *)
Definition plainText (fullResponseText data : str) : str :=
  if nonEmpty data && negb (str_eqb (trim data) (u "[DONE]"))
  then fullResponseText ++ data
  else fullResponseText.

Definition isText (type : option json) : bool :=
  match type with
  | Some (JString t) => str_eqb t (u "text")
  | _ => false
  end.

Definition processLine (fullResponseText line : str) : str :=
  if startsWith line (u "data:") then
    let data := slice line 5 in
    if negb (nonEmpty data) || negb (nonEmpty (trim data)) || str_eqb (trim data) (u "[DONE]")
    then fullResponseText
    else
      match JSON_parse data with
      | Some JNull => plainText fullResponseText data
      | Some parsed =>
          if isText (get parsed (u "type")) then
            match get parsed (u "content") with
            | Some content =>
                if truthy content then
                  match ToString Number_toString content with
                  | Some text => fullResponseText ++ text
                  | None => plainText fullResponseText data
                  end
                else fullResponseText
            | None => fullResponseText
            end
          else fullResponseText
      | None => plainText fullResponseText data
      end
  else fullResponseText.

(** The loop over the reads (lines 459-488): [buffer] and
    [fullResponseText] once the reader is done. *)
Fixpoint readAll (reads : list str) (buffer fullResponseText : str) : str * str :=
  match reads with
  | [] => (buffer, fullResponseText)
  | value :: reads' =>
      let lines := split (buffer ++ value) newline in
      readAll reads' (List.last lines []) (fold_left processLine (removelast lines) fullResponseText)
  end.

Definition received (reads : list str) : str := snd (readAll reads [] []).

(** The same loop in [sendMessage] of the transcript chat panel
    ([TranscriptChatPanel.tsx], lines 209-263). The data is trimmed before
    it is parsed; the Error thrown for an event of type "error" is thrown
    inside the [try] and so is caught with the errors of [JSON.parse]; a
    line "event: done" leaves the loop over the lines, not the loop over
    the reads. [responseText] is also what the last message shows, being
    copied there each time it grows. *)
Definition plainChunk (responseText data : str) : str :=
  if nonEmpty data && negb (startsWith data (u "{"))
  then responseText ++ data
  else responseText.

Definition isError (type : option json) : bool :=
  match type with
  | Some (JString t) => str_eqb t (u "error")
  | _ => false
  end.

Definition panelLine (responseText line : str) : str :=
  if startsWith line (u "data:") then
    let data := trim (slice line 5) in
    if negb (nonEmpty data) then responseText
    else
      match JSON_parse data with
      | Some JNull => plainChunk responseText data
      | Some jsonData =>
          if isError (get jsonData (u "type")) then plainChunk responseText data
          else if isText (get jsonData (u "type")) then
            match get jsonData (u "content") with
            | Some content =>
                if truthy content then
                  match ToString Number_toString content with
                  | Some text => responseText ++ text
                  | None => plainChunk responseText data
                  end
                else responseText
            | None => responseText
            end
          else responseText
      | None => plainChunk responseText data
      end
  else responseText.

Definition endsBatch (line : str) : bool :=
  negb (startsWith line (u "data:")) && startsWith line (u "event: done").

Fixpoint panelLines (lines : list str) (responseText : str) : str :=
  match lines with
  | [] => responseText
  | line :: lines' =>
      if endsBatch line then responseText
      else panelLines lines' (panelLine responseText line)
  end.

Fixpoint panelReadAll (reads : list str) (buffer responseText : str) : str * str :=
  match reads with
  | [] => (buffer, responseText)
  | value :: reads' =>
      let lines := split (buffer ++ value) newline in
      panelReadAll reads' (List.last lines []) (panelLines (removelast lines) responseText)
  end.

Definition panelReceived (reads : list str) : str := snd (panelReadAll reads [] []).

(** A line that changes no text, and lines of which those after a line
    that ends a batch change none. *)
Definition neutral (line : str) : Prop := forall text, panelLine text line = text.

Fixpoint orderly (lines : list str) : Prop :=
  match lines with
  | [] => True
  | line :: lines' => (endsBatch line = false /\ orderly lines') \/ Forall neutral lines
  end.

(** The lines that end the stream of [createSSEStream], but the last,
    which is empty. *)
Definition closingLines (failure : option str) : list str :=
  match failure with
  | None => [u "event: done"; u "data:"; []]
  | Some message => [u "data: " ++ stringify (errorObject message); []]
  end.

End Stream.

End Sse.

(** ** Sample stores and streams *)

Module StoreSamples.
Import Js Json Stringify Session Usage Samples.

Definition today : str := u "2025-01-15".
Definition visitor : str := u "visitor".
Definition guest : str := u "guest".

(** A namespace with nothing in it that serves every request, and one
    that rejects the first request made. *)
Definition emptyNamespace : namespace := {| entries := empty; faults := [] |}.
Definition rejectingOnce : namespace := {| entries := empty; faults := [true] |}.

Definition reportData : json :=
  JObject [(u "threadId", JString (u "thread-1")); (u "turns", JNumber 3 0)].

(** The limits of a visitor who used the four scenarios of the day
    before, and of one who has used two on the day. *)
Definition yesterdaysLimits : UsageLimits :=
  {| dailyScenariosUsed := 4; dailyLimit := 4; isPremium := false;
     resetDate := u "2025-01-14" |}.
Definition todaysLimits : UsageLimits :=
  {| dailyScenariosUsed := 2; dailyLimit := 4; isPremium := false; resetDate := today |}.

(** A namespace that holds limits for a resource and nothing else. *)
Definition holding (resourceId : str) (l : UsageLimits) : namespace :=
  {| entries := {[ dataKey resourceId (limitsKey resourceId)
                     := JSON_stringify noNumbers (toJson l) ]};
     faults := [] |}.

End StoreSamples.

Module StreamSamples.
Import Js.

(** Three chunks, the second one a line break, and reads that cut the
    stream of their events inside a line and inside an event. *)
Definition greeting : list str := [u "Hi"; newline; u "there"].

Definition greetingReads : list str :=
  [ quoted "data:{'type':'te";
    quoted "xt','content':'Hi'}" ++ newline;
    newline ++ quoted "data:{'type':'text','content':'\n'}" ++ newline ++ newline
      ++ quoted "data:{'type':'text','con";
    quoted "tent':'there'}" ++ newline ++ newline ++ u "event: done" ++ newline
      ++ u "data:" ++ newline ++ newline ].

End StreamSamples.
(** * Properties *)

(** ** The resilient call wrapper *)

Section RetryFacts.
Import Js Retry.

Context {W T : Type}.
Variable fn : W -> settled T * W.

Lemma invocations_app (t1 t2 : list event) :
  invocations (t1 ++ t2) = (invocations t1 + invocations t2)%nat.
Proof.
  induction t1 as [|e t1 IH]; simpl; [reflexivity|].
  destruct e; simpl; rewrite IH; reflexivity.
Qed.

Lemma sleeps_app (t1 t2 : list event) :
  sleeps (t1 ++ t2) = sleeps t1 ++ sleeps t2.
Proof.
  induction t1 as [|e t1 IH]; simpl; [reflexivity|].
  destruct e; simpl; rewrite IH; reflexivity.
Qed.

Lemma settles_shift (k : nat) (w : W) :
  settles fn (S k) w = settles fn k (snd (fn w)).
Proof. reflexivity. Qed.

Section LoopFacts.
Variables (maxR delay maxD : Z) (p : thrown -> verdict).

Local Abbreviation loop := (attempts fn maxR delay maxD p).

Lemma settles_first (w : W) (e : thrown) :
  settles fn 0 w = Rejected e -> fn w = (Rejected e, snd (fn w)).
Proof.
  unfold settles. simpl. destruct (fn w) as [res w']. simpl. intros ->. reflexivity.
Qed.

(** One iteration whose call is rejected. *)
Lemma attempts_rejected (r : nat) a last w tr e w' :
  fn w = (Rejected e, w') ->
  loop (S r) a last w tr =
    if a =? maxR then (Rejected e, w', tr ++ [Invoke])
    else
      match p e with
      | Throws => (Rejected TypeError, w', tr ++ [Invoke])
      | Says false => (Rejected e, w', tr ++ [Invoke])
      | Says true =>
          loop r (a + 1) e w'
            (tr ++ [Invoke; Log (a + 1) (maxR + 1) (Z.min (delay * 2 ^ a) maxD);
                    Sleep (Z.min (delay * 2 ^ a) maxD)])
      end.
Proof. intros Hfn. simpl. rewrite Hfn. reflexivity. Qed.

(** The trace is only ever appended to. *)
Lemma attempts_trace (r : nat) : forall a last w tr,
  loop r a last w tr =
  let '(res, w', t) := loop r a last w [] in (res, w', tr ++ t).
Proof.
  induction r as [|r IH]; intros a last w tr; simpl.
  - rewrite app_nil_r. reflexivity.
  - destruct (fn w) as [[v|e] w']; [reflexivity|].
    destruct (a =? maxR); [reflexivity|].
    destruct (p e) as [[|]|]; try reflexivity.
    rewrite (IH _ _ _ (tr ++ _)), (IH _ _ _ [_; _; _]).
    destruct (loop r (a + 1) e w' []) as [[res w''] t].
    rewrite <- app_assoc. reflexivity.
Qed.

(** An iteration starts by calling the operation. *)
Lemma attempts_starts (r : nat) a last w :
  exists t, snd (loop (S r) a last w []) = Invoke :: t.
Proof.
  simpl.
  destruct (fn w) as [[v|e] w']; [eexists; reflexivity|].
  destruct (a =? maxR); [eexists; reflexivity|].
  destruct (p e) as [[|]|]; try (eexists; reflexivity).
  rewrite attempts_trace.
  destruct (loop r (a + 1) e w' []) as [[res w''] t].
  eexists; reflexivity.
Qed.

(** When the attempts left all fail with a retryable error, the loop runs
    to its last iteration and rethrows what that one caught. *)
Lemma attempts_exhaust (k : nat) : forall a last w,
  a + Z.of_nat k = maxR ->
  (forall j, (j <= k)%nat -> exists e, settles fn j w = Rejected e /\ p e = Says true) ->
  exists e t,
    settles fn k w = Rejected e /\
    loop (S k) a last w [] = (Rejected e, after fn (S k) w, t) /\
    invocations t = S k.
Proof.
  induction k as [|k IH]; intros a last w Ha Hfail;
    destruct (Hfail 0%nat) as (e & He & Hp); try lia.
  - exists e, [Invoke]. split; [exact He|]. split; [|reflexivity].
    rewrite (attempts_rejected _ _ _ _ _ _ _ (settles_first _ _ He)).
    replace (a =? maxR) with true by (symmetry; apply Z.eqb_eq; lia).
    reflexivity.
  - destruct (IH (a + 1) e (snd (fn w))) as (e' & t & Hlast & Hrun & Hn).
    + lia.
    + intros j Hj. destruct (Hfail (S j)) as (e'' & ? & ?); [lia|].
      exists e''. rewrite <- settles_shift. auto.
    + exists e', (Invoke :: Log (a + 1) (maxR + 1) (Z.min (delay * 2 ^ a) maxD)
                    :: Sleep (Z.min (delay * 2 ^ a) maxD) :: t).
      split; [rewrite settles_shift; exact Hlast|].
      rewrite (attempts_rejected _ _ _ _ _ _ _ (settles_first _ _ He)).
      replace (a =? maxR) with false by (symmetry; apply Z.eqb_neq; lia).
      rewrite Hp, attempts_trace, Hrun. simpl.
      split; [reflexivity|]. rewrite Hn. reflexivity.
Qed.

(** While the budget is not exhausted, a retryable failure of the attempt
    of index [a + k] is followed by the log line, the wait of line 58 and
    the next call. *)
Lemma attempts_wait (k : nat) : forall a last w r,
  a + Z.of_nat k < maxR ->
  r = Z.to_nat (maxR - a) ->
  (forall j, (j <= k)%nat -> exists e, settles fn j w = Rejected e /\ p e = Says true) ->
  exists before after',
    snd (loop (S r) a last w []) =
      before
      ++ [Invoke;
          Log (a + Z.of_nat k + 1) (maxR + 1) (Z.min (delay * 2 ^ (a + Z.of_nat k)) maxD);
          Sleep (Z.min (delay * 2 ^ (a + Z.of_nat k)) maxD);
          Invoke]
      ++ after' /\
    invocations before = k /\
    length (sleeps before) = k.
Proof.
  induction k as [|k IH]; intros a last w r Ha Hr Hfail;
    destruct (Hfail 0%nat) as (e & He & Hp); try lia;
    rewrite (attempts_rejected _ _ _ _ _ _ _ (settles_first _ _ He));
    replace (a =? maxR) with false by (symmetry; apply Z.eqb_neq; lia);
    rewrite Hp, attempts_trace; cbv iota;
    (assert (exists r', r = S r' /\ r' = Z.to_nat (maxR - (a + 1))) as (r' & -> & Hr')
      by (exists (Z.to_nat (maxR - (a + 1))); split; lia)).
  - destruct (attempts_starts r' (a + 1) e (snd (fn w))) as [t Ht].
    destruct (loop (S r') (a + 1) e (snd (fn w)) []) as [[res w''] t'].
    simpl in Ht. subst t'.
    exists [], t. rewrite Z.add_0_r. repeat split.
  - destruct (IH (a + 1) e (snd (fn w)) r') as (before & after' & Ht & Hn & Hs).
    + lia.
    + exact Hr'.
    + intros j Hj. destruct (Hfail (S j)) as (e'' & ? & ?); [lia|].
      exists e''. rewrite <- settles_shift. auto.
    + destruct (loop (S r') (a + 1) e (snd (fn w)) []) as [[res w''] t'].
      simpl in Ht. subst t'.
      eexists (_ :: _ :: _ :: before), after'.
      replace (a + Z.of_nat (S k)) with (a + 1 + Z.of_nat k) by lia.
      split; [reflexivity|]. simpl. rewrite Hn, Hs. split; reflexivity.
Qed.

End LoopFacts.

(** The predicate of the options returns [true] when it says so. *)
Lemma retryableOf_true (options : RetryOptions) (e : thrown) :
  retryableOf options e = true -> verdictOf options e = Says true.
Proof.
  unfold retryableOf. destruct (verdictOf options e) as [b|]; [|discriminate].
  intros ->. reflexivity.
Qed.

Lemma retryable_failures (options : RetryOptions) (n : nat) (w : W) :
  (forall j, (j <= n)%nat ->
     exists e, settles fn j w = Rejected e /\ retryableOf options e = true) ->
  forall j, (j <= n)%nat ->
    exists e, settles fn j w = Rejected e /\ verdictOf options e = Says true.
Proof.
  intros Hfail j Hj. destruct (Hfail j Hj) as (e & He & Hp).
  exists e. split; [exact He|apply retryableOf_true, Hp].
Qed.

(** C3. An operation whose attempts all reject with a retryable error is
    called exactly [maxRetries + 1] times, and the wrapper then rejects with
    the error of the last call. *)
Theorem retry_exhausts_budget (options : RetryOptions) (n : nat) (w : W)
    (Hbudget : retriesOf options = Z.of_nat n)
    (Hfail : forall j, (j <= n)%nat ->
        exists e, settles fn j w = Rejected e /\ retryableOf options e = true) :
  exists e trace,
    settles fn n w = Rejected e /\
    retryWithBackoff fn options w = (Rejected e, after fn (S n) w, trace) /\
    invocations trace = S n.
Proof.
  unfold retryWithBackoff. rewrite Hbudget.
  replace (Z.to_nat (Z.of_nat n + 1)) with (S n) by lia.
  apply attempts_exhaust; [lia|apply retryable_failures, Hfail].
Qed.

(** C4 (as amended). With a budget that is not negative, a first call
    rejected with an error for which the predicate returns [false] is the
    only call, and the wrapper rejects with that error; when the predicate
    throws instead and a retry is left, the call is the only one as well
    and the wrapper rejects with the TypeError of the predicate. The
    default predicate returns [true] for the errors flagged [retryable] and
    for those whose message contains "Network connection lost" or
    "timeout", throws on the other errors whose message has no method
    [includes], and returns [false] for every other error. *)
Theorem non_retryable_short_circuit (options : RetryOptions) (w w' : W) (e : thrown)
    (Hbudget : 0 <= retriesOf options)
    (Hcall : fn w = (Rejected e, w')) :
  (verdictOf options e = Says false ->
   retryWithBackoff fn options w = (Rejected e, w', [Invoke])) /\
  (verdictOf options e = Throws -> 0 < retriesOf options ->
   retryWithBackoff fn options w = (Rejected TypeError, w', [Invoke])) /\
  (retryable options = None ->
   forall error,
     verdictOf options error =
       if flagged error then Says true
       else if unreadable error then Throws
       else Says (mentions error "Network connection lost" || mentions error "timeout")).
Proof.
  assert (Hrun : retryWithBackoff fn options w =
            if 0 =? retriesOf options then (Rejected e, w', [Invoke])
            else match verdictOf options e with
                 | Throws => (Rejected TypeError, w', [Invoke])
                 | Says false => (Rejected e, w', [Invoke])
                 | Says true =>
                     attempts fn (retriesOf options) (firstDelayOf options) (ceilingOf options)
                       (verdictOf options) (Z.to_nat (retriesOf options)) 1 e w'
                       [Invoke; Log 1 (retriesOf options + 1)
                                  (Z.min (firstDelayOf options * 2 ^ 0) (ceilingOf options));
                        Sleep (Z.min (firstDelayOf options * 2 ^ 0) (ceilingOf options))]
                 end).
  { unfold retryWithBackoff.
    replace (Z.to_nat (retriesOf options + 1)) with (S (Z.to_nat (retriesOf options))) by lia.
    rewrite (attempts_rejected _ _ _ _ _ _ _ _ _ _ _ Hcall). reflexivity. }
  split; [|split].
  - intros Hnot. rewrite Hrun, Hnot. destruct (0 =? retriesOf options); reflexivity.
  - intros Hthrows Hleft. rewrite Hrun, Hthrows.
    replace (0 =? retriesOf options) with false by (symmetry; apply Z.eqb_neq; lia).
    reflexivity.
  - intros Hdefault error. unfold verdictOf. rewrite Hdefault.
    unfold defaultRetryable, mentions, unreadable.
    destruct (flagged error); [reflexivity|].
    destruct (messageOf error) as [ |m|elements| ]; cbn [messageIncludes];
      try reflexivity.
    + destruct (includes m (u "Network connection lost")); [reflexivity|].
      destruct (includes m (u "timeout")); reflexivity.
    + destruct (existsb _ elements); [reflexivity|].
      destruct (existsb _ elements); reflexivity.
Qed.

(** C5. If the attempts of index [0] to [k] fail with a retryable error and
    [k] is below [maxRetries], the wait between the call of index [k] and
    the next one is [min (initialDelay * 2 ^ k) maxDelay]. *)
Theorem backoff_delay_exact (options : RetryOptions) (k : nat) (w : W)
    (Hbudget : Z.of_nat k < retriesOf options)
    (Hfail : forall j, (j <= k)%nat ->
        exists e, settles fn j w = Rejected e /\ retryableOf options e = true) :
  exists before after',
    snd (retryWithBackoff fn options w) =
      before
      ++ [Invoke;
          Log (Z.of_nat k + 1) (retriesOf options + 1) (backoffDelay options k);
          Sleep (backoffDelay options k);
          Invoke]
      ++ after' /\
    invocations before = k /\
    sleeps (snd (retryWithBackoff fn options w)) !! k
      = Some (Z.min (firstDelayOf options * 2 ^ Z.of_nat k) (ceilingOf options)).
Proof.
  unfold retryWithBackoff, backoffDelay.
  replace (Z.to_nat (retriesOf options + 1)) with (S (Z.to_nat (retriesOf options))) by lia.
  destruct (attempts_wait (retriesOf options) (firstDelayOf options) (ceilingOf options)
              (verdictOf options) k 0 Undefined w (Z.to_nat (retriesOf options)))
    as (before & after' & Ht & Hn & Hs);
    [lia|f_equal; lia|apply retryable_failures, Hfail|].
  rewrite Z.add_0_l in Ht.
  exists before, after'. rewrite Ht. split; [reflexivity|]. split; [exact Hn|].
  rewrite sleeps_app, lookup_app_r by lia. rewrite Hs, Nat.sub_diag. reflexivity.
Qed.

End RetryFacts.

(** ** The matcher

    The fuel of a repetition and of the [while] loops over [exec] is never
    what ends them. *)

Section CaseFacts.
Import Js.

(** [sameCase] lists the code units that Canonicalize does not tell apart
    from a given one, and all of them. *)
Lemma sameCase_sound (a c : N) : In a (sameCase c) -> canonicalUnit a = canonicalUnit c.
Proof. unfold sameCase. intros H. apply filter_In in H as [_ H]. apply N.eqb_eq, H. Qed.

Lemma canonicalUnit_cases (a : N) :
  canonicalUnit a = a \/
  exists first last' step image,
    In (first, last', step, image) caseRuns /\ (first <= a)%N /\
    canonicalUnit a = (image + (a - first))%N.
Proof.
  unfold canonicalUnit.
  destruct (List.find (fun run => inRun run a) caseRuns) as [[[[first last'] step] image]|] eqn:E;
    [right|left; reflexivity].
  apply find_some in E as [Hin Hrun].
  unfold inRun in Hrun. apply andb_true_iff in Hrun as [Hrun _].
  apply andb_true_iff in Hrun as [Hfirst _]. apply N.leb_le in Hfirst.
  exists first, last', step, image. auto.
Qed.

Lemma sameCase_complete (a c : N) : canonicalUnit a = canonicalUnit c -> In a (sameCase c).
Proof.
  intros H. unfold sameCase. cbv zeta. rewrite <- H. apply filter_In.
  split; [|apply N.eqb_eq; reflexivity].
  destruct (canonicalUnit_cases a)
    as [Hsame|(first & last' & step & image & Hin & Hfirst & Hcu)].
  - left. exact Hsame.
  - right. apply in_flat_map. exists (first, last', step, image). split; [exact Hin|].
    cbv beta iota. rewrite Hcu.
    replace (image <=? image + (a - first))%N with true
      by (symmetry; apply N.leb_le, N.le_add_r).
    left. rewrite (N.add_comm image), N.add_sub, N.add_comm. apply N.sub_add, Hfirst.
Qed.

End CaseFacts.

Section MatcherFacts.
Import Js RegExp.

Variable R : RegExp.
Variable Input : str.

Local Abbreviation honest' := (honest Input).
Local Abbreviation inRange' := (inRange Input).

Lemma inRange_refl (x : MatchState) :
  (endIndex x <= length Input)%nat -> inRange' x x.
Proof. unfold inRange. lia. Qed.

Lemma honest_characterSet items invert : honest' (characterSetMatcher R Input items invert).
Proof.
  intros x c c' Hx Hc. unfold characterSetMatcher.
  destruct (nth_error Input (endIndex x)) as [ch|] eqn:E; [|reflexivity].
  destruct (xorb _ invert); [|reflexivity].
  apply Hc. unfold inRange. simpl.
  assert (endIndex x < length Input)%nat by (apply nth_error_Some; congruence). lia.
Qed.

Lemma honest_backreference n : honest' (backreferenceMatcher R Input n).
Proof.
  intros x c c' Hx Hc. unfold backreferenceMatcher.
  destruct (capture n (captures x)) as [[from to]|]; [|apply Hc, inRange_refl, Hx].
  destruct (length Input <? endIndex x + (to - from))%nat eqn:El; [reflexivity|].
  destruct (forallb _ _); [|reflexivity].
  apply Hc. unfold inRange. simpl. apply Nat.ltb_ge in El. lia.
Qed.

Lemma honest_assertStart : honest' (assertStart R Input).
Proof.
  intros x c c' Hx Hc. unfold assertStart.
  rewrite (Hc x (inRange_refl x Hx)). reflexivity.
Qed.

Lemma honest_assertEnd : honest' (assertEnd R Input).
Proof.
  intros x c c' Hx Hc. unfold assertEnd.
  rewrite (Hc x (inRange_refl x Hx)). reflexivity.
Qed.

Lemma repeatMatcher_S fuel m groups min max greedy x c :
  repeatMatcher (S fuel) m groups min max greedy x c =
    if (match max with Some O => true | _ => false end) then c x
    else
      let d : Continuation := fun y =>
        if Nat.eqb min 0 && Nat.eqb (endIndex y) (endIndex x) then None
        else repeatMatcher fuel m groups (Nat.pred min) (option_map Nat.pred max) greedy y c in
      let xr := resetCaptures groups x in
      if negb (Nat.eqb min 0) then m xr d
      else if greedy then
        match m xr d with
        | Some z => Some z
        | None => c x
        end
      else
        match c x with
        | Some z => Some z
        | None => m xr d
        end.
Proof. reflexivity. Qed.

Lemma honest_repeat m groups greedy :
  honest' m -> forall fuel min max, honest' (repeatMatcher fuel m groups min max greedy).
Proof.
  intros Hm. induction fuel as [|fuel IH]; intros min max x c c' Hx Hc; [reflexivity|].
  rewrite !repeatMatcher_S.
  rewrite (Hc x (inRange_refl x Hx)).
  destruct (match max with Some O => true | _ => false end); [reflexivity|].
  cbv zeta.
  rewrite (Hm (resetCaptures groups x) _
             (fun y =>
                if Nat.eqb min 0 && Nat.eqb (endIndex y) (endIndex x) then None
                else repeatMatcher fuel m groups (Nat.pred min) (option_map Nat.pred max)
                       greedy y c')); [reflexivity|exact Hx|].
  intros y [Hy1 Hy2]. simpl in Hy1.
  destruct (Nat.eqb min 0 && Nat.eqb (endIndex y) (endIndex x)); [reflexivity|].
  apply IH; [exact Hy2|].
  intros z [Hz1 Hz2]. apply Hc. unfold inRange. lia.
Qed.

Lemma honest_compile (r : regex) : honest' (compile R Input r).
Proof.
  induction r as [ |ch|invert items|r1 IH1 r2 IH2|r1 IH1 r2 IH2|min max greedy r IH|n r IH
                  |n|r IH| | ]; cbn [compile].
  - intros x c c' Hx Hc. apply Hc, inRange_refl, Hx.
  - apply honest_characterSet.
  - apply honest_characterSet.
  - intros x c c' Hx Hc. apply IH1; [exact Hx|].
    intros y [Hy1 Hy2]. apply IH2; [exact Hy2|].
    intros z [Hz1 Hz2]. apply Hc. unfold inRange. lia.
  - intros x c c' Hx Hc. rewrite (IH1 x c c' Hx Hc), (IH2 x c c' Hx Hc). reflexivity.
  - intros x c c' Hx Hc. apply honest_repeat; assumption.
  - intros x c c' Hx Hc. apply IH; [exact Hx|].
    intros y Hy. apply Hc. exact Hy.
  - apply honest_backreference.
  - intros x c c' Hx Hc. destruct (compile R Input r x Some); [|reflexivity].
    apply Hc. unfold inRange. simpl. lia.
  - apply honest_assertStart.
  - apply honest_assertEnd.
Qed.

(** More fuel than [min] plus what is left of the input changes nothing. *)
Lemma repeatMatcher_fuel m groups greedy :
  honest' m ->
  forall fuel min max x c,
    (endIndex x <= length Input)%nat ->
    (min + (length Input - endIndex x) < fuel)%nat ->
    repeatMatcher (S fuel) m groups min max greedy x c =
    repeatMatcher fuel m groups min max greedy x c.
Proof.
  intros Hm. induction fuel as [|fuel IH]; intros min max x c Hx Hfuel; [lia|].
  rewrite (repeatMatcher_S (S fuel)), (repeatMatcher_S fuel).
  destruct (match max with Some O => true | _ => false end); [reflexivity|].
  cbv zeta.
  rewrite (Hm (resetCaptures groups x) _
             (fun y =>
                if Nat.eqb min 0 && Nat.eqb (endIndex y) (endIndex x) then None
                else repeatMatcher fuel m groups (Nat.pred min) (option_map Nat.pred max)
                       greedy y c)); [reflexivity|exact Hx|].
  intros y [Hy1 Hy2]. simpl in Hy1.
  destruct (Nat.eqb min 0) eqn:Hmin; simpl.
  - destruct (Nat.eqb (endIndex y) (endIndex x)) eqn:Hend; [reflexivity|].
    apply Nat.eqb_eq in Hmin. apply Nat.eqb_neq in Hend.
    apply IH; [exact Hy2|]. subst min. simpl. lia.
  - apply Nat.eqb_neq in Hmin. apply IH; [exact Hy2|]. lia.
Qed.

Lemma repeatMatcher_enough m groups greedy (extra : nat) :
  honest' m ->
  forall min max x c,
    (endIndex x <= length Input)%nat ->
    repeatMatcher (S (min + (length Input - endIndex x)) + extra) m groups min max greedy x c =
    repeatMatcher (S (min + (length Input - endIndex x))) m groups min max greedy x c.
Proof.
  intros Hm min max x c Hx.
  induction extra as [|extra IH]; [rewrite Nat.add_0_r; reflexivity|].
  rewrite <- IH, Nat.add_succ_r. apply repeatMatcher_fuel; [exact Hm|exact Hx|lia].
Qed.

(** *** Progress *)

Lemma progressive_repeat m groups greedy :
  progressive m -> forall fuel min max, progressive (repeatMatcher fuel m groups min max greedy).
Proof.
  intros Hm. induction fuel as [|fuel IH]; intros min max x c z; [discriminate|].
  rewrite repeatMatcher_S.
  assert (Hd : m (resetCaptures groups x)
                 (fun y =>
                    if Nat.eqb min 0 && Nat.eqb (endIndex y) (endIndex x) then None
                    else repeatMatcher fuel m groups (Nat.pred min) (option_map Nat.pred max)
                           greedy y c) = Some z ->
               exists y, (endIndex x <= endIndex y)%nat /\ c y = Some z).
  { intros H. apply Hm in H as (y & Hy & H). simpl in Hy.
    destruct (Nat.eqb min 0 && Nat.eqb (endIndex y) (endIndex x)); [discriminate|].
    apply IH in H as (y' & Hy' & H). exists y'. split; [lia|exact H]. }
  destruct (match max with Some O => true | _ => false end); [intros H; exists x; auto|].
  cbv zeta. destruct (negb (Nat.eqb min 0)); [exact Hd|].
  destruct greedy.
  - destruct (m _ _) as [z'|] eqn:E; [intros [= <-]; apply Hd; reflexivity|].
    intros H. exists x. auto.
  - destruct (c x) as [z'|] eqn:E; [intros [= <-]; exists x; auto|exact Hd].
Qed.

Lemma progressive_compile (r : regex) : progressive (compile R Input r).
Proof.
  induction r as [ |ch|invert items|r1 IH1 r2 IH2|r1 IH1 r2 IH2|min max greedy r IH|n r IH
                  |n|r IH| | ]; cbn [compile]; intros x c z.
  - intros H. exists x. auto.
  - unfold characterSetMatcher. destruct (nth_error Input (endIndex x)); [|discriminate].
    destruct (xorb _ _); [|discriminate]. intros H. eexists. split; [|exact H]. simpl. lia.
  - unfold characterSetMatcher. destruct (nth_error Input (endIndex x)); [|discriminate].
    destruct (xorb _ _); [|discriminate]. intros H. eexists. split; [|exact H]. simpl. lia.
  - intros H. apply IH1 in H as (y & Hy & H). apply IH2 in H as (y' & Hy' & H).
    exists y'. split; [lia|exact H].
  - destruct (compile R Input r1 x c) as [z'|] eqn:E.
    + intros [= <-]. apply IH1, E.
    + apply IH2.
  - apply progressive_repeat, IH.
  - intros H. apply IH in H as (y & Hy & H). eexists. split; [|exact H]. simpl. exact Hy.
  - unfold backreferenceMatcher. destruct (capture n (captures x)) as [[from to]|].
    + destruct (_ <? _)%nat; [discriminate|]. destruct (forallb _ _); [|discriminate].
      intros H. eexists. split; [|exact H]. simpl. lia.
    + intros H. exists x. auto.
  - destruct (compile R Input r x Some); [|discriminate].
    intros H. eexists. split; [|exact H]. simpl. lia.
  - unfold assertStart. destruct (Nat.eqb _ 0); [intros H; exists x; auto|].
    destruct (_ && _); [intros H; exists x; auto|discriminate].
  - unfold assertEnd. destruct (Nat.eqb _ _); [intros H; exists x; auto|].
    destruct (_ && _); [intros H; exists x; auto|discriminate].
Qed.

(** A pattern that consumes moves the end of the match. *)
Lemma consumes_compile (r : regex) :
  consumes r = true ->
  forall x c z, compile R Input r x c = Some z ->
    exists y, (endIndex x < endIndex y)%nat /\ c y = Some z.
Proof.
  induction r as [ |ch|invert items|r1 IH1 r2 IH2|r1 IH1 r2 IH2|min max greedy r IH|n r IH
                  |n|r IH| | ]; cbn [compile consumes]; try discriminate; intros Hr x c z.
  - unfold characterSetMatcher. destruct (nth_error Input (endIndex x)); [|discriminate].
    destruct (xorb _ _); [|discriminate]. intros H. eexists. split; [|exact H]. simpl. lia.
  - unfold characterSetMatcher. destruct (nth_error Input (endIndex x)); [|discriminate].
    destruct (xorb _ _); [|discriminate]. intros H. eexists. split; [|exact H]. simpl. lia.
  - intros H. destruct (consumes r1) eqn:E1.
    + apply IH1 in H as (y & Hy & H); [|reflexivity].
      apply progressive_compile in H as (y' & Hy' & H). exists y'. split; [lia|exact H].
    + apply progressive_compile in H as (y & Hy & H).
      apply IH2 in H as (y' & Hy' & H); [|exact Hr]. exists y'. split; [lia|exact H].
  - apply andb_true_iff in Hr as [H1 H2].
    destruct (compile R Input r1 x c) as [z'|] eqn:E.
    + intros [= <-]. eapply IH1; eauto.
    + apply IH2, H2.
  - apply andb_true_iff in Hr as [Hr Hr'].
    apply andb_true_iff in Hr as [Hmin Hmax]. apply negb_true_iff in Hmax.
    rewrite repeatMatcher_S, Hmax. cbv zeta. rewrite Hmin.
    intros H. apply IH in H as (y & Hy & H); [|exact Hr'].
    simpl in Hy.
    destruct (Nat.eqb min 0 && Nat.eqb (endIndex y) (endIndex x)); [discriminate|].
    apply progressive_repeat in H as (y' & Hy' & H); [|apply progressive_compile].
    exists y'. split; [lia|exact H].
  - intros H. apply IH in H as (y & Hy & H); [|exact Hr].
    eexists. split; [|exact H]. simpl. exact Hy.
Qed.

(** The fuel [compile] gives a quantifier is as good as any larger one. *)
Lemma quantifier_fuel_enough (extra min : nat) max greedy (r : regex) x c :
  (endIndex x <= length Input)%nat ->
  repeatMatcher (S (min + (length Input - endIndex x)) + extra)
    (compile R Input r) (groupsOf r) min max greedy x c =
  compile R Input (Quant min max greedy r) x c.
Proof. intros Hx. apply repeatMatcher_enough; [apply honest_compile|exact Hx]. Qed.

(** *** [exec] *)

Lemma matchAt_index (i : nat) (m : MatchResult) :
  matchAt R Input i = Some m -> index m = i.
Proof.
  unfold matchAt. destruct (compile R Input (source R) _ Some); [|discriminate].
  intros [= <-]. reflexivity.
Qed.

Lemma matchAt_consumes (i : nat) (m : MatchResult) :
  consumes (source R) = true ->
  matchAt R Input i = Some m -> (i < stop m)%nat.
Proof.
  intros Hr. unfold matchAt.
  destruct (compile R Input (source R) _ Some) as [y|] eqn:E; [|discriminate].
  intros [= <-]. simpl.
  apply consumes_compile in E as (y' & Hy' & [= <-]); [|exact Hr]. exact Hy'.
Qed.

Lemma scan_from (positions : nat) : forall i m,
  scan R Input positions i = Some m ->
  exists j, (i <= j)%nat /\ matchAt R Input j = Some m.
Proof.
  induction positions as [|positions IH]; intros i m; simpl; [discriminate|].
  destruct (matchAt R Input i) as [m'|] eqn:E.
  - intros [= <-]. exists i. auto.
  - intros H. apply IH in H as (j & Hj & H). exists j. split; [lia|exact H].
Qed.

(** [exec] of a pattern that consumes leaves [lastIndex] further on. *)
Lemma exec_advances (lastIndex : nat) (m : MatchResult) :
  consumes (source R) = true ->
  exec R Input lastIndex = Some m -> (lastIndex < stop m)%nat.
Proof.
  intros Hr. unfold exec. destruct (_ <? _)%nat; [discriminate|].
  intros H. apply scan_from in H as (j & Hj & H).
  apply matchAt_consumes in H; [lia|exact Hr].
Qed.

Lemma exec_past_end (lastIndex : nat) :
  (length Input < lastIndex)%nat -> exec R Input lastIndex = None.
Proof.
  intros H. unfold exec. apply Nat.ltb_lt in H. rewrite H. reflexivity.
Qed.

Lemma exec_bounds (lastIndex : nat) (m : MatchResult) :
  exec R Input lastIndex = Some m -> (lastIndex <= index m <= stop m)%nat.
Proof.
  unfold exec. destruct (_ <? _)%nat; [discriminate|].
  intros H. apply scan_from in H as (j & Hj & H).
  pose proof (matchAt_index j m H) as Hi.
  unfold matchAt in H.
  destruct (compile R Input (source R) _ Some) as [y|] eqn:E; [|discriminate].
  apply progressive_compile in E as (y' & Hy' & [= <-]).
  injection H as <-. simpl in *. lia.
Qed.

(** The matches [replace] collects: fuel beyond the length of the text is
    never used, whatever the pattern. *)
Lemma matchesFrom_fuel : forall fuel lastIndex,
  (length Input - lastIndex < fuel)%nat ->
  matchesFrom R Input (S fuel) lastIndex = matchesFrom R Input fuel lastIndex.
Proof.
  induction fuel as [|fuel IH]; intros lastIndex Hfuel; [lia|].
  change (matchesFrom R Input (S (S fuel)) lastIndex)
    with (match exec R Input lastIndex with
          | None => []
          | Some m =>
              m :: matchesFrom R Input (S fuel)
                     (if Nat.eqb (stop m) (index m) then S (stop m) else stop m)
          end).
  change (matchesFrom R Input (S fuel) lastIndex)
    with (match exec R Input lastIndex with
          | None => []
          | Some m =>
              m :: matchesFrom R Input fuel
                     (if Nat.eqb (stop m) (index m) then S (stop m) else stop m)
          end).
  destruct (exec R Input lastIndex) as [m|] eqn:E; [|reflexivity].
  f_equal. apply exec_bounds in E.
  assert (Hnext : (lastIndex < (if Nat.eqb (stop m) (index m) then S (stop m) else stop m))%nat).
  { destruct (Nat.eqb (stop m) (index m)) eqn:Hs; [lia|]. apply Nat.eqb_neq in Hs. lia. }
  destruct fuel as [|fuel'].
  - simpl. rewrite exec_past_end by lia. reflexivity.
  - apply IH. lia.
Qed.

Lemma matches_enough (extra : nat) :
  matchesFrom R Input (S (length Input) + extra) 0 = matches R Input.
Proof.
  unfold matches. induction extra as [|extra IH]; [rewrite Nat.add_0_r; reflexivity|].
  rewrite <- IH, Nat.add_succ_r. apply matchesFrom_fuel. lia.
Qed.

End MatcherFacts.

(** ** The store of the report parser *)

Section StoreFacts.
Import Js RegExp Json Report.

Lemma keeps_refl h : keeps h h.
Proof. intros l o H. exact H. Qed.

Lemma keeps_trans h1 h2 h3 : keeps h1 h2 -> keeps h2 h3 -> keeps h1 h3.
Proof. intros H12 H23 l o H. apply H23, H12, H. Qed.

Lemma object_lt (h : heap) l o : object h l = Some o -> (l < length h)%nat.
Proof.
  unfold object. destruct (h !! l) eqn:E; [|discriminate].
  intros _. apply lookup_lt_Some in E. exact E.
Qed.

Lemma object_app_l (h h' : heap) l :
  (l < length h)%nat -> object (h ++ h') l = object h l.
Proof. intros Hl. unfold object. rewrite lookup_app_l by exact Hl. reflexivity. Qed.

Lemma array_app_l (h h' : heap) l :
  (l < length h)%nat -> array (h ++ h') l = array h l.
Proof. intros Hl. unfold array. rewrite lookup_app_l by exact Hl. reflexivity. Qed.

Lemma array_lt (h : heap) l els : array h l = Some els -> (l < length h)%nat.
Proof.
  unfold array. destruct (h !! l) eqn:E; [|discriminate].
  intros _. apply lookup_lt_Some in E. exact E.
Qed.

Lemma keeps_app h h' : keeps h (h ++ h').
Proof.
  intros l o H. rewrite object_app_l; [exact H|]. eapply object_lt, H.
Qed.

Lemma object_alloc (h : heap) o : object (h ++ [Obj o]) (length h) = Some o.
Proof.
  unfold object. rewrite lookup_app_r by lia. rewrite Nat.sub_diag. reflexivity.
Qed.

(** Writing an array where an array is leaves every object alone. *)
Lemma object_set_array (h : heap) a els els' l :
  array h a = Some els -> object (<[a := Arr els']> h) l = object h l.
Proof.
  intros Ha. unfold object, array in *.
  destruct (decide (l = a)) as [->|Hne].
  - destruct (h !! a) as [[|]|] eqn:E; try discriminate.
    rewrite list_lookup_insert_eq by (eapply lookup_lt_Some, E). reflexivity.
  - rewrite list_lookup_insert_ne by congruence. reflexivity.
Qed.

Lemma array_set_array (h : heap) a els els' :
  array h a = Some els -> array (<[a := Arr els']> h) a = Some els'.
Proof.
  intros Ha. unfold array.
  rewrite list_lookup_insert_eq by (eapply array_lt, Ha). reflexivity.
Qed.

Lemma keeps_set_array h a els els' :
  array h a = Some els -> keeps h (<[a := Arr els']> h).
Proof. intros Ha l o H. erewrite object_set_array; eauto. Qed.

Lemma Forall2_keeps h h' (ls : list loc) (os : list ScoreEntry) :
  keeps h h' ->
  Forall2 (fun l o => object h l = Some o) ls os ->
  Forall2 (fun l o => object h' l = Some o) ls os.
Proof.
  intros Hk H. eapply Forall2_impl; [exact H|]. intros l o. apply Hk.
Qed.

Lemma entries_Forall2 h a table :
  entries h a = Some table <->
  exists els, array h a = Some els /\ Forall2 (fun l o => object h l = Some o) els table.
Proof.
  unfold entries. split.
  - destruct (array h a) as [els|]; [|discriminate].
    intros H. exists els. split; [reflexivity|]. apply mapM_Some in H. exact H.
  - intros (els & -> & H). apply mapM_Some. exact H.
Qed.

Lemma copy_eta (o : ScoreEntry) : {| category := category o; score := score o |} = o.
Proof. destruct o. reflexivity. Qed.

(** [defaultScores.map(...)]: the copies are new objects, appended. *)
Lemma copyEach_spec (els : list loc) : forall (h : heap) (os : list ScoreEntry),
  Forall2 (fun l o => object h l = Some o) els os ->
  copyEach els h = (seq (length h) (length os), h ++ map Obj os).
Proof.
  induction els as [|l els IH]; intros h os H; inversion H as [|? o ? os' Hl Hrest]; subst; simpl.
  - rewrite app_nil_r. reflexivity.
  - rewrite Hl, copy_eta. unfold alloc.
    rewrite (IH (h ++ [Obj o]) os').
    + rewrite length_app, Nat.add_1_r, <- app_assoc. reflexivity.
    + eapply Forall2_keeps; [apply keeps_app|exact Hrest].
Qed.

Lemma Forall2_fresh (h : heap) (os : list ScoreEntry) :
  Forall2 (fun l o => object (h ++ map Obj os) l = Some o) (seq (length h) (length os)) os.
Proof.
  revert h. induction os as [|o os IH]; intros h; simpl; constructor.
  - change (h ++ Obj o :: map Obj os) with (h ++ [Obj o] ++ map Obj os).
    rewrite app_assoc, object_app_l, object_alloc; [reflexivity|].
    rewrite length_app. simpl. lia.
  - specialize (IH (h ++ [Obj o])).
    rewrite length_app, Nat.add_1_r, <- app_assoc in IH. exact IH.
Qed.

(** What [copyScores] leaves: the table of the module untouched, and a new
    array of new objects that reads as the default table. *)
Lemma copyScores_spec (h : heap) :
  intact h ->
  copyScores h =
    (length h + length defaultTable,
     h ++ map Obj defaultTable
       ++ [Arr (seq (length h) (length defaultTable))])%nat.
Proof.
  intros Hi. apply entries_Forall2 in Hi as (els & Ha & Hels).
  unfold copyScores. rewrite Ha. simpl default.
  rewrite (copyEach_spec els h defaultTable Hels).
  unfold alloc. rewrite length_app, length_map, <- app_assoc. reflexivity.
Qed.

Lemma entries_app_l h h' a table :
  entries h a = Some table -> entries (h ++ h') a = Some table.
Proof.
  intros H. apply entries_Forall2 in H as (els & Ha & Hels).
  apply entries_Forall2. exists els. split.
  - rewrite array_app_l; [exact Ha|]. eapply array_lt, Ha.
  - eapply Forall2_keeps; [apply keeps_app|exact Hels].
Qed.

Lemma array_copy (h : heap) (os : list ScoreEntry) (els : list loc) :
  array (h ++ map Obj os ++ [Arr els]) (length h + length os) = Some els.
Proof.
  unfold array. rewrite app_assoc, lookup_app_r by (rewrite length_app, length_map; lia).
  rewrite length_app, length_map, Nat.sub_diag. reflexivity.
Qed.

Lemma entries_copy (h : heap) (os : list ScoreEntry) :
  entries (h ++ map Obj os ++ [Arr (seq (length h) (length os))])
          (length h + length os) = Some os.
Proof.
  apply entries_Forall2. exists (seq (length h) (length os)). split.
  - apply array_copy.
  - rewrite app_assoc. eapply Forall2_keeps; [apply keeps_app|apply Forall2_fresh].
Qed.

Lemma pushParsed_spec (lines : list str) : forall (h : heap),
  pushParsed lines h =
    (seq (length h) (length (omap parseScoreLine lines)),
     h ++ map Obj (omap parseScoreLine lines)).
Proof.
  induction lines as [|line lines IH]; intros h; simpl.
  - rewrite app_nil_r. reflexivity.
  - destruct (parseScoreLine line) as [o|]; [|apply IH].
    unfold alloc. rewrite IH. simpl.
    rewrite length_app, Nat.add_1_r, <- app_assoc. reflexivity.
Qed.

Lemma indexAll_spec (h : heap) (els : list loc) : forall os i m,
  Forall2 (fun l o => object h l = Some o) els os ->
  indexAll h els i m = indexEntries os i m.
Proof.
  induction els as [|l els IH]; intros os i m H;
    inversion H as [|? o ? os' Hl Hrest]; subst; simpl; [reflexivity|].
  rewrite Hl. apply IH, Hrest.
Qed.

(** The loop over [parsedScores] computes [mergeEntries] in the array it
    is given, and writes nowhere else. *)
Lemma mergeParsed_spec (dm : scoreMap) (a : loc) (ls : list loc) :
  forall (h : heap) els cur ps,
    array h a = Some els ->
    Forall2 (fun l o => object h l = Some o) els cur ->
    Forall2 (fun l o => object h l = Some o) ls ps ->
    let h' := mergeParsed dm a ls h in
    entries h' a = Some (mergeEntries dm cur ps) /\
    keeps h h' /\ same_below (length h) a h h' /\ (length h <= length h')%nat.
Proof.
  induction ls as [|l ls IH]; intros h els cur ps Ha Hels Hls;
    inversion Hls as [|? p ? ps' Hl Hrest]; subst; simpl.
  - split; [apply entries_Forall2; eauto|].
    split; [apply keeps_refl|]. split; [intros ? ? ?; reflexivity|lia].
  - rewrite Hl, Ha. destruct (mapGet dm (category p)) as [idx|].
    + rewrite copy_eta.
      set (h1 := h ++ [Obj p]).
      set (h2 := <[a := Arr (<[idx := length h]> els)]> h1).
      assert (Ha1 : array h1 a = Some els).
      { subst h1. rewrite array_app_l; [exact Ha|]. eapply array_lt, Ha. }
      assert (Hk : keeps h h2).
      { eapply keeps_trans; [apply keeps_app|]. eapply keeps_set_array, Ha1. }
      destruct (IH h2 (<[idx := length h]> els) (<[idx := p]> cur) ps')
        as (He & Hk' & Hs & Hlen).
      * eapply array_set_array, Ha1.
      * apply Forall2_insert; [eapply Forall2_keeps; eauto|].
        subst h2. erewrite object_set_array by exact Ha1. apply object_alloc.
      * eapply Forall2_keeps; eauto.
      * assert (Hlen2 : length h2 = S (length h)).
        { subst h2 h1. rewrite length_insert, length_app. simpl. lia. }
        split; [exact He|]. split; [eapply keeps_trans; eauto|].
        split; [|lia].
        intros l' Hl' Hne. rewrite Hs by lia.
        subst h2 h1. rewrite list_lookup_insert_ne by congruence.
        apply lookup_app_l. exact Hl'.
    + set (h2 := <[a := Arr (els ++ [l])]> h).
      assert (Hk : keeps h h2) by (eapply keeps_set_array, Ha).
      destruct (IH h2 (els ++ [l]) (cur ++ [p]) ps') as (He & Hk' & Hs & Hlen).
      * eapply array_set_array, Ha.
      * apply Forall2_app; [eapply Forall2_keeps; eauto|].
        constructor; [apply Hk, Hl|constructor].
      * eapply Forall2_keeps; eauto.
      * assert (Hlen2 : length h2 = length h) by (subst h2; apply length_insert).
        split; [exact He|]. split; [eapply keeps_trans; eauto|].
        split; [|lia].
        intros l' Hl' Hne. rewrite Hs by lia.
        subst h2. apply list_lookup_insert_ne. congruence.
Qed.

(** The array a call fills holds the table [scoresFor] describes. *)
Lemma extractScores_spec (summaryText : str) (a : loc) (h : heap) :
  entries h a = Some defaultTable ->
  let h' := extractScores summaryText a h in
  entries h' a = Some (scoresFor summaryText) /\
  same_below (length h) a h h' /\ (length h <= length h')%nat.
Proof.
  intros He. unfold extractScores, scoresFor.
  destruct (String_match summaryText ratingRegex) as [m|]; simpl.
  2: { split; [exact He|]. split; [intros ? ? ?; reflexivity|lia]. }
  rewrite pushParsed_spec.
  set (ps := omap parseScoreLine (ratingLines (at_ m 1))).
  set (h1 := h ++ map Obj ps).
  apply entries_Forall2 in He as (els & Ha & Hels).
  assert (Ha1 : array h1 a = Some els).
  { subst h1. rewrite array_app_l; [exact Ha|]. eapply array_lt, Ha. }
  assert (Hels1 : Forall2 (fun l o => object h1 l = Some o) els defaultTable).
  { eapply Forall2_keeps; [apply keeps_app|exact Hels]. }
  rewrite Ha1. simpl default.
  rewrite (indexAll_spec h1 els defaultTable 0 [] Hels1).
  destruct (mergeParsed_spec (indexEntries defaultTable 0 []) a
              (seq (length h) (length ps)) h1 els defaultTable ps Ha1 Hels1)
    as (He' & _ & Hs & Hlen); [apply Forall2_fresh|].
  assert (Hlen1 : (length h <= length h1)%nat) by (subst h1; rewrite length_app; lia).
  split; [exact He'|]. split; [|lia].
  intros l Hl Hne. rewrite Hs by lia. subst h1. apply lookup_app_l. exact Hl.
Qed.

(** A table below [n] reads the same in a store that has the same cells
    there. *)
Lemma entries_same_below (n : nat) (h h' : heap) (a : loc) table :
  (forall l, (l < n)%nat -> h' !! l = h !! l) ->
  (length h <= n)%nat ->
  entries h a = Some table -> entries h' a = Some table.
Proof.
  intros Hs Hn He. apply entries_Forall2 in He as (els & Ha & Hels).
  apply entries_Forall2. exists els. split.
  - unfold array in *. rewrite Hs; [exact Ha|].
    destruct (h !! a) eqn:E; [|discriminate]. apply lookup_lt_Some in E. lia.
  - eapply Forall2_impl; [exact Hels|]. intros l o Hl. unfold object in *.
    rewrite Hs; [exact Hl|].
    destruct (h !! l) eqn:E; [|discriminate]. apply lookup_lt_Some in E. lia.
Qed.

(** [Parser] on a store whose module table is intact: what it is seen to
    do is [reportOf], the table stays intact, the cells that were there are
    left as they were, and the array of the result is new. *)
Lemma Parser_reportOf nts (rawText : str) (h : heap) :
  intact h ->
  observe (fst (Parser nts rawText h)) = Some (reportOf nts rawText) /\
  intact (snd (fst (Parser nts rawText h))) /\
  (forall l, (l < length h)%nat -> snd (fst (Parser nts rawText h)) !! l = h !! l) /\
  (forall r, fst (fst (Parser nts rawText h)) = Returned r ->
             scores r = (length h + length defaultTable)%nat).
Proof.
  intros Hi. unfold Parser, reportOf.
  rewrite (copyScores_spec h Hi).
  set (a := (length h + length defaultTable)%nat).
  set (h0 := h ++ map Obj defaultTable ++ [Arr (seq (length h) (length defaultTable))]).
  assert (He0 : entries h0 a = Some defaultTable) by apply entries_copy.
  assert (Hlen0 : (length h <= length h0)%nat) by (subst h0; rewrite length_app; lia).
  assert (Hs0 : forall l, (l < length h)%nat -> h0 !! l = h !! l).
  { intros l Hl. subst h0. apply lookup_app_l. exact Hl. }
  assert (Hi0 : intact h0) by (apply entries_app_l, Hi).
  assert (Hfin : forall (o : outcome) (h' : heap) (said : list call) (v : observed),
            observe (o, h') = Some v -> intact h' ->
            (forall l, (l < length h)%nat -> h' !! l = h !! l) ->
            (forall r, o = Returned r -> scores r = a) ->
            observe (fst (o, h', said)) = Some v /\ intact (snd (fst (o, h', said))) /\
            (forall l, (l < length h)%nat -> snd (fst (o, h', said)) !! l = h !! l) /\
            (forall r, fst (fst (o, h', said)) = Returned r -> scores r = a)).
  { intros; simpl; auto. }
  destruct (tryParse rawText) as [parsed|].
  2: { apply Hfin; auto.
       - simpl. unfold read. simpl. rewrite He0. reflexivity.
       - intros r [= <-]. reflexivity. }
  destruct (summaryTextOf parsed) as [ |b|m e|s|els|ms];
    try (apply Hfin; [reflexivity|auto|auto|discriminate]).
  destruct (extractScores_spec s a h0 He0) as (He1 & Hs1 & Hlen1).
  set (h1 := extractScores s a h0) in *.
  assert (Hs : forall l, (l < length h)%nat -> h1 !! l = h !! l).
  { intros l Hl. rewrite Hs1; [apply Hs0, Hl|lia|subst a; lia]. }
  assert (Hi1 : intact h1).
  { eapply (entries_same_below (length h)); [exact Hs|lia|exact Hi]. }
  destruct (ToString nts (detailTextOf parsed)) as [text|];
    [|apply Hfin; [reflexivity|auto|auto|discriminate]].
  destruct (detailTextOf parsed) as [ |b|m e|d|els|ms];
    try (apply Hfin; [reflexivity|auto|auto|discriminate]).
  - apply Hfin; auto.
    + simpl. unfold read. simpl. rewrite He1. reflexivity.
    + intros r [= <-]. reflexivity.
  - destruct (_ && _).
    + apply Hfin; [reflexivity|auto|auto|discriminate].
    + apply Hfin; auto.
      * simpl. unfold read. simpl. rewrite He1. reflexivity.
      * intros r [= <-]. reflexivity.
Qed.

(** What [Parser] writes to the console on such a store is [consoleFor]. *)
Lemma Parser_console nts (rawText : str) (h : heap) :
  intact h -> snd (Parser nts rawText h) = consoleFor nts rawText.
Proof.
  intros Hi. unfold Parser, consoleFor.
  rewrite (copyScores_spec h Hi).
  set (a := (length h + length defaultTable)%nat).
  set (h0 := h ++ map Obj defaultTable ++ [Arr (seq (length h) (length defaultTable))]).
  assert (He0 : entries h0 a = Some defaultTable) by apply entries_copy.
  destruct (tryParse rawText) as [parsed|]; [|reflexivity].
  destruct (summaryTextOf parsed) as [ |b|m e|s|els|ms]; try reflexivity.
  destruct (extractScores_spec s a h0 He0) as (He1 & _ & _).
  assert (Hcount : length (default [] (array (extractScores s a h0) a)) = length (scoresFor s)).
  { unfold entries in He1. destruct (array (extractScores s a h0) a) as [elements|];
      [|discriminate].
    apply length_mapM in He1. exact He1. }
  rewrite Hcount.
  destruct (ToString nts (detailTextOf parsed)) as [text|]; [|reflexivity].
  destruct (detailTextOf parsed) as [ |b|m e|d|els|ms]; try reflexivity.
  destruct (_ && _); reflexivity.
Qed.

End StoreFacts.

(** ** [JSON.parse]

    The fuel [JSON_parse] gives the recursive descent is never used up, and
    more fuel would not change the result. *)

Section JsonFacts.
Import Js Json.

Lemma skipSpace_length (s : str) : (length (skipSpace s) <= length s)%nat.
Proof.
  induction s as [|c s IH]; simpl; [lia|].
  destruct (isJsonSpace c); simpl; lia.
Qed.

Lemma expect_length (c : N) (s t : str) :
  expect c s = Some t -> length s = S (length t).
Proof.
  destruct s as [|x s]; simpl; [discriminate|].
  destruct (N.eqb x c); [|discriminate]. intros [= <-]. reflexivity.
Qed.

Lemma expect_skipSpace (c : N) (s t : str) :
  expect c (skipSpace s) = Some t -> (length t < length s)%nat.
Proof.
  intros H. apply expect_length in H. pose proof (skipSpace_length s). lia.
Qed.

Lemma stringBody_shorter (n : nat) : forall s acc key rest,
  (length s <= n)%nat ->
  stringBody s acc = Some (key, rest) -> (length rest < length s)%nat.
Proof.
  induction n as [|n IH]; intros s acc key rest Hn;
    destruct s as [|c s1]; simpl in *; try discriminate; [lia|].
  destruct (c =? 34)%N; [intros [= _ <-]; lia|].
  destruct (c =? 92)%N.
  - destruct s1 as [|e s2]; [discriminate|].
    repeat (match goal with
            | |- context [if (e =? ?k)%N then _ else _] =>
                destruct (e =? k)%N;
                [intros H; apply IH in H; simpl in *; lia|]
            end).
    destruct (e =? 117)%N; [|discriminate].
    destruct s2 as [|h1 [|h2 [|h3 [|h4 s3]]]]; try discriminate.
    destruct (hex4 h1 h2 h3 h4); [|discriminate].
    intros H. apply IH in H; simpl in *; lia.
  - destruct (c <? 32)%N; [discriminate|].
    intros H. apply IH in H; simpl in *; lia.
Qed.

Lemma stringBody_length (s : str) acc key rest :
  stringBody s acc = Some (key, rest) -> (length rest < length s)%nat.
Proof. apply (stringBody_shorter (length s)). lia. Qed.

Lemma digits_length (s : str) : forall acc ds rest,
  digits s acc = (ds, rest) -> (length rest <= length s)%nat.
Proof.
  induction s as [|c s IH]; intros acc ds rest; simpl.
  - intros [= _ <-]. simpl. lia.
  - destruct (isDigit c).
    + intros H. apply IH in H. lia.
    + intros [= _ <-]. simpl. lia.
Qed.

Lemma number_length (s : str) v rest :
  number s = Some (v, rest) -> (length rest <= length s)%nat.
Proof.
  unfold number.
  repeat (first
    [ progress cbv beta iota zeta
    | match goal with
      | |- context [expect ?c ?t] =>
          let E := fresh "E" in
          destruct (expect c t) eqn:E; [apply expect_length in E|clear E]
      | |- context [digits ?t ?a] =>
          let E := fresh "E" in
          destruct (digits t a) as [[|? ?] ?] eqn:E; apply digits_length in E
      end
    | discriminate
    | (intros [= _ <-]; simpl in *; lia) ]).
Qed.

(** A value leaves no more text than it was given. *)
Lemma value_length (fuel : nat) :
  (forall s v rest, value fuel s = Ok v rest -> (length rest <= length s)%nat) /\
  (forall s acc v rest, elements fuel s acc = Ok v rest -> (length rest <= length s)%nat) /\
  (forall s acc v rest, members fuel s acc = Ok v rest -> (length rest <= length s)%nat).
Proof.
  induction fuel as [|fuel (IHv & IHe & IHm)]; [repeat split; discriminate|].
  split; [|split].
  - intros s v rest. cbn [value].
    pose proof (skipSpace_length s) as Hs.
    destruct (expect 123 (skipSpace s)) as [s1|] eqn:E1.
    { apply expect_length in E1.
      destruct (expect 125 (skipSpace s1)) as [s2|] eqn:E2.
      - apply expect_skipSpace in E2. intros [= _ <-]. lia.
      - intros H. apply IHm in H. lia. }
    destruct (expect 91 (skipSpace s)) as [s1|] eqn:E2.
    { apply expect_length in E2.
      destruct (expect 93 (skipSpace s1)) as [s2|] eqn:E3.
      - apply expect_skipSpace in E3. intros [= _ <-]. lia.
      - intros H. apply IHe in H. lia. }
    destruct (expect 34 (skipSpace s)) as [s1|] eqn:E3.
    { apply expect_length in E3.
      destruct (stringBody s1 []) as [[key r]|] eqn:E4; [|discriminate].
      apply stringBody_length in E4. intros [= _ <-]. lia. }
    repeat (match goal with
            | |- context [if startsWith ?a ?b then _ else _] =>
                destruct (startsWith a b);
                [intros [= _ <-]; rewrite length_skipn; lia|]
            end).
    destruct (number (skipSpace s)) as [[v' r]|] eqn:E4; [|discriminate].
    apply number_length in E4. intros [= _ <-]. lia.
  - intros s acc v rest. cbn [elements].
    destruct (value fuel s) as [v' r| |] eqn:E; try discriminate.
    apply IHv in E.
    destruct (expect 44 (skipSpace r)) as [r'|] eqn:E1.
    { apply expect_skipSpace in E1. intros H. apply IHe in H. lia. }
    destruct (expect 93 (skipSpace r)) as [r'|] eqn:E2; [|discriminate].
    apply expect_skipSpace in E2. intros [= _ <-]. lia.
  - intros s acc v rest. cbn [members].
    destruct (expect 34 (skipSpace s)) as [s1|] eqn:E1; [|discriminate].
    apply expect_skipSpace in E1.
    destruct (stringBody s1 []) as [[key r]|] eqn:E2; [|discriminate].
    apply stringBody_length in E2.
    destruct (expect 58 (skipSpace r)) as [r'|] eqn:E3; [|discriminate].
    apply expect_skipSpace in E3.
    destruct (value fuel r') as [v' r''| |] eqn:E4; try discriminate.
    apply IHv in E4.
    destruct (expect 44 (skipSpace r'')) as [t|] eqn:E5.
    { apply expect_skipSpace in E5. intros H. apply IHm in H. lia. }
    destruct (expect 125 (skipSpace r'')) as [t|] eqn:E6; [|discriminate].
    apply expect_skipSpace in E6. intros [= _ <-]. lia.
Qed.

(** With twice the length of the text and one more, a value never runs out
    of fuel; a sequence of elements or members needs one more still. *)
Lemma value_fuel (fuel : nat) :
  (forall s, (2 * length s < fuel)%nat -> value fuel s <> OutOfFuel) /\
  (forall s acc, (2 * length s + 1 < fuel)%nat -> elements fuel s acc <> OutOfFuel) /\
  (forall s acc, (2 * length s + 1 < fuel)%nat -> members fuel s acc <> OutOfFuel).
Proof.
  induction fuel as [|fuel (IHv & IHe & IHm)]; [repeat split; intros; lia|].
  split; [|split].
  - intros s Hf. cbn [value].
    pose proof (skipSpace_length s) as Hs.
    destruct (expect 123 (skipSpace s)) as [s1|] eqn:E1.
    { apply expect_length in E1.
      destruct (expect 125 (skipSpace s1)); [discriminate|]. apply IHm. lia. }
    destruct (expect 91 (skipSpace s)) as [s1|] eqn:E2.
    { apply expect_length in E2.
      destruct (expect 93 (skipSpace s1)); [discriminate|]. apply IHe. lia. }
    destruct (expect 34 (skipSpace s)) as [s1|].
    { destruct (stringBody s1 []) as [[key r]|]; discriminate. }
    repeat (match goal with
            | |- context [if startsWith ?a ?b then _ else _] =>
                destruct (startsWith a b); [discriminate|]
            end).
    destruct (number (skipSpace s)) as [[v' r]|]; discriminate.
  - intros s acc Hf. cbn [elements].
    destruct (value fuel s) as [v r| |] eqn:E; [|discriminate|].
    + apply (proj1 (value_length fuel)) in E.
      destruct (expect 44 (skipSpace r)) as [r'|] eqn:E1.
      { apply expect_skipSpace in E1. apply IHe. lia. }
      destruct (expect 93 (skipSpace r)); discriminate.
    + exfalso. revert E. apply IHv. lia.
  - intros s acc Hf. cbn [members].
    destruct (expect 34 (skipSpace s)) as [s1|] eqn:E1; [|discriminate].
    apply expect_skipSpace in E1.
    destruct (stringBody s1 []) as [[key r]|] eqn:E2; [|discriminate].
    apply stringBody_length in E2.
    destruct (expect 58 (skipSpace r)) as [r'|] eqn:E3; [|discriminate].
    apply expect_skipSpace in E3.
    destruct (value fuel r') as [v r''| |] eqn:E4; [|discriminate|].
    + apply (proj1 (value_length fuel)) in E4.
      destruct (expect 44 (skipSpace r'')) as [t|] eqn:E5.
      { apply expect_skipSpace in E5. apply IHm. lia. }
      destruct (expect 125 (skipSpace r'')); discriminate.
    + exfalso. revert E4. apply IHv. lia.
Qed.

(** A result that is not [OutOfFuel] is the result with any more fuel. *)
Lemma value_more_fuel (fuel : nat) :
  (forall s r, value fuel s = r -> r <> OutOfFuel -> value (S fuel) s = r) /\
  (forall s acc r, elements fuel s acc = r -> r <> OutOfFuel -> elements (S fuel) s acc = r) /\
  (forall s acc r, members fuel s acc = r -> r <> OutOfFuel -> members (S fuel) s acc = r).
Proof.
  induction fuel as [|fuel (IHv & IHe & IHm)];
    [repeat split; intros; subst; simpl in *; congruence|].
  split; [|split].
  - intros s r H Hr. cbn [value] in H. change (value (S (S fuel)) s) with
      (let s0 := skipSpace s in
       match expect 123 s0, expect 91 s0, expect 34 s0 with
       | Some s1, _, _ =>
           match expect 125 (skipSpace s1) with
           | Some s2 => Ok (JObject []) s2
           | None => members (S fuel) s1 []
           end
       | None, Some s1, _ =>
           match expect 93 (skipSpace s1) with
           | Some s2 => Ok (JArray []) s2
           | None => elements (S fuel) s1 []
           end
       | None, None, Some s1 =>
           ofOption (option_map (fun '(s, rest) => (JString s, rest)) (stringBody s1 []))
       | None, None, None =>
           if startsWith s0 (u "true") then Ok (JBool true) (skipn 4 s0)
           else if startsWith s0 (u "false") then Ok (JBool false) (skipn 5 s0)
           else if startsWith s0 (u "null") then Ok JNull (skipn 4 s0)
           else ofOption (number s0)
       end).
    cbv zeta in *.
    destruct (expect 123 (skipSpace s)) as [s1|].
    { destruct (expect 125 (skipSpace s1)); [exact H|]. apply IHm; assumption. }
    destruct (expect 91 (skipSpace s)) as [s1|].
    { destruct (expect 93 (skipSpace s1)); [exact H|]. apply IHe; assumption. }
    exact H.
  - intros s acc r H Hr.
    change (elements (S (S fuel)) s acc) with
      (match value (S fuel) s with
       | Ok v rest =>
           match expect 44 (skipSpace rest), expect 93 (skipSpace rest) with
           | Some rest', _ => elements (S fuel) rest' (acc ++ [v])
           | None, Some rest' => Ok (JArray (acc ++ [v])) rest'
           | None, None => Invalid
           end
       | Invalid => Invalid
       | OutOfFuel => OutOfFuel
       end).
    cbn [elements] in H.
    destruct (value fuel s) as [v rest| |] eqn:E.
    + rewrite (IHv s (Ok v rest) E) by discriminate.
      destruct (expect 44 (skipSpace rest)); [apply IHe; assumption|exact H].
    + rewrite (IHv s Invalid E) by discriminate. exact H.
    + congruence.
  - intros s acc r H Hr.
    change (members (S (S fuel)) s acc) with
      (match expect 34 (skipSpace s) with
       | Some s1 =>
           match stringBody s1 [] with
           | Some (key, rest) =>
               match expect 58 (skipSpace rest) with
               | Some rest' =>
                   match value (S fuel) rest' with
                   | Ok v rest'' =>
                       match expect 44 (skipSpace rest''), expect 125 (skipSpace rest'') with
                       | Some t, _ => members (S fuel) t (acc ++ [(key, v)])
                       | None, Some t => Ok (JObject (acc ++ [(key, v)])) t
                       | None, None => Invalid
                       end
                   | Invalid => Invalid
                   | OutOfFuel => OutOfFuel
                   end
               | None => Invalid
               end
           | None => Invalid
           end
       | None => Invalid
       end).
    cbn [members] in H.
    destruct (expect 34 (skipSpace s)) as [s1|]; [|exact H].
    destruct (stringBody s1 []) as [[key rest]|]; [|exact H].
    destruct (expect 58 (skipSpace rest)) as [rest'|]; [|exact H].
    destruct (value fuel rest') as [v rest''| |] eqn:E.
    + rewrite (IHv rest' (Ok v rest'') E) by discriminate.
      destruct (expect 44 (skipSpace rest'')); [apply IHm; assumption|exact H].
    + rewrite (IHv rest' Invalid E) by discriminate. exact H.
    + congruence.
Qed.

(** [JSON_parse] never runs out of fuel, and more fuel gives the same
    value or the same refusal. *)
Lemma JSON_parse_fuel (text : str) :
  parseText (2 * length text + 2) text <> OutOfFuel.
Proof.
  unfold parseText.
  destruct (value (2 * length text + 2) text) as [v rest| |] eqn:E.
  - destruct (skipSpace rest); discriminate.
  - discriminate.
  - exfalso. revert E. apply (proj1 (value_fuel _)). lia.
Qed.

Lemma JSON_parse_enough (text : str) (extra : nat) :
  parseText (2 * length text + 2 + extra) text = parseText (2 * length text + 2) text.
Proof.
  induction extra as [|extra IH]; [rewrite Nat.add_0_r; reflexivity|].
  rewrite <- IH, Nat.add_succ_r. unfold parseText at 1 2.
  assert (Hne : value (2 * length text + 2 + extra) text <> OutOfFuel).
  { intros E. pose proof (JSON_parse_fuel text) as Hf. rewrite <- IH in Hf.
    unfold parseText in Hf. rewrite E in Hf. congruence. }
  rewrite (proj1 (value_more_fuel _) text _ eq_refl Hne). reflexivity.
Qed.

End JsonFacts.

(** ** The report parser *)

Section ParserFacts.
Import Js RegExp Json Report.

Variable Number_toString : Z -> Z -> str.

Local Abbreviation Parser' := (Parser Number_toString).

Local Abbreviation defaultMap := (indexEntries defaultTable 0 []).

(** *** The numbers read *)

Lemma digitsValue_nonneg (s : str) : 0 <= digitsValue s.
Proof.
  unfold digitsValue.
  assert (H : forall acc, 0 <= acc ->
            0 <= fold_left (fun acc c => acc * 10 + Z.of_N (c - 48)) s acc).
  { induction s as [|c s IH]; intros acc Hacc; simpl; [exact Hacc|].
    apply IH. lia. }
  apply H. lia.
Qed.

(** The double nearest to an integer that is not negative is such an
    integer, or [Infinity]; below [2 ^ 53] it is the integer itself. *)
Lemma roundToDouble_whole (n : Z) : 0 <= n -> wholeOrInfinite (roundToDouble n).
Proof.
  intros Hn. unfold roundToDouble.
  destruct (n <? 2 ^ 53); [exact Hn|].
  set (shift := Z.log2 n - 52). set (q := Z.shiftr n shift).
  assert (Hq : 0 <= q) by (apply Z.shiftr_nonneg, Hn).
  match goal with |- context [Z.shiftl ?x shift] =>
    match x with
    | q => fail 1
    | _ => assert (Hd : 0 <= Z.shiftl x shift)
             by (apply Z.shiftl_nonneg; destruct (_ || _); lia);
           destruct (2 ^ 1024 <=? Z.shiftl x shift); [exact I|exact Hd]
    end
  end.
Qed.

Lemma roundToDouble_exact (n : Z) : n < 2 ^ 53 -> roundToDouble n = Finite n.
Proof.
  intros Hn. unfold roundToDouble.
  replace (n <? 2 ^ 53) with true by (symmetry; apply Z.ltb_lt, Hn). reflexivity.
Qed.

(** *** The score table *)

(** An entry read from a line has the number of the digits of the line. *)
Lemma parseScoreLine_read (line : str) (e : ScoreEntry) :
  parseScoreLine line = Some e ->
  exists m, String_match line scoreLineRegex = Some m /\
            score e = toNumber (at_ m 2) /\
            category e =
              default (Name (trim (at_ m 1)))
                (aliasOf (String_replace (toLowerCase (trim (at_ m 1))) separatorsRegex
                            (fun _ => []))).
Proof.
  unfold parseScoreLine. destruct (String_match line scoreLineRegex) as [m|]; [|discriminate].
  intros [= <-]. exists m. repeat split.
Qed.

Lemma parsed_read (lines : list str) (e : ScoreEntry) :
  In e (omap parseScoreLine lines) ->
  exists line, In line lines /\ parseScoreLine line = Some e.
Proof.
  induction lines as [|line lines IH]; simpl; [intros []|].
  destruct (parseScoreLine line) as [o|] eqn:E.
  - intros [<-|Hin]; [exists line; auto|].
    destruct (IH Hin) as (l & Hl & He). exists l. auto.
  - intros Hin. destruct (IH Hin) as (l & Hl & He). exists l. auto.
Qed.

Lemma mapGet_In (m : scoreMap) k i : mapGet m k = Some i -> In (k, i) m.
Proof.
  unfold mapGet. destruct (List.find _ m) as [[k' i']|] eqn:E; [|discriminate].
  intros [= <-]. apply find_some in E as [Hin Hk].
  apply bool_decide_eq_true in Hk. simpl in Hk. subst k'. exact Hin.
Qed.

(** [defaultMap] sends a category to the index it has in the table, and
    knows exactly the categories of the table. *)
Lemma defaultMap_sound (c : categoryValue) (idx : nat) :
  mapGet defaultMap c = Some idx ->
  exists d, defaultTable !! idx = Some d /\ category d = c.
Proof.
  intros H. apply mapGet_In in H.
  vm_compute in H.
  repeat (destruct H as [[= <- <-]|H]; [eexists; split; reflexivity|]).
  destruct H.
Qed.

Lemma defaultMap_complete (c : categoryValue) :
  mapGet defaultMap c = None -> inDefaultTable c = false.
Proof.
  unfold mapGet, inDefaultTable.
  destruct (List.find _ defaultMap) as [ki|] eqn:E; [discriminate|]. intros _.
  apply not_true_is_false. intros Hin.
  apply existsb_exists in Hin as (d & Hd & Hc).
  apply bool_decide_eq_true in Hc.
  assert (Hk : In (category d, 0%nat) (map (fun ki => (fst ki, 0%nat)) defaultMap)).
  { vm_compute. vm_compute in Hd. intuition (subst; auto). }
  apply in_map_iff in Hk as ([k i] & [= Hk] & Hin).
  eapply find_none in E; [|exact Hin]. simpl in E, Hk.
  apply bool_decide_eq_false in E. congruence.
Qed.

Lemma defaultTable_distinct (i j : nat) (d d' : ScoreEntry) :
  defaultTable !! i = Some d -> defaultTable !! j = Some d' ->
  category d = category d' -> i = j.
Proof.
  intros Hi Hj Hc.
  assert (Hnd : NoDup (map category defaultTable)).
  { apply (bool_decide_unpack _). vm_compute. reflexivity. }
  eapply NoDup_lookup; [exact Hnd| |].
  - rewrite list_lookup_fmap, Hi. reflexivity.
  - rewrite list_lookup_fmap, Hj. simpl. congruence.
Qed.

(** The loop of lines 143-150 as a fold. *)
Lemma mergeEntries_fold (parsed : list ScoreEntry) : forall table,
  mergeEntries defaultMap table parsed = fold_left mergeStep parsed table.
Proof.
  induction parsed as [|ps parsed IH]; intros table; [reflexivity|].
  simpl. unfold mergeStep at 2. destruct (mapGet _ _); apply IH.
Qed.

Lemma lastWith_snoc (c : categoryValue) (parsed : list ScoreEntry) (ps : ScoreEntry) :
  lastWith c (parsed ++ [ps]) =
  if bool_decide (category ps = c) then Some ps else lastWith c parsed.
Proof.
  unfold lastWith. rewrite List.filter_app. simpl.
  destruct (bool_decide (category ps = c)).
  - apply last_snoc.
  - rewrite app_nil_r. reflexivity.
Qed.

Lemma mergeStep_tableOf (parsed : list ScoreEntry) (ps : ScoreEntry) :
  mergeStep (tableOf parsed) ps = tableOf (parsed ++ [ps]).
Proof.
  unfold mergeStep, tableOf. rewrite List.filter_app. simpl List.filter.
  destruct (mapGet defaultMap (category ps)) as [idx|] eqn:E.
  - destruct (defaultMap_sound _ _ E) as (d & Hd & Hc).
    assert (Hin : inDefaultTable (category ps) = true).
    { apply existsb_exists. exists d. split.
      - apply list_elem_of_In. eapply list_elem_of_lookup_2, Hd.
      - apply bool_decide_eq_true. exact Hc. }
    rewrite Hin. cbn [negb]. rewrite app_nil_r.
    rewrite insert_app_l by (rewrite length_map; eapply lookup_lt_Some, Hd).
    f_equal.
    destruct ps as [c sc]. simpl in Hc. subst c.
    apply list_eq. intros i.
    destruct (decide (i = idx)) as [->|Hne].
    + rewrite list_lookup_insert_eq by (rewrite length_map; eapply lookup_lt_Some, Hd).
      rewrite list_lookup_fmap, Hd. simpl. rewrite lastWith_snoc. simpl.
      rewrite bool_decide_eq_true_2 by reflexivity. reflexivity.
    + rewrite list_lookup_insert_ne by congruence.
      rewrite !list_lookup_fmap.
      destruct (defaultTable !! i) as [d'|] eqn:Hd'; [|reflexivity]. simpl.
      rewrite lastWith_snoc. simpl.
      rewrite bool_decide_eq_false_2; [reflexivity|].
      intros Heq. apply Hne. eapply defaultTable_distinct; eauto.
  - rewrite (defaultMap_complete _ E). cbn [negb]. rewrite <- app_assoc. f_equal.
    apply map_ext_in. intros d Hd. rewrite lastWith_snoc.
    rewrite bool_decide_eq_false_2; [reflexivity|].
    intros Heq. apply defaultMap_complete in E.
    assert (Hin : inDefaultTable (category ps) = true); [|congruence].
    apply existsb_exists. exists d. split; [exact Hd|].
    apply bool_decide_eq_true. congruence.
Qed.

Lemma mergeEntries_tableOf (parsed : list ScoreEntry) :
  mergeEntries defaultMap defaultTable parsed = tableOf parsed.
Proof.
  rewrite mergeEntries_fold.
  induction parsed as [|ps parsed IH] using rev_ind; [reflexivity|].
  rewrite fold_left_app. simpl. rewrite IH. apply mergeStep_tableOf.
Qed.

Lemma scoresFor_tableOf (s : str) :
  scoresFor s = tableOf (omap parseScoreLine (ratedLines s)).
Proof.
  unfold scoresFor, ratedLines. destruct (String_match s ratingRegex) as [m|].
  - apply mergeEntries_tableOf.
  - reflexivity.
Qed.

(** What is in a table: entries of the default table and parsed entries,
    and of each category that was parsed the last entry parsed. *)
Lemma lastWith_In (c : categoryValue) (parsed : list ScoreEntry) (q : ScoreEntry) :
  lastWith c parsed = Some q -> In q parsed /\ category q = c.
Proof.
  unfold lastWith. intros H. apply last_Some in H as (l' & H).
  assert (Hin : In q (List.filter (fun p => bool_decide (category p = c)) parsed)).
  { rewrite H. apply in_or_app. right. left. reflexivity. }
  apply filter_In in Hin as [Hin Hc]. apply bool_decide_eq_true in Hc. auto.
Qed.

Lemma tableOf_In (parsed : list ScoreEntry) (e : ScoreEntry) :
  In e (tableOf parsed) -> In e defaultTable \/ In e parsed.
Proof.
  unfold tableOf. intros H. apply in_app_or in H as [H|H].
  - apply in_map_iff in H as (d & <- & Hd).
    destruct (lastWith (category d) parsed) as [q|] eqn:E; simpl; [|left; exact Hd].
    right. apply (lastWith_In _ _ _ E).
  - apply filter_In in H as [H _]. right. exact H.
Qed.

Lemma lastWith_found (parsed : list ScoreEntry) (p : ScoreEntry) :
  In p parsed -> exists q, lastWith (category p) parsed = Some q.
Proof.
  intros Hin. unfold lastWith.
  assert (Hf : In p (List.filter (fun x => bool_decide (category x = category p)) parsed)).
  { apply filter_In. split; [exact Hin|]. apply bool_decide_eq_true. reflexivity. }
  destruct (last (List.filter _ parsed)) as [q|] eqn:E; [exists q; reflexivity|].
  apply last_None in E. rewrite E in Hf. destruct Hf.
Qed.

Lemma tableOf_last (parsed : list ScoreEntry) (p : ScoreEntry) :
  In p parsed ->
  exists q, lastWith (category p) parsed = Some q /\ In q (tableOf parsed).
Proof.
  intros Hin. destruct (lastWith_found parsed p Hin) as [q Hq].
  exists q. split; [exact Hq|].
  destruct (lastWith_In _ _ _ Hq) as [Hqin Hqc].
  unfold tableOf. apply in_or_app.
  destruct (inDefaultTable (category p)) eqn:Hd.
  - left. apply existsb_exists in Hd as (d & Hd & Hc).
    apply bool_decide_eq_true in Hc.
    apply in_map_iff. exists d. split; [|exact Hd].
    rewrite Hc, Hq. reflexivity.
  - right. apply filter_In. split; [exact Hqin|]. rewrite Hqc, Hd. reflexivity.
Qed.

Lemma tableOf_nonempty (parsed : list ScoreEntry) : tableOf parsed <> [].
Proof. unfold tableOf. discriminate. Qed.

Lemma defaultTable_whole : Forall (fun o => wholeOrInfinite (score o)) defaultTable.
Proof. repeat constructor; simpl; lia. Qed.

(** A result's table is the one of the lines of the RATING block of the
    summary text, or of no line. *)
Lemma reportOf_scores (rawText : str) (v : Report) :
  reportOf Number_toString rawText = Result v ->
  exists lines,
    scoresOf v = tableOf (omap parseScoreLine lines) /\
    (lines = [] \/
     exists parsed s,
       tryParse rawText = Some parsed /\ summaryTextOf parsed = JString s /\
       lines = ratedLines s).
Proof.
  unfold reportOf. destruct (tryParse rawText) as [parsed|] eqn:Hp.
  2: { intros [= <-]. exists []. split; [reflexivity|left; reflexivity]. }
  destruct (summaryTextOf parsed) as [ |b|m e|s|els|ms] eqn:Hs; try discriminate.
  destruct (ToString Number_toString (detailTextOf parsed)) as [text|]; [|discriminate].
  assert (Hok : exists lines,
            scoresFor s = tableOf (omap parseScoreLine lines) /\
            (lines = [] \/
             exists parsed' s',
               Some parsed = Some parsed' /\ summaryTextOf parsed' = JString s' /\
               lines = ratedLines s')).
  { exists (ratedLines s). split; [apply scoresFor_tableOf|].
    right. exists parsed, s. auto. }
  destruct (detailTextOf parsed) as [ |b|m e|d|els|ms]; try discriminate.
  - intros [= <-]. exact Hok.
  - destruct (_ && _); [discriminate|].
    intros [= <-]. exact Hok.
Qed.

(** What a returned result reads as. *)
Lemma Parser_returned (rawText : str) (h h' : heap) (r : ParsedResult) :
  intact h ->
  fst (Parser' rawText h) = (Returned r, h') ->
  exists v,
    reportOf Number_toString rawText = Result v /\
    read h' r = Some v /\
    scores r = (length h + length defaultTable)%nat.
Proof.
  intros Hi Hrun.
  destruct (Parser_reportOf Number_toString rawText h Hi) as (Hobs & _ & _ & Hloc).
  rewrite Hrun in Hobs, Hloc. simpl in Hobs.
  destruct (read h' r) as [v|]; [|discriminate].
  exists v. simpl in Hobs. injection Hobs as <-.
  split; [reflexivity|]. split; [reflexivity|]. apply Hloc. reflexivity.
Qed.

Lemma read_fields (h : heap) (r : ParsedResult) (v : Report) :
  read h r = Some v ->
  summaryOf v = summary r /\ feedbackOf v = feedback r /\
  suggestionsOf v = suggestions r /\ segmentsOf v = segments r /\
  entries h (scores r) = Some (scoresOf v).
Proof.
  unfold read. destruct (entries h (scores r)) as [table|]; [|discriminate].
  intros [= <-]. simpl. auto.
Qed.

(** C1 (as amended). Whatever the input, the score table of a result is
    not empty. It is made of the lines [lines] of the RATING block of the
    summary text (no line when there is no such block): an entry is a
    placeholder of the built-in table, or was read from one of these
    lines, and then its score is the number that [Number] makes of the
    digits of the line; every score is an integer that is not negative, or
    [Infinity], with no upper bound of 100; and for each category that a
    line names, the table has the entry of the last line that names it. *)
Theorem scores_are_placeholders_or_numbers_read (rawText : str) (h h' : heap)
    (r : ParsedResult)
    (Hintact : intact h)
    (Hrun : fst (Parser' rawText h) = (Returned r, h')) :
  exists table lines,
    entries h' (scores r) = Some table /\
    table <> [] /\
    (lines = [] \/
     exists parsed s,
       tryParse rawText = Some parsed /\ summaryTextOf parsed = JString s /\
       lines = ratedLines s) /\
    table = tableOf (omap parseScoreLine lines) /\
    (forall e, In e table ->
       In e defaultTable \/
       exists line m,
         In line lines /\ String_match line scoreLineRegex = Some m /\
         score e = toNumber (at_ m 2)) /\
    (forall e, In e table -> wholeOrInfinite (score e)) /\
    (forall line p, In line lines -> parseScoreLine line = Some p ->
       exists q, lastWith (category p) (omap parseScoreLine lines) = Some q /\ In q table).
Proof.
  destruct (Parser_returned rawText h h' r Hintact Hrun) as (v & Hv & Hread & _).
  apply read_fields in Hread as (_ & _ & _ & _ & He).
  destruct (reportOf_scores rawText v Hv) as (lines & Htable & Hlines).
  exists (scoresOf v), lines. rewrite Htable.
  assert (Hfrom : forall e, In e (tableOf (omap parseScoreLine lines)) ->
            In e defaultTable \/
            exists line m,
              In line lines /\ String_match line scoreLineRegex = Some m /\
              score e = toNumber (at_ m 2)).
  { intros e Hin. apply tableOf_In in Hin as [Hin|Hin]; [left; exact Hin|right].
    apply parsed_read in Hin as (line & Hline & Hparse).
    apply parseScoreLine_read in Hparse as (m & Hm & Hscore & _).
    exists line, m. auto. }
  split; [rewrite <- Htable; exact He|].
  split; [apply tableOf_nonempty|].
  split; [exact Hlines|].
  split; [reflexivity|].
  split; [exact Hfrom|].
  split.
  - intros e Hin. destruct (Hfrom e Hin) as [Hd|(line & m & _ & _ & ->)].
    + exact (proj1 (List.Forall_forall _ _) defaultTable_whole e Hd).
    + apply roundToDouble_whole, digitsValue_nonneg.
  - intros line p Hline Hp. apply tableOf_last.
    clear - Hline Hp. induction lines as [|l lines IH]; [destruct Hline|].
    simpl. destruct Hline as [->|Hline].
    + rewrite Hp. left. reflexivity.
    + destruct (parseScoreLine l); [right|]; apply IH, Hline.
Qed.

(** *** Summary, feedback and suggestions *)

Lemma substring_nonempty (s : str) (n : nat) :
  s <> [] -> substring s 0 (S n) <> [].
Proof. destruct s; [congruence|]. intros _. discriminate. Qed.

(** C2 (as amended). When the summary text is a string that is not blank
    and holds none of the four headers, and the detail text is a string
    (the empty one when the input has none), [summary] falls back
    to the text before the first "##", trimmed, or, if that is empty, to
    the first 500 characters of the text, and is not empty; [feedback] and
    [suggestions] stay [null], and the scores are the default ones. *)
Theorem headerless_summary_falls_back (rawText : str) (h : heap) (parsed : json) (s d : str)
    (Hintact : intact h)
    (Hparse : tryParse rawText = Some parsed)
    (Hsummary : summaryTextOf parsed = JString s)
    (Hdetail : detailTextOf parsed = JString d)
    (Hnonblank : trim s <> [])
    (Hoverview : String_match s overviewRegex = None)
    (Hanalysis : String_match s analysisRegex = None)
    (Hrecommendations : String_match s recommendationsRegex = None)
    (Hrating : String_match s ratingRegex = None) :
  exists r h' fallback,
    fst (Parser' rawText h) = (Returned r, h') /\
    summary r = Some fallback /\
    fallback = orString (trim (hd [] (split s (u "##")))) (substring s 0 500) /\
    fallback <> [] /\
    feedback r = None /\
    suggestions r = None /\
    entries h' (scores r) = Some defaultTable.
Proof.
  assert (Hs : extractSummary s =
               Some (orString (trim (hd [] (split s (u "##")))) (substring s 0 500))).
  { unfold extractSummary. rewrite Hoverview.
    destruct (trim s); [congruence|reflexivity]. }
  assert (Hne : orString (trim (hd [] (split s (u "##")))) (substring s 0 500) <> []).
  { unfold orString. destruct (trim (hd [] (split s (u "##")))) eqn:E; simpl.
    - apply substring_nonempty. intros ->. apply Hnonblank. reflexivity.
    - discriminate. }
  assert (Hf : extractFeedback s (extractSummary s) = None).
  { unfold extractFeedback. rewrite Hanalysis, Hs. simpl.
    destruct (orString _ _); [congruence|]. simpl. rewrite andb_false_r. reflexivity. }
  destruct (fst (Parser' rawText h)) as [o h'] eqn:Hrun.
  destruct (Parser_reportOf Number_toString rawText h Hintact) as (Hobs & _ & _ & _).
  rewrite Hrun in Hobs.
  unfold reportOf in Hobs. rewrite Hparse, Hsummary, Hdetail in Hobs. simpl in Hobs.
  destruct o as [r|]; [|discriminate].
  simpl in Hobs. destruct (read h' r) as [v|] eqn:Hread; [|discriminate].
  injection Hobs as ->.
  apply read_fields in Hread as (H1 & H2 & H3 & _ & H5). simpl in *.
  exists r, h', (orString (trim (hd [] (split s (u "##")))) (substring s 0 500)).
  split; [reflexivity|].
  split; [rewrite <- H1; exact Hs|].
  split; [reflexivity|].
  split; [exact Hne|].
  split; [rewrite <- H2; exact Hf|].
  split.
  - rewrite <- H3. unfold extractSuggestions. rewrite Hrecommendations. reflexivity.
  - rewrite H5. unfold scoresFor. rewrite Hrating. reflexivity.
Qed.

(** *** Determinism *)

(** C9 (as amended). On a store whose module table is intact, what a
    call is seen to do and what it writes to the console depend on the text
    alone: a second call on the store the first one left gives the same
    report and writes the same lines, as does a call on any other such
    store, and the call leaves the table intact. Every call writes to the
    console, the length of its input first. *)
Theorem parser_is_deterministic (rawText : str) (h : heap)
    (Hintact : intact h) :
  let first := Parser' rawText h in
  let second := Parser' rawText (snd (fst first)) in
  observe (fst second) = observe (fst first) /\
  snd second = snd first /\
  (exists report, observe (fst first) = Some report) /\
  intact (snd (fst first)) /\
  (forall h2, intact h2 ->
     observe (fst (Parser' rawText h2)) = observe (fst first) /\
     snd (Parser' rawText h2) = snd first) /\
  (exists rest, snd first = inputLine rawText :: rest).
Proof.
  intros first second.
  destruct (Parser_reportOf Number_toString rawText h Hintact) as (Hobs & Hi1 & _ & _).
  pose proof (Parser_console Number_toString rawText h Hintact) as Hsaid.
  fold first in Hobs, Hi1, Hsaid.
  destruct (Parser_reportOf Number_toString rawText (snd (fst first)) Hi1) as (Hobs2 & _).
  pose proof (Parser_console Number_toString rawText (snd (fst first)) Hi1) as Hsaid2.
  fold second in Hobs2, Hsaid2.
  split; [congruence|]. split; [congruence|]. split; [eauto|]. split; [exact Hi1|].
  split.
  - intros h2 Hi2.
    destruct (Parser_reportOf Number_toString rawText h2 Hi2) as (Hobs3 & _).
    pose proof (Parser_console Number_toString rawText h2 Hi2) as Hsaid3.
    split; congruence.
  - rewrite Hsaid. unfold consoleFor.
    destruct (tryParse rawText) as [parsed|]; [|eexists; reflexivity].
    destruct (summaryTextOf parsed); try (eexists; reflexivity).
    destruct (ToString Number_toString (detailTextOf parsed)); [|eexists; reflexivity].
    destruct (detailTextOf parsed); try (eexists; reflexivity).
    destruct (_ && _); eexists; reflexivity.
Qed.

(** No call ever changes the table of the module. *)
Lemma reachable_intact (h : heap) : reachable h -> intact h.
Proof.
  induction 1 as [|nts rawText h _ IH]; [reflexivity|].
  apply (Parser_reportOf nts rawText h IH).
Qed.

(** *** Invalid JSON *)

(** C10. A text that is not valid JSON makes [Parser] return, without
    throwing, the result with [summary], [feedback] and [suggestions]
    [null], no segment, and a new array of new objects that reads as the
    default table, the table of the module being left as it was. The one
    argument is a JSON text: when it is valid and its members hold the
    summary text [s] and the detail text [d], the result is made of the
    blocks extracted from [s] and [d]. *)
Theorem invalid_json_gives_default (rawText : str) (h : heap)
    (Hintact : intact h) :
  (JSON_parse rawText = None ->
   exists r h' copies,
     fst (Parser' rawText h) = (Returned r, h') /\
     summary r = None /\ feedback r = None /\ suggestions r = None /\
     segments r = [] /\
     entries h' (scores r) = Some defaultTable /\
     array h' (scores r) = Some copies /\
     (length h <= scores r)%nat /\ Forall (fun l => (length h <= l)%nat) copies /\
     (forall l, (l < length h)%nat -> h' !! l = h !! l)) /\
  (forall parsed s d,
     JSON_parse rawText = Some parsed ->
     summaryTextOf parsed = JString s ->
     detailTextOf parsed = JString d ->
     observe (fst (Parser' rawText h)) =
       Some (Result {| summaryOf := extractSummary s;
                       feedbackOf := extractFeedback s (extractSummary s);
                       suggestionsOf := extractSuggestions s;
                       segmentsOf := found (extractSegments d);
                       scoresOf := scoresFor s |})).
Proof.
  split.
  - intros Hinvalid.
    unfold Parser, tryParse. rewrite Hinvalid, (copyScores_spec h Hintact).
    eexists _, _, (seq (length h) (length defaultTable)).
    split; [reflexivity|]. cbn [summary feedback suggestions segments scores].
    repeat (split; [reflexivity|]).
    split; [apply entries_copy|].
    split; [apply array_copy|].
    split; [lia|]. split.
    + apply Forall_forall. intros l Hl. apply elem_of_seq in Hl. lia.
    + intros l Hl. apply lookup_app_l. exact Hl.
  - intros parsed s d Hparse Hs Hd.
    destruct (Parser_reportOf Number_toString rawText h Hintact) as (Hobs & _).
    rewrite Hobs. unfold reportOf, tryParse. rewrite Hparse.
    destruct parsed; try (rewrite Hs, Hd; reflexivity).
    (* the text "null": both texts are empty, and so are the blocks *)
    injection Hs as <-. injection Hd as <-. vm_compute. reflexivity.
Qed.

End ParserFacts.

(** *** Segments *)

Section SegmentFacts.
Import Js RegExp Json Report Samples.

Lemma whileExec_fold (R : RegExp) (text : str) body (fuel : nat) :
  forall lastIndex state,
    whileExec R text body fuel lastIndex state =
    fold_left (fun st m => body m st) (execAll R text fuel lastIndex) state.
Proof.
  induction fuel as [|fuel IH]; intros lastIndex state; simpl; [reflexivity|].
  destruct (exec R text lastIndex) as [m|]; [|reflexivity].
  simpl. apply IH.
Qed.

(** The loops over [exec] end because [exec] returns [null]: with a
    pattern that consumes, fuel beyond the length of the text is never
    used. *)
Lemma execAll_fuel (R : RegExp) (text : str) :
  consumes (source R) = true ->
  forall fuel lastIndex,
    (length text - lastIndex < fuel)%nat ->
    execAll R text (S fuel) lastIndex = execAll R text fuel lastIndex.
Proof.
  intros Hr. induction fuel as [|fuel IH]; intros lastIndex Hfuel; [lia|].
  change (execAll R text (S (S fuel)) lastIndex)
    with (match exec R text lastIndex with
          | None => []
          | Some m => matched m :: execAll R text (S fuel) (stop m)
          end).
  change (execAll R text (S fuel) lastIndex)
    with (match exec R text lastIndex with
          | None => []
          | Some m => matched m :: execAll R text fuel (stop m)
          end).
  destruct (exec R text lastIndex) as [m|] eqn:E; [|reflexivity].
  f_equal. apply exec_advances in E; [|exact Hr].
  destruct fuel as [|fuel'].
  - simpl. rewrite exec_past_end by lia. reflexivity.
  - apply IH. lia.
Qed.

Lemma execAll_enough (R : RegExp) (text : str) (extra : nat) :
  consumes (source R) = true ->
  execAll R text (S (length text) + extra) 0 = execAll R text (S (length text)) 0.
Proof.
  intros Hr. induction extra as [|extra IH]; [rewrite Nat.add_0_r; reflexivity|].
  rewrite <- IH, Nat.add_succ_r. apply execAll_fuel; [exact Hr|lia].
Qed.

(** So it is for the four loops of the parser. *)
Lemma segment_loops_end (text : str) (extra : nat) body state :
  Forall
    (fun R =>
       whileExec R text body (S (length text) + extra) 0 state =
       whileExec R text body (S (length text)) 0 state)
    [segRegex1; segRegex2; segRegex3; plainTextRegex].
Proof.
  repeat constructor; rewrite !whileExec_fold, execAll_enough; reflexivity.
Qed.

(** The first three loops push a segment for every match. *)
Lemma fold_pushSegment (name : string) (ms : list (list (option str))) :
  forall state,
    fold_left (fun st m => pushSegment name m st) ms state =
    {| found := found state ++ map segmentOf ms;
       segmentCount := segmentCount state + length ms;
       usedRegex := match ms with [] => usedRegex state | _ => name end |}.
Proof.
  induction ms as [|m ms IH]; intros state; simpl.
  - rewrite app_nil_r, Nat.add_0_r. destruct state; reflexivity.
  - rewrite IH. unfold pushSegment, segmentOf. simpl. f_equal.
    + rewrite <- app_assoc. reflexivity.
    + lia.
    + destruct ms; reflexivity.
Qed.

(** The plain-text loop pushes one for every match whose content has ten
    characters or more, and passes over the others. *)
Lemma fold_pushPlainSegment (ms : list (list (option str))) :
  forall state,
    fold_left (fun st m => pushPlainSegment m st) ms state =
    {| found := found state ++ map segmentOf (List.filter longEnough ms);
       segmentCount := segmentCount state + length (List.filter longEnough ms);
       usedRegex := match List.filter longEnough ms with
                    | [] => usedRegex state
                    | _ => "plainText"
                    end |}.
Proof.
  induction ms as [|m ms IH]; intros state; simpl.
  - rewrite app_nil_r, Nat.add_0_r. destruct state; reflexivity.
  - assert (Hc : (length (trim (at_ m 2)) <? 10)%nat = negb (longEnough m)).
    { unfold longEnough. rewrite negb_involutive. reflexivity. }
    rewrite IH. unfold pushPlainSegment. rewrite Hc.
    destruct (longEnough m); simpl; [|reflexivity].
    unfold segmentOf. f_equal.
    + rewrite <- app_assoc. reflexivity.
    + lia.
    + destruct (List.filter longEnough ms); reflexivity.
Qed.

(** C6 (as amended). The four patterns are tried on the detail text in
    the order [segRegex1] (open and close tag of the same title up to
    case), [segRegex2] (close tag of any title), [segRegex3] (close tag
    without a title) and [plainTextRegex] ("Segment: TITLE" lines); the
    segments are those of the first pattern that yields one, no later
    pattern adds any, and the plain-text pattern only yields the matches
    whose trimmed content has at least 10 characters. The first pattern
    takes tags of one title, and of titles that differ in case only, also
    outside ASCII; the second a close tag of another title; the third a
    close tag without a title; the fourth plain text. *)
Theorem segment_strategies_in_order (detailText : str) :
  let all := fun R => execAll R detailText (S (length detailText)) 0 in
  let tagged := fun R => map segmentOf (all R) in
  let plain := map segmentOf (List.filter longEnough (all plainTextRegex)) in
  let strategy := fun text => (usedRegex (extractSegments text), found (extractSegments text)) in
  found (extractSegments detailText) =
    match tagged segRegex1, tagged segRegex2, tagged segRegex3 with
    | _ :: _, _, _ => tagged segRegex1
    | [], _ :: _, _ => tagged segRegex2
    | [], [], _ :: _ => tagged segRegex3
    | [], [], [] => plain
    end /\
  usedRegex (extractSegments detailText) =
    match tagged segRegex1, tagged segRegex2, tagged segRegex3, plain with
    | _ :: _, _, _, _ => "regex1"
    | [], _ :: _, _, _ => "regex2"
    | [], [], _ :: _, _ => "regex3"
    | [], [], [], _ :: _ => "plainText"
    | [], [], [], [] => ""
    end /\
  segmentCount (extractSegments detailText) = length (found (extractSegments detailText)) /\
  Forall (fun m => (10 <= length (trim (at_ m 2)))%nat)
         (List.filter longEnough (all plainTextRegex)) /\
  strategy matchedTags
    = ("regex1", [{| title := u "Opening"; content := u "**User:** Hi" |}]) /\
  strategy caseTitles
    = ("regex1", [{| title := u "Opening"; content := u "**User:** Hi" |}]) /\
  strategy accentedTitles
    = ("regex1", [{| title := [233%N]; content := u "a</segment:X><segment:b>c" |}]) /\
  strategy otherTitle
    = ("regex2", [{| title := u "Opening"; content := u "**User:** Hi" |}]) /\
  strategy untitledClose
    = ("regex3", [{| title := u "Opening"; content := u "**User:** Hi" |}]) /\
  strategy plainSegments
    = ("plainText", [ {| title := u "One"; content := u "**User:** hello there" |};
                      {| title := u "Three"; content := u "**Agent:** long enough" |} ]).
Proof.
  intros all tagged plain strategy.
  assert (Hlong : Forall (fun m => (10 <= length (trim (at_ m 2)))%nat)
                         (List.filter longEnough (all plainTextRegex))).
  { apply Forall_forall. intros m Hm. apply list_elem_of_In, filter_In in Hm as [_ Hm].
    unfold longEnough in Hm. apply negb_true_iff, Nat.ltb_ge in Hm. exact Hm. }
  assert (Hsamples :
    strategy matchedTags
      = ("regex1", [{| title := u "Opening"; content := u "**User:** Hi" |}]) /\
    strategy caseTitles
      = ("regex1", [{| title := u "Opening"; content := u "**User:** Hi" |}]) /\
    strategy accentedTitles
      = ("regex1", [{| title := [233%N]; content := u "a</segment:X><segment:b>c" |}]) /\
    strategy otherTitle
      = ("regex2", [{| title := u "Opening"; content := u "**User:** Hi" |}]) /\
    strategy untitledClose
      = ("regex3", [{| title := u "Opening"; content := u "**User:** Hi" |}]) /\
    strategy plainSegments
      = ("plainText", [ {| title := u "One"; content := u "**User:** hello there" |};
                        {| title := u "Three"; content := u "**Agent:** long enough" |} ])).
  { subst strategy. vm_compute. repeat split. }
  clearbody strategy.
  unfold extractSegments, unlessFound, tryRegex, tryPlainText.
  rewrite !whileExec_fold, !fold_pushSegment, !fold_pushPlainSegment.
  subst tagged plain. cbv beta.
  fold (all segRegex1) (all segRegex2) (all segRegex3) (all plainTextRegex) in *.
  destruct (all segRegex1) as [|m1 ms1]; simpl.
  2: { repeat split; try apply Hsamples; [rewrite length_map; reflexivity|exact Hlong]. }
  destruct (all segRegex2) as [|m2 ms2]; simpl.
  2: { repeat split; try apply Hsamples; [rewrite length_map; reflexivity|exact Hlong]. }
  destruct (all segRegex3) as [|m3 ms3]; simpl.
  2: { repeat split; try apply Hsamples; [rewrite length_map; reflexivity|exact Hlong]. }
  destruct (List.filter longEnough (all plainTextRegex)) as [|m4 ms4]; simpl.
  - repeat split; try apply Hsamples. constructor.
  - repeat split; try apply Hsamples; [rewrite length_map; reflexivity|exact Hlong].
Qed.

End SegmentFacts.
(** ** Examples *)

Section Examples.
Import Js RegExp Json Report Extractor Samples.

Local Abbreviation segmentsIn := (fun text => (found (extractSegments (u text)), usedRegex (extractSegments (u text)))).

(** Open and close tag of the same title, up to case: the first pattern. *)
Example matched_tags :
  segmentsIn "<segment:Opening>user: Hi</segment:opening> <segment:B>y</segment>"
  = ([{| title := u "Opening"; content := u "**User:** Hi" |}], "regex1").
Proof. vm_compute. reflexivity. Qed.

(** A close tag of another title: the second pattern. *)
Example lenient_close_tag :
  segmentsIn "<segment:Opening>user: Hi</segment:Closing>"
  = ([{| title := u "Opening"; content := u "**User:** Hi" |}], "regex2").
Proof. vm_compute. reflexivity. Qed.

(** A close tag without a title: the third pattern. *)
Example untitled_close_tag :
  segmentsIn "<segment:Opening>user: Hi</segment>"
  = ([{| title := u "Opening"; content := u "**User:** Hi" |}], "regex3").
Proof. vm_compute. reflexivity. Qed.

(** Plain text: the second segment has 5 characters and is passed over. *)
Example plain_text_segments :
  found (extractSegments
           (u "Segment: One" ++ newline ++ u "user: hello there" ++ newline
            ++ u "Segment: Two" ++ newline ++ u "short" ++ newline
            ++ u "Segment: Three" ++ newline ++ u "agent: long enough"))
  = [ {| title := u "One"; content := u "**User:** hello there" |};
      {| title := u "Three"; content := u "**Agent:** long enough" |} ].
Proof. vm_compute. reflexivity. Qed.

(** The end-to-end scenario of the specification: a summary, one segment
    titled "Opening", and Empathy at 70. *)
Example well_formed_report :
  exists report,
    observe (fst (Parser noNumbers wellFormed moduleHeap)) = Some (Result report) /\
    summaryOf report = Some (u "A short call.") /\
    map title (segmentsOf report) = [u "Opening"] /\
    scoresOf report !! 0%nat = Some (entry "Empathy" 70).
Proof. eexists. vm_compute. repeat split. Qed.

(** An overview header with nothing under it: [summary] is the empty
    string and the fallback of [feedback] runs. *)
Example empty_overview_feeds_feedback :
  exists report,
    observe (fst (Parser noNumbers (quoted "{'summaryAnalysis':'## Conversation Overview'}") moduleHeap))
      = Some (Result report) /\
    summaryOf report = Some [] /\
    feedbackOf report = Some (u "## Conversation Overview").
Proof. eexists. vm_compute. repeat split. Qed.

(** A summary that is not a string makes the call throw; the text "null"
    gives the default result. *)
Example non_string_summary_throws :
  observe (fst (Parser noNumbers (quoted "{'summaryAnalysis': 5}") moduleHeap)) = Some Report.TypeError.
Proof. vm_compute. reflexivity. Qed.

Example null_text_gives_default :
  reportOf noNumbers (u "null") = reportOf noNumbers notJson.
Proof. vm_compute. reflexivity. Qed.

(** A category that names a member of [Object.prototype]. *)
Example inherited_category :
  parseScoreLine (u "- constructor: 5") = Some {| category := Inherited (u "constructor"); score := Finite 5 |}.
Proof. vm_compute. reflexivity. Qed.

(** The extractor keeps the first position of a key and its last value. *)
Example extractor_keys :
  extractScoresFromSummary
    (u "## Rating" ++ newline ++ u "- Flexible: 41" ++ newline ++ u "* Empathy: 7"
     ++ newline ++ u "- Active  listening skills: 12" ++ newline ++ u "- Open_Mind: 40"
     ++ newline ++ u "Clarity: 5")
  = Some [("flexibility", Finite 40); ("empathy", Finite 7); ("activeListening", Finite 12)].
Proof. vm_compute. reflexivity. Qed.

(** A score that no double holds is the nearest double, and 309 digits
    can be too many. *)
Example scores_are_doubles :
  toNumber (u "9007199254740993") = Finite 9007199254740992 /\
  toNumber (u "150") = Finite 150 /\
  toNumber (u "2" ++ repeat 48%N 308) = Infinity.
Proof. vm_compute. repeat split. Qed.

(** What the parser writes for a text that is not JSON. *)
Example console_of_invalid_text :
  snd (Parser noNumbers notJson moduleHeap)
  = [ (log, [LText (u "[Parser] Input length:"); LCount 18]);
      (error, [LText (u "[Parser] Invalid JSON string:"); LError "SyntaxError"]) ].
Proof. vm_compute. reflexivity. Qed.

Example JSON_parse_samples :
  JSON_parse (quoted "{'a': [1, -2.50e-3, true, null], 'a': 'xA\n'}")
  = Some (JObject [ (u "a", JArray [JNumber 1 0; JNumber (-250) (-5); JBool true; JNull]);
                    (u "a", JString (u "xA" ++ newline)) ]) /\
  JSON_parse (quoted "[1,]") = None /\
  JSON_parse (quoted "01") = None /\
  JSON_parse (quoted "{'a':1} x") = None.
Proof. vm_compute. repeat split. Qed.

End Examples.

(** ** The score extractor *)

Section ExtractorFacts.
Import Js RegExp Extractor Samples.

(** C7 (counterexample). The mapping the extractor yields for the text of
    the specification has no property [Flexibility]. *)
Lemma extractor_has_no_Flexibility_key :
  ~ (exists scores,
       extractScoresFromSummary openMindedness = Some scores /\
       property scores "Flexibility" = Some (Finite 40)).
Proof.
  intros (scores & Hrun & Hkey).
  vm_compute in Hrun. injection Hrun as <-. discriminate Hkey.
Qed.

(** C7 (as amended). For "## RATING\n- Open-Mindedness: 40" the extractor
    yields the mapping with the single property [flexibility], of value 40:
    the token of a line is trimmed, lower-cased and stripped of blanks,
    hyphens and underscores, and a token that then contains
    "openmindedness" sets the property [flexibility]. *)
Theorem open_mindedness_sets_flexibility :
  extractScoresFromSummary openMindedness = Some [("flexibility", Finite 40)] /\
  normalise (u "Open-Mindedness") = u "openmindedness" /\
  (forall scores line m,
     String_match line lineRegex = Some m ->
     scanLine scores line =
       assignCategory scores (normalise (at_ m 1)) (toNumber (at_ m 2))) /\
  (forall scores score,
     assignCategory scores (u "openmindedness") score = assign scores "flexibility" score).
Proof.
  split; [vm_compute; reflexivity|].
  split; [vm_compute; reflexivity|].
  split.
  - intros scores line m Hm. unfold scanLine. rewrite Hm. reflexivity.
  - intros scores score. reflexivity.
Qed.

End ExtractorFacts.

(** ** The retry options of the stages *)

Section StageFacts.
Import Retry Stages.

(** C8 (counterexample). The backoff ceiling of the detail stage is not
    above that of the two other stages. *)
Lemma detail_ceiling_is_not_larger :
  ~ (ceilingOf analyzeDetails_options > ceilingOf analyzeTranscript_options /\
     ceilingOf analyzeDetails_options > ceilingOf generateSummary_options /\
     retriesOf analyzeDetails_options = retriesOf analyzeTranscript_options /\
     firstDelayOf analyzeDetails_options = firstDelayOf analyzeTranscript_options).
Proof. intros [H _]. vm_compute in H. discriminate H. Qed.

(** C8 (as amended). The three stages call the completion service under
    one and the same retry policy: 2 retries, a first delay of 500 ms and a
    ceiling of 5000 ms, with the default predicate. *)
Theorem stages_share_one_retry_policy :
  analyzeDetails_options = analyzeTranscript_options /\
  analyzeDetails_options = generateSummary_options /\
  retriesOf analyzeDetails_options = 2 /\
  firstDelayOf analyzeDetails_options = 500 /\
  ceilingOf analyzeDetails_options = 5000 /\
  verdictOf analyzeDetails_options = defaultRetryable.
Proof. repeat split. Qed.

End StageFacts.

(** ** The properties at sample inputs *)

Section Instances.
Import Js RegExp Json Retry Report Samples.

Lemma retry_exhausts_budget_at_two :
  exists trace,
    retryWithBackoff alwaysTimeout twoRetries 0%nat
      = (Rejected timeoutError, 3%nat, trace) /\
    invocations trace = 3%nat.
Proof.
  destruct (retry_exhausts_budget alwaysTimeout twoRetries 2 0%nat) as (e & trace & He & Hrun & Hn).
  - reflexivity.
  - intros j _. exists timeoutError. split; reflexivity.
  - exists trace. injection He as <-. split; [exact Hrun|exact Hn].
Defined.

(** C4 (counterexample). With a budget of -1 the operation that rejects
    with a non-retryable error is not called at all, and the wrapper
    rejects with [undefined]; and on an error whose message is a number the
    default predicate neither holds nor is false: it throws, and the
    wrapper rejects with that TypeError. *)
Lemma short_circuit_fails_at_negative_budget :
  defaultRetryable badRequest = Says false /\
  retryWithBackoff alwaysBadRequest negativeBudget 0%nat = (Rejected Undefined, 0%nat, []) /\
  invocations (snd (retryWithBackoff alwaysBadRequest negativeBudget 0%nat)) <> 1%nat /\
  defaultRetryable numericMessage = Throws /\
  retryWithBackoff alwaysNumericMessage noOptions 0%nat
    = (Rejected Retry.TypeError, 1%nat, [Invoke]).
Proof. vm_compute. repeat split. discriminate. Qed.

Lemma non_retryable_short_circuit_at_bad_request :
  retryWithBackoff alwaysBadRequest noOptions 0%nat = (Rejected badRequest, 1%nat, [Invoke]) /\
  verdictOf noOptions timeoutError = Says true /\
  verdictOf noOptions badRequest = Says false.
Proof.
  destruct (non_retryable_short_circuit alwaysBadRequest noOptions 0%nat 1%nat badRequest)
    as (Hrun & _ & Hdefault).
  - vm_compute. discriminate.
  - reflexivity.
  - split; [apply Hrun; reflexivity|].
    rewrite !(Hdefault eq_refl). split; reflexivity.
Defined.

Lemma backoff_delay_exact_at_second_retry :
  sleeps (snd (retryWithBackoff alwaysTimeout twoRetries 0%nat)) !! 1%nat = Some 800 /\
  sleeps (snd (retryWithBackoff alwaysTimeout twoRetries 0%nat)) !! 0%nat = Some 500.
Proof.
  split.
  - destruct (backoff_delay_exact alwaysTimeout twoRetries 1 0%nat) as (b & a & _ & _ & H).
    + reflexivity.
    + intros j _. exists timeoutError. split; reflexivity.
    + exact H.
  - reflexivity.
Defined.

Lemma moduleHeap_intact : intact moduleHeap.
Proof. reflexivity. Defined.

(** C1 (counterexample). A RATING block with "- Empathy: 150" gives a
    table with a score above 100 (and without Persuasion, Objection
    Handling or Closing Ability). *)
Lemma scores_incomplete_at_overRated :
  exists report,
    observe (fst (Parser noNumbers overRated moduleHeap)) = Some (Result report) /\
    scoresOf report =
      [ entry "Empathy" 150; entry "Clarity" 90; entry "Flexibility" 80;
        entry "Assertiveness" 75; entry "Active Listening" 88;
        entry "Conflict Management" 99 ] /\
    scoresComplete (scoresOf report) = false /\
    (forall e, In e (scoresOf report) -> category e = Name (u "Empathy") ->
               upTo100 (score e) = false).
Proof.
  eexists. split; [vm_compute; reflexivity|]. split; [reflexivity|]. split; [reflexivity|].
  intros e He Hc. simpl in He.
  repeat (destruct He as [<-|He]; [try reflexivity; discriminate Hc|]). destruct He.
Qed.

Lemma scores_are_placeholders_or_numbers_read_at_overRated :
  exists table,
    entries (snd (fst (Parser noNumbers overRated moduleHeap)))
            (length moduleHeap + length defaultTable) = Some table /\
    table <> [] /\
    (forall e, In e table -> wholeOrInfinite (score e)).
Proof.
  destruct (fst (Parser noNumbers overRated moduleHeap)) as [o h'] eqn:Hrun.
  assert (Ho : exists r, o = Returned r /\ scores r = (length moduleHeap + length defaultTable)%nat).
  { vm_compute in Hrun. injection Hrun as <- _. eexists. split; reflexivity. }
  destruct Ho as (r & -> & Hr).
  rewrite <- Hr.
  destruct (scores_are_placeholders_or_numbers_read noNumbers overRated moduleHeap h' r
              moduleHeap_intact Hrun)
    as (table & lines & He & Hne & _ & _ & _ & Hwhole & _).
  exists table. split; [exact He|]. split; [exact Hne|exact Hwhole].
Defined.

(** C2 (counterexample). A summary text without any header: [summary]
    falls back to the text, [feedback] and [suggestions] stay [null]. *)
Lemma feedback_and_suggestions_stay_null :
  exists report,
    observe (fst (Parser noNumbers headerless moduleHeap)) = Some (Result report) /\
    String_match (u "The call went well.") overviewRegex = None /\
    String_match (u "The call went well.") analysisRegex = None /\
    String_match (u "The call went well.") recommendationsRegex = None /\
    String_match (u "The call went well.") ratingRegex = None /\
    summaryOf report = Some (u "The call went well.") /\
    feedbackOf report = None /\
    suggestionsOf report = None.
Proof. eexists. vm_compute. repeat split. Qed.

Lemma headerless_summary_falls_back_at_sample :
  exists r h',
    fst (Parser noNumbers headerless moduleHeap) = (Returned r, h') /\
    summary r = Some (u "The call went well.") /\
    feedback r = None /\
    suggestions r = None /\
    entries h' (scores r) = Some defaultTable.
Proof.
  destruct (headerless_summary_falls_back noNumbers headerless moduleHeap
              (JObject [(u "summaryAnalysis", JString (u "The call went well."));
                        (u "detailedFeedback", JString [])])
              (u "The call went well.") [])
    as (r & h' & fallback & Hrun & Hs & Hf & _ & Hfeedback & Hsuggestions & Hscores).
  - reflexivity.
  - vm_compute. reflexivity.
  - reflexivity.
  - reflexivity.
  - vm_compute. discriminate.
  - vm_compute. reflexivity.
  - vm_compute. reflexivity.
  - vm_compute. reflexivity.
  - vm_compute. reflexivity.
  - exists r, h'. split; [exact Hrun|].
    split; [rewrite Hs, Hf; vm_compute; reflexivity|].
    split; [exact Hfeedback|]. split; [exact Hsuggestions|exact Hscores].
Defined.

(** C9 (counterexample). A call is not free of I/O: on a text that is
    not JSON it writes two lines to the console. *)
Lemma parser_writes_to_console :
  snd (Parser noNumbers notJson moduleHeap)
    = [inputLine notJson; invalidLine notJson] /\
  snd (Parser noNumbers notJson moduleHeap) <> [].
Proof. split; [vm_compute; reflexivity|vm_compute; discriminate]. Qed.

Lemma parser_is_deterministic_at_wellFormed :
  let first := Parser noNumbers wellFormed moduleHeap in
  let second := Parser noNumbers wellFormed (snd (fst first)) in
  observe (fst second) = observe (fst first) /\
  snd second = snd first /\
  (exists report, observe (fst first) = Some report) /\
  intact (snd (fst first)).
Proof.
  destruct (parser_is_deterministic noNumbers wellFormed moduleHeap) as (H1 & H2 & H3 & H4 & _).
  - reflexivity.
  - repeat split; assumption.
Defined.

Lemma invalid_json_gives_default_at_notJson :
  exists r h' copies,
    fst (Parser noNumbers notJson moduleHeap) = (Returned r, h') /\
    summary r = None /\ feedback r = None /\ suggestions r = None /\
    segments r = [] /\
    entries h' (scores r) = Some defaultTable /\
    array h' (scores r) = Some copies /\
    (length moduleHeap <= scores r)%nat /\
    Forall (fun l => (length moduleHeap <= l)%nat) copies /\
    (forall l, (l < length moduleHeap)%nat -> h' !! l = moduleHeap !! l).
Proof.
  destruct (invalid_json_gives_default noNumbers notJson moduleHeap) as [Hinvalid _].
  - reflexivity.
  - apply Hinvalid. vm_compute. reflexivity.
Defined.

(** C6 (counterexample). The first pattern takes an open and a close tag
    whose titles are not identical: they differ in case. *)
Lemma titles_need_not_be_identical :
  usedRegex (extractSegments caseTitles) = "regex1" /\
  found (extractSegments caseTitles)
    = [{| title := u "Opening"; content := u "**User:** Hi" |}] /\
  String_match caseTitles segRegex1
    = Some [Some caseTitles; Some (u "Opening"); Some (u "user: Hi")] /\
  u "Opening" <> u "OPENING".
Proof. vm_compute. repeat split. discriminate. Qed.

End Instances.


(** ** Lists *)

Section ListFacts.

Lemma last_app_cons {A} (a : list A) (c x : A) (b : list A) :
  List.last (a ++ c :: b) x = List.last (c :: b) x.
Proof.
  induction a as [|y a IH]; [reflexivity|].
  cbn [app]. rewrite <- IH. destruct (a ++ c :: b) eqn:E; [|reflexivity].
  destruct a; discriminate.
Qed.

End ListFacts.

(** ** The resilient call wrapper: every run *)

Section RetryRuns.
Import Js Retry Runs.

Context {W T : Type}.
Variable fn : W -> settled T * W.

Lemma after_S (k : nat) (w : W) : after fn (S k) w = snd (fn (after fn k w)).
Proof.
  revert w. induction k as [|k IH]; intros w; [reflexivity|].
  change (after fn (S (S k)) w) with (after fn (S k) (snd (fn w))).
  rewrite IH. reflexivity.
Qed.

Section LoopShape.
Variables (maxR delay maxD : Z) (p : thrown -> verdict).

Local Abbreviation loop := (attempts fn maxR delay maxD p).

(** The loop stops at the first call that is final, or at the call of
    index [maxRetries]; it has then waited once after each earlier call. *)
Lemma attempts_shape (r : nat) : forall a last w,
  a + Z.of_nat r = maxR ->
  exists k t,
    (k <= r)%nat /\
    loop (S r) a last w [] =
      (if (k <? r)%nat then conclude p (settles fn k w) else settles fn k w,
       after fn (S k) w, t) /\
    invocations t = S k /\
    sleeps t = map (fun i => Z.min (delay * 2 ^ (a + Z.of_nat i)) maxD) (seq 0 k) /\
    (forall j, (j < k)%nat -> exists e, settles fn j w = Rejected e /\ p e = Says true) /\
    ((k < r)%nat -> final p (settles fn k w)).
Proof.
  induction r as [|r IH]; intros a last w Ha.
  - exists 0%nat. cbn [attempts]. unfold settles. cbn [after].
    destruct (fn w) as [[v|e] w'] eqn:Hfn; cbn [fst snd].
    + exists [Invoke]. repeat split; try reflexivity; intros; lia.
    + replace (a =? maxR) with true by (symmetry; apply Z.eqb_eq; lia).
      exists [Invoke]. repeat split; try reflexivity; intros; lia.
  - destruct (fn w) as [[v|e] w'] eqn:Hfn.
    + exists 0%nat, [Invoke]. cbn [attempts]. unfold settles. cbn [after].
      rewrite Hfn. cbn [fst snd].
      repeat split; try reflexivity; intros; lia.
    + rewrite (attempts_rejected fn maxR delay maxD p _ _ _ _ _ _ _ Hfn).
      replace (a =? maxR) with false by (symmetry; apply Z.eqb_neq; lia).
      destruct (p e) as [[|]|] eqn:Hp.
      * destruct (IH (a + 1) e w') as (k & t & Hk & Hrun & Hn & Hs & Hfail & Hfinal); [lia|].
        exists (S k),
          (Invoke :: Log (a + 1) (maxR + 1) (Z.min (delay * 2 ^ a) maxD)
             :: Sleep (Z.min (delay * 2 ^ a) maxD) :: t).
        assert (Hw : w' = snd (fn w)) by (rewrite Hfn; reflexivity).
        split; [lia|]. split.
        { rewrite attempts_trace, Hrun. cbn [app].
          rewrite settles_shift. change (after fn (S (S k)) w) with (after fn (S k) (snd (fn w))).
          rewrite <- Hw. reflexivity. }
        split; [cbn [invocations]; rewrite Hn; reflexivity|].
        split.
        { cbn [sleeps]. rewrite Hs. cbn [seq map]. rewrite Z.add_0_r. f_equal.
          rewrite <- seq_shift, map_map. apply map_ext. intros i.
          do 3 f_equal. lia. }
        split.
        { intros [|j] Hj.
          - exists e. unfold settles. cbn [after]. rewrite Hfn. split; [reflexivity|exact Hp].
          - rewrite settles_shift, <- Hw. apply Hfail. lia. }
        intros Hlt. rewrite settles_shift, <- Hw. apply Hfinal. lia.
      * exists 0%nat, [Invoke]. unfold settles. cbn [after]. rewrite Hfn. cbn [fst snd conclude].
        rewrite Hp.
        repeat split; try reflexivity; intros; try lia. cbn. rewrite Hp. discriminate.
      * exists 0%nat, [Invoke]. unfold settles. cbn [after]. rewrite Hfn. cbn [fst snd conclude].
        rewrite Hp.
        repeat split; try reflexivity; intros; try lia. cbn. rewrite Hp. discriminate.
Qed.

End LoopShape.

Lemma retryWithBackoff_shape (options : RetryOptions) (w : W) :
  0 <= retriesOf options ->
  exists k t,
    Z.of_nat k <= retriesOf options /\
    retryWithBackoff fn options w =
      (if Z.of_nat k <? retriesOf options
       then conclude (verdictOf options) (settles fn k w) else settles fn k w,
       after fn (S k) w, t) /\
    invocations t = S k /\
    sleeps t = map (backoffDelay options) (seq 0 k) /\
    (forall j, (j < k)%nat ->
       exists e, settles fn j w = Rejected e /\ verdictOf options e = Says true) /\
    (Z.of_nat k < retriesOf options -> final (verdictOf options) (settles fn k w)).
Proof.
  intros Hbudget. unfold retryWithBackoff.
  replace (Z.to_nat (retriesOf options + 1)) with (S (Z.to_nat (retriesOf options))) by lia.
  destruct (attempts_shape (retriesOf options) (firstDelayOf options) (ceilingOf options)
              (verdictOf options) (Z.to_nat (retriesOf options)) 0 Undefined w)
    as (k & t & Hk & Hrun & Hn & Hs & Hfail & Hfinal); [lia|].
  exists k, t. split; [lia|]. split.
  { rewrite Hrun. do 2 f_equal.
    destruct (Nat.ltb_spec k (Z.to_nat (retriesOf options)));
      destruct (Z.ltb_spec (Z.of_nat k) (retriesOf options)); try reflexivity; lia. }
  split; [exact Hn|].
  split; [rewrite Hs; apply map_ext; intros i; unfold backoffDelay; rewrite Z.add_0_l; reflexivity|].
  split; [exact Hfail|]. intros Hlt. apply Hfinal. lia.
Qed.

(** X1. When the calls of index [0] to [k - 1] fail with a retryable error
    and the call of index [k] resolves, [k] being within the budget, the
    wrapper resolves with that value: it has called the operation [k + 1]
    times and waited [k] times, [min (initialDelay * 2 ^ i) maxDelay] after
    the call of index [i]. *)
Theorem retry_resolves_after_failures (options : RetryOptions) (k : nat) (w : W) (v : T)
    (Hbudget : Z.of_nat k <= retriesOf options)
    (Hfail : forall j, (j < k)%nat ->
        exists e, settles fn j w = Rejected e /\ retryableOf options e = true)
    (Hok : settles fn k w = Resolved v) :
  exists trace,
    retryWithBackoff fn options w = (Resolved v, after fn (S k) w, trace) /\
    invocations trace = S k /\
    sleeps trace = map (backoffDelay options) (seq 0 k).
Proof.
  destruct (retryWithBackoff_shape options w) as (k' & t & Hk' & Hrun & Hn & Hs & Hfail' & Hfinal);
    [lia|].
  assert (k' = k) as ->.
  { destruct (Nat.lt_trichotomy k' k) as [Hlt|[Heq|Hgt]]; [|exact Heq|].
    - destruct (Hfail k' Hlt) as (e & He & Hp). apply retryableOf_true in Hp.
      assert (Hf : final (verdictOf options) (settles fn k' w)) by (apply Hfinal; lia).
      rewrite He in Hf. simpl in Hf. congruence.
    - destruct (Hfail' k Hgt) as (e & He & _). congruence. }
  exists t. rewrite Hrun, Hok. cbn [conclude]. destruct (_ <? _); auto.
Qed.

(** X2. Whatever the operation does, a wrapper with a budget
    [maxRetries >= 0] calls it at least once and at most [maxRetries + 1]
    times, waits exactly once between two successive calls and never after
    the last one, each wait being [min (initialDelay * 2 ^ i) maxDelay], and
    settles as its last call did, or with the TypeError of the predicate
    when that throws on the error of the last call: a rejection is never
    the error of an earlier call. *)
Theorem retry_settles_as_last_call (options : RetryOptions) (w : W)
    (Hbudget : 0 <= retriesOf options) :
  exists n trace,
    snd (fst (retryWithBackoff fn options w)) = after fn (S n) w /\
    snd (retryWithBackoff fn options w) = trace /\
    (fst (fst (retryWithBackoff fn options w)) = settles fn n w \/
     exists e, settles fn n w = Rejected e /\ verdictOf options e = Throws /\
               fst (fst (retryWithBackoff fn options w)) = Rejected TypeError) /\
    invocations trace = S n /\
    Z.of_nat (invocations trace) <= retriesOf options + 1 /\
    length (sleeps trace) = n /\
    (forall i ms, sleeps trace !! i = Some ms ->
       ms = Z.min (firstDelayOf options * 2 ^ Z.of_nat i) (ceilingOf options) /\
       ms <= ceilingOf options).
Proof.
  destruct (retryWithBackoff_shape options w Hbudget)
    as (k & t & Hk & Hrun & Hn & Hs & _ & _).
  exists k, t. rewrite Hrun. cbn [fst snd].
  split; [reflexivity|]. split; [reflexivity|]. split.
  { destruct (_ <? _); [|left; reflexivity].
    destruct (settles fn k w) as [v|e]; [left; reflexivity|]. cbn [conclude].
    destruct (verdictOf options e) as [b|] eqn:Hp; [left; reflexivity|].
    right. exists e. auto. }
  split; [exact Hn|]. split; [lia|].
  split; [rewrite Hs, length_map, length_seq; reflexivity|].
  intros i ms Hi. rewrite Hs in Hi.
  apply list_lookup_fmap_Some in Hi as (j & -> & Hj).
  apply lookup_seq in Hj as [-> _]. unfold backoffDelay. simpl. split; [reflexivity|lia].
Qed.

(** X3. With a negative [maxRetries] the loop body never runs: the
    operation is not called at all and the wrapper rejects with
    [undefined], the initial value of [lastError]. *)
Theorem negative_budget_never_calls (options : RetryOptions) (w : W)
    (Hbudget : retriesOf options < 0) :
  retryWithBackoff fn options w = (Rejected Undefined, w, []).
Proof.
  unfold retryWithBackoff.
  replace (Z.to_nat (retriesOf options + 1)) with 0%nat by lia. reflexivity.
Qed.

End RetryRuns.

Section RetryPolicies.
Import Js Retry Stages Generator.

Context {W T : Type}.
Variable fn : W -> settled T * W.

(** X4. Under the retry policy of the three stages the completion call is
    made at most three times, and the waits are 500 ms and then 1000 ms:
    the wrapper adds at most 1500 ms to a stage, and the ceiling of 5000 ms
    is never reached. *)
Theorem stage_policy_bounds_latency (options : RetryOptions) (w : W)
    (Hstage : In options
       [analyzeTranscript_options; generateSummary_options; analyzeDetails_options]) :
  let trace := snd (retryWithBackoff fn options w) in
  (1 <= invocations trace <= 3)%nat /\
  (sleeps trace = [] \/ sleeps trace = [500] \/ sleeps trace = [500; 1000]) /\
  fold_right Z.add 0 (sleeps trace) <= 1500.
Proof.
  assert (options = analyzeTranscript_options) as ->.
  { simpl in Hstage. destruct Hstage as [<-|[<-|[<-|[]]]]; reflexivity. }
  destruct (retryWithBackoff_shape fn analyzeTranscript_options w)
    as (k & t & Hk & Hrun & Hn & Hs & _ & _); [vm_compute; discriminate|].
  rewrite Hrun. cbn [snd]. change (retriesOf analyzeTranscript_options) with 2 in Hk.
  rewrite Hn, Hs.
  destruct k as [|[|[|k]]]; [| | |lia]; (split; [lia|]); vm_compute; intuition discriminate.
Qed.

(** X5. The options [generateScenario] passes are the defaults written
    out: the wrapper behaves as without options, calls the completion
    service at most four times and waits 1000, 2000 and 4000 ms, 7000 ms at
    most in all. *)
Theorem scenario_generator_policy (w : W) :
  let run := retryWithBackoff fn generateScenario_options w in
  run = retryWithBackoff fn noOptions w /\
  (1 <= invocations (snd run) <= 4)%nat /\
  (exists k, (k <= 3)%nat /\ sleeps (snd run) = firstn k [1000; 2000; 4000]) /\
  fold_right Z.add 0 (sleeps (snd run)) <= 7000.
Proof.
  split; [reflexivity|].
  destruct (retryWithBackoff_shape fn generateScenario_options w)
    as (k & t & Hk & Hrun & Hn & Hs & _ & _); [vm_compute; discriminate|].
  rewrite Hrun. cbn [snd]. change (retriesOf generateScenario_options) with 3 in Hk.
  rewrite Hn, Hs.
  split; [lia|]. split.
  - exists k. split; [lia|].
    destruct k as [|[|[|[|k]]]]; [| | | |lia]; reflexivity.
  - destruct k as [|[|[|[|k]]]]; [| | | |lia]; vm_compute; discriminate.
Qed.

End RetryPolicies.

Section RetryInstances.
Import Js Retry Operations Samples.

Lemma retry_resolves_after_failures_at_third_call :
  exists trace,
    retryWithBackoff (flaky 2) noOptions 0%nat = (Resolved 2%nat, 3%nat, trace) /\
    invocations trace = 3%nat /\
    sleeps trace = [1000; 2000].
Proof.
  destruct (retry_resolves_after_failures (flaky 2) noOptions 2 0%nat 2%nat)
    as (trace & Hrun & Hn & Hs).
  - vm_compute. discriminate.
  - intros [|[|j]] Hj; [| |lia]; eexists; split; reflexivity.
  - reflexivity.
  - exists trace. split; [exact Hrun|]. split; [exact Hn|exact Hs].
Defined.

Lemma retry_settles_as_last_call_at_flaky :
  exists n trace,
    snd (retryWithBackoff (flaky 5) noOptions 0%nat) = trace /\
    invocations trace = S n /\
    Z.of_nat (invocations trace) <= 4.
Proof.
  destruct (retry_settles_as_last_call (flaky 5) noOptions 0%nat)
    as (n & trace & _ & Htrace & _ & Hn & Hle & _).
  - vm_compute. discriminate.
  - exists n, trace. split; [exact Htrace|]. split; [exact Hn|exact Hle].
Defined.

Lemma negative_budget_never_calls_at_minus_one :
  retryWithBackoff (flaky 0) negativeBudget 0%nat = (Rejected Undefined, 0%nat, []).
Proof. apply (negative_budget_never_calls (flaky 0) negativeBudget 0%nat). reflexivity. Defined.

Lemma stage_policy_bounds_latency_at_analyzer :
  (1 <= invocations (snd (retryWithBackoff (flaky 5) Stages.analyzeTranscript_options 0%nat)) <= 3)%nat.
Proof.
  apply (stage_policy_bounds_latency (flaky 5) Stages.analyzeTranscript_options 0%nat).
  left. reflexivity.
Defined.

End RetryInstances.

(** ** The token budgets *)

Section TokenFacts.
Import QArith Qround Qminmax Tokens.
Local Open Scope Z_scope.

Lemma estimatedTokens_div (n : nat) : estimatedTokens n = (Z.of_nat n + 3) / 4.
Proof.
  unfold estimatedTokens, Qceiling, Qfloor. cbn.
  change (Z.pos (1 * 4)) with 4. rewrite Z.mul_1_r.
  pose proof (Z.div_mod (Z.of_nat n + 3) 4 ltac:(lia)).
  pose proof (Z.mod_pos_bound (Z.of_nat n + 3) 4 ltac:(lia)).
  pose proof (Z.div_mod (- Z.of_nat n) 4 ltac:(lia)).
  pose proof (Z.mod_pos_bound (- Z.of_nat n) 4 ltac:(lia)).
  lia.
Qed.

Lemma Qfloor_min (a b : Q) : Qfloor (Qmin a b) = Z.min (Qfloor a) (Qfloor b).
Proof.
  destruct (Q.min_spec a b) as [[Hlt ->]|[Hle ->]].
  - apply Qlt_le_weak, Qfloor_resp_le in Hlt. lia.
  - apply Qfloor_resp_le in Hle. lia.
Qed.

Lemma Qfloor_max (a b : Q) : Qfloor (Qmax a b) = Z.max (Qfloor a) (Qfloor b).
Proof.
  destruct (Q.max_spec a b) as [[Hlt ->]|[Hle ->]].
  - apply Qlt_le_weak, Qfloor_resp_le in Hlt. lia.
  - apply Qfloor_resp_le in Hle. lia.
Qed.

Lemma budget_closed (p : Z) (q : positive) (n : nat) :
  budget (p # q) n = Z.min (Z.max (estimatedTokens n * p / Zpos q) 512) 2048.
Proof.
  unfold budget. rewrite Qfloor_min, Qfloor_max.
  reflexivity.
Qed.

(** X6. Whatever the length of the text, the [max_tokens] a stage asks for
    is an integer from 512 to 2048: [2 * ceil (n / 4)] for the analysis and
    [floor (1.5 * ceil (n / 4))] for the summary and the detail stage,
    clamped to that range. It grows with the length, and the summary and
    detail stages never ask for more than the analysis stage. *)
Theorem token_budgets_are_clamped (n : nat) :
  analyzeTranscript_maxTokens n = Z.min (Z.max (2 * ((Z.of_nat n + 3) / 4)) 512) 2048 /\
  generateSummary_maxTokens n = Z.min (Z.max (3 * ((Z.of_nat n + 3) / 4) / 2) 512) 2048 /\
  analyzeDetails_maxTokens n = generateSummary_maxTokens n /\
  512 <= generateSummary_maxTokens n <= analyzeTranscript_maxTokens n /\
  analyzeTranscript_maxTokens n <= 2048 /\
  (forall m, (n <= m)%nat ->
     analyzeTranscript_maxTokens n <= analyzeTranscript_maxTokens m /\
     generateSummary_maxTokens n <= generateSummary_maxTokens m).
Proof.
  assert (Ha : forall k, analyzeTranscript_maxTokens k
                         = Z.min (Z.max (2 * ((Z.of_nat k + 3) / 4)) 512) 2048).
  { intros k. unfold analyzeTranscript_maxTokens.
    change 2%Q with (2 # 1). rewrite budget_closed, estimatedTokens_div.
    rewrite Z.div_1_r. f_equal. f_equal. lia. }
  assert (Hs : forall k, generateSummary_maxTokens k
                         = Z.min (Z.max (3 * ((Z.of_nat k + 3) / 4) / 2) 512) 2048).
  { intros k. unfold generateSummary_maxTokens.
    assert (E : forall f g, Qeq f g -> budget f k = budget g k).
    { intros f g Hfg. unfold budget. apply Qfloor_comp. rewrite Hfg. reflexivity. }
    rewrite (E 1.5%Q (3 # 2)) by reflexivity.
    rewrite budget_closed, estimatedTokens_div. f_equal. f_equal. f_equal. lia. }
  split; [apply Ha|]. split; [apply Hs|]. split; [reflexivity|].
  rewrite Ha, Hs.
  assert (H0 : 0 <= (Z.of_nat n + 3) / 4) by (apply Z.div_pos; lia).
  assert (H1 : 3 * ((Z.of_nat n + 3) / 4) / 2 <= 2 * ((Z.of_nat n + 3) / 4)).
  { apply Z.div_le_upper_bound; lia. }
  split; [lia|]. split; [lia|].
  intros m Hm. rewrite !Ha, !Hs.
  assert (H2 : (Z.of_nat n + 3) / 4 <= (Z.of_nat m + 3) / 4) by (apply Z.div_le_mono; lia).
  assert (H3 : 3 * ((Z.of_nat n + 3) / 4) / 2 <= 3 * ((Z.of_nat m + 3) / 4) / 2)
    by (apply Z.div_le_mono; lia).
  lia.
Qed.

End TokenFacts.

(** ** The report parser: texts that are missing or ill-typed *)

Section ParserEdges.
Import Js RegExp Json Report Reading ParserSamples.

Variable Number_toString : Z -> Z -> str.

Local Abbreviation Parser' := (Parser Number_toString).

Lemma orElse_falsy (a : option json) (b : json) : falsy a = true -> orElse a b = b.
Proof.
  unfold falsy, orElse. destruct a as [v|]; [|reflexivity].
  destruct (truthy v); [discriminate|reflexivity].
Qed.

Lemma reportOf_no_text (rawText : str) :
  (forall parsed, tryParse rawText = Some parsed ->
     summaryTextOf parsed = JString [] /\ detailTextOf parsed = JString []) ->
  reportOf Number_toString rawText = Result defaultReport.
Proof.
  intros H. unfold reportOf. destruct (tryParse rawText) as [parsed|]; [|reflexivity].
  destruct (H parsed eq_refl) as [-> ->]. vm_compute. reflexivity.
Qed.

(** X7. A valid JSON text in which neither text can be found - the value
    is not an object, or the members [summaryAnalysis], [summary],
    [detailedFeedback] and [detail] are missing or hold [null], [false],
    [0] or the empty string - gives the default result, as an invalid text
    does: nothing is thrown, the three fields are [null], there is no
    segment and the scores are the default ones. *)
Theorem absent_texts_give_default (rawText : str) (h : heap) (parsed : json)
    (Hintact : intact h)
    (Hparse : JSON_parse rawText = Some parsed)
    (Habsent : forall key,
        In key ["summaryAnalysis"; "summary"; "detailedFeedback"; "detail"] ->
        falsy (get parsed (u key)) = true) :
  observe (fst (Parser' rawText h)) = Some (Result defaultReport) /\
  ((forall ms, parsed <> JObject ms) -> forall key, falsy (get parsed key) = true).
Proof.
  split.
  - destruct (Parser_reportOf Number_toString rawText h Hintact) as (-> & _).
    f_equal. apply reportOf_no_text. intros parsed' Hp.
    assert (parsed' = parsed) as ->.
    { unfold tryParse in Hp. rewrite Hparse in Hp. destruct parsed; congruence. }
    unfold summaryTextOf, detailTextOf.
    rewrite !orElse_falsy by (apply Habsent; simpl; auto). auto.
  - intros Hnot key. destruct parsed as [ |b|m e|s|els|ms]; try reflexivity.
    destruct (Hnot ms eq_refl).
Qed.

(** X8. A text that is there but is not a string makes [Parser] throw a
    TypeError instead of returning the default result: a summary text that
    is a number, [true], an array or an object has no [match] method (line
    82), and a detail text that is a number, [true] or an object has no
    [includes] method (line 244). *)
Theorem ill_typed_texts_throw (rawText : str) (h : heap) (parsed v : json)
    (Hintact : intact h)
    (Hparse : JSON_parse rawText = Some parsed)
    (Htruthy : truthy v = true)
    (Hfield :
       (get parsed (u "summaryAnalysis") = Some v /\ forall s, v <> JString s) \/
       (get parsed (u "detailedFeedback") = Some v /\
        forall s els, v <> JString s /\ v <> JArray els)) :
  observe (fst (Parser' rawText h)) = Some TypeError.
Proof.
  destruct (Parser_reportOf Number_toString rawText h Hintact) as (-> & _).
  f_equal. unfold reportOf, tryParse. rewrite Hparse.
  assert (Hobj : exists ms, parsed = JObject ms).
  { destruct parsed; try (destruct Hfield as [[H _]|[H _]]; discriminate H). eauto. }
  destruct Hobj as [ms ->].
  destruct Hfield as [[Hget Hnot]|[Hget Hnot]].
  - unfold summaryTextOf. rewrite Hget. cbn [orElse]. rewrite Htruthy.
    destruct v as [ |b|m e|s|els|ms']; try reflexivity. destruct (Hnot s eq_refl).
  - unfold detailTextOf. rewrite Hget. cbn [orElse]. rewrite Htruthy.
    destruct (summaryTextOf (JObject ms)); try reflexivity.
    destruct (ToString Number_toString v); [|reflexivity].
    destruct v as [ |b|m e|d|els|ms']; try reflexivity.
    + destruct (Hnot d []) as [H _]. destruct (H eq_refl).
    + destruct (Hnot [] els) as [_ H]. destruct (H eq_refl).
Qed.

(** X9. A call writes only to the array and the objects it has allocated
    itself: the result of an earlier call still reads the same after any
    later call, whatever the later text. *)
Theorem earlier_results_survive (text1 text2 : str) (h h1 : heap) (r1 : ParsedResult)
    (Hintact : intact h)
    (Hrun : fst (Parser' text1 h) = (Returned r1, h1)) :
  exists report,
    read h1 r1 = Some report /\
    read (snd (fst (Parser' text2 h1))) r1 = Some report /\
    forall l, (l < length h1)%nat -> snd (fst (Parser' text2 h1)) !! l = h1 !! l.
Proof.
  destruct (Parser_reportOf Number_toString text1 h Hintact) as (Hobs & Hi1 & _ & _).
  rewrite Hrun in Hobs, Hi1. simpl in Hobs, Hi1.
  destruct (read h1 r1) as [report|] eqn:Hread; [|discriminate].
  destruct (Parser_reportOf Number_toString text2 h1 Hi1) as (_ & _ & Hsame & _).
  exists report. split; [reflexivity|]. split; [|exact Hsame].
  unfold read in *. destruct (entries h1 (scores r1)) as [table|] eqn:He; [|discriminate].
  rewrite (entries_same_below (length h1) h1 _ (scores r1) table Hsame (le_n _) He).
  exact Hread.
Qed.

End ParserEdges.

(** ** The report parser: the fallbacks and the extracted blocks *)

Section ParserTexts.
Import Js RegExp Json Report Reading ParserSamples.

Variable Number_toString : Z -> Z -> str.

Local Abbreviation Parser' := (Parser Number_toString).

(** What [Parser] is seen to do with two texts that are strings. *)
Lemma observe_strings (rawText : str) (h : heap) (parsed : json) (s d : str) :
  intact h ->
  JSON_parse rawText = Some parsed ->
  summaryTextOf parsed = JString s ->
  detailTextOf parsed = JString d ->
  observe (fst (Parser' rawText h)) =
    Some (Result {| summaryOf := extractSummary s;
                    feedbackOf := extractFeedback s (extractSummary s);
                    suggestionsOf := extractSuggestions s;
                    segmentsOf := found (extractSegments d);
                    scoresOf := scoresFor s |}).
Proof.
  intros Hintact Hparse Hs Hd.
  destruct (Parser_reportOf Number_toString rawText h Hintact) as (Hobs & _).
  rewrite Hobs. unfold reportOf, tryParse. rewrite Hparse.
  destruct parsed; try (rewrite Hs, Hd; reflexivity).
  injection Hs as <-. injection Hd as <-. vm_compute. reflexivity.
Qed.

(** *** [trim] *)

Lemma trimStart_suffix (s : str) :
  exists blank, s = blank ++ trimStart s /\ forallb isWhiteSpace blank = true.
Proof.
  induction s as [|c s (blank & Hs & Hb)]; simpl.
  - exists []. auto.
  - destruct (isWhiteSpace c) eqn:Hc.
    + exists (c :: blank). simpl. rewrite Hc, Hb. split; [f_equal; exact Hs|reflexivity].
    + exists []. auto.
Qed.

Lemma trimStart_head (s : str) (c : N) (t : str) :
  trimStart s = c :: t -> isWhiteSpace c = false.
Proof.
  induction s as [|x s IH]; simpl; [discriminate|].
  destruct (isWhiteSpace x) eqn:Hx; [exact IH|]. intros [= <- _]. exact Hx.
Qed.

Lemma trimStart_blank (s : str) :
  trimStart s = [] -> forallb isWhiteSpace s = true.
Proof.
  intros H. destruct (trimStart_suffix s) as (blank & Hs & Hb).
  rewrite H, app_nil_r in Hs. subst. exact Hb.
Qed.

(** A string with a character that is not white space is not blank. *)
Lemma trim_nonblank (s : str) (i : nat) (c : N) :
  nth_error s i = Some c -> isWhiteSpace c = false -> trim s <> [].
Proof.
  intros Hi Hc Ht. unfold trim, trimEnd in Ht.
  apply (f_equal (@rev N)) in Ht. rewrite rev_involutive in Ht. simpl in Ht.
  apply trimStart_blank in Ht.
  rewrite forallb_forall in Ht.
  assert (Hall : forall x, In x (trimStart s) -> isWhiteSpace x = true).
  { intros x Hx. apply Ht. apply in_rev. rewrite rev_involutive. exact Hx. }
  assert (He : trimStart s = []).
  { destruct (trimStart s) as [|x t] eqn:E; [reflexivity|].
    pose proof (trimStart_head s x t E). rewrite Hall in H by (left; reflexivity).
    discriminate. }
  apply trimStart_blank in He. rewrite forallb_forall in He.
  rewrite He in Hc; [discriminate|]. eapply nth_error_In, Hi.
Qed.

Lemma last_rev_cons (c x : N) (t : list N) : List.last (rev (c :: t)) x = c.
Proof. simpl. apply last_last. Qed.

(** What [trim] returns has no white space at either end. *)
Lemma trim_trimmed (s : str) : trimmed (trim s) = true.
Proof.
  unfold trim, trimEnd.
  destruct (trimStart s) as [|c t] eqn:E; [reflexivity|].
  pose proof (trimStart_head s c t E) as Hc.
  destruct (trimStart_suffix (rev (c :: t))) as (blank & Hs & Hb).
  destruct (trimStart (rev (c :: t))) as [|c' t'] eqn:E'.
  - apply trimStart_blank in E'. rewrite forallb_forall in E'.
    rewrite E' in Hc; [discriminate|]. apply in_rev. rewrite rev_involutive. left. reflexivity.
  - pose proof (trimStart_head _ c' t' E') as Hc'.
    assert (Hlast : List.last (c' :: t') c' = c).
    { rewrite <- (last_app_cons blank c' c' t'), <- Hs. apply last_rev_cons. }
    unfold trimmed.
    destruct (rev (c' :: t')) as [|a r] eqn:Er.
    { reflexivity. }
    assert (Ha : a = c).
    { apply (f_equal (@rev N)) in Er. rewrite rev_involutive in Er.
      rewrite Er in Hlast. rewrite <- Hlast.
      change (rev (a :: r)) with (rev r ++ [a]). rewrite last_last. reflexivity. }
    assert (Hr : List.last (a :: r) a = c').
    { rewrite <- Er. apply last_rev_cons. }
    rewrite Hr, Ha, Hc, Hc'. reflexivity.
Qed.

(** *** The headers *)

(** Only "#" canonicalises to "#". *)
Lemma canonicalUnit_hash (ch : N) : canonicalUnit ch = 35%N -> ch = 35%N.
Proof.
  intros H.
  destruct (canonicalUnit_cases ch)
    as [Hs|(first & last' & step & image & Hin & Hle & Hcu)]; [congruence|].
  assert (Hall : forallb (fun run : N * N * N * N => (35 <? snd run)%N) caseRuns = true)
    by (vm_compute; reflexivity).
  rewrite forallb_forall in Hall. specialize (Hall _ Hin). cbn [snd] in Hall.
  apply N.ltb_lt in Hall. lia.
Qed.

(** A header is found only in a text that has a "#". *)
Lemma header_needs_hash (name : string) (s : str) (m : list (option str)) :
  String_match s (header name) = Some m ->
  exists i, nth_error s i = Some 35%N.
Proof.
  unfold String_match. destruct (exec (header name) s 0) as [mr|] eqn:E; [|discriminate].
  intros _. unfold exec in E. destruct (_ <? _)%nat; [discriminate|].
  apply scan_from in E as (j & _ & E). exists j.
  unfold matchAt in E.
  destruct (compile (header name) s (source (header name)) _ Some) as [y|] eqn:Ec;
    [|discriminate].
  clear E. cbn [header source cat] in Ec.
  change (lit (u "##")) with (Seq (Char 35%N) (Char 35%N)) in Ec.
  cbn [compile] in Ec. unfold characterSetMatcher at 1 in Ec. cbn [endIndex] in Ec.
  destruct (nth_error s j) as [ch|]; [|discriminate]. f_equal.
  cbn [header ignoreCase] in Ec.
  destruct (xorb _ false) eqn:Hx; [|discriminate]. clear Ec.
  rewrite xorb_false_r in Hx.
  apply existsb_exists in Hx as (a & Ha & Hc).
  unfold classHas in Hc. cbn [existsb itemHas] in Hc. rewrite orb_false_r in Hc.
  apply N.eqb_eq in Hc. subst a.
  apply sameCase_sound in Ha. apply canonicalUnit_hash. rewrite <- Ha.
  vm_compute. reflexivity.
Qed.

Lemma header_nonblank (name : string) (s : str) (m : list (option str)) :
  String_match s (header name) = Some m -> trim s <> [].
Proof.
  intros H. apply header_needs_hash in H as [i Hi].
  eapply trim_nonblank; [exact Hi|reflexivity].
Qed.

(** X10. When the analysis header is missing, [feedback] is set only in
    one case: the overview header is there with nothing under it, so that
    [summary] is the empty string. [feedback] is then the first 500 code
    units of the summary text; in every other case it stays [null]. *)
Theorem feedback_fallback_needs_empty_overview (rawText : str) (h : heap) (parsed : json)
    (s d : str)
    (Hintact : intact h)
    (Hparse : JSON_parse rawText = Some parsed)
    (Hsummary : summaryTextOf parsed = JString s)
    (Hdetail : detailTextOf parsed = JString d)
    (Hanalysis : String_match s analysisRegex = None) :
  exists report,
    observe (fst (Parser' rawText h)) = Some (Result report) /\
    (feedbackOf report <> None <->
     exists m, String_match s overviewRegex = Some m /\ trim (at_ m 1) = []) /\
    (forall f, feedbackOf report = Some f ->
       f = substring s 0 500 /\ (length f <= 500)%nat /\ summaryOf report = Some []).
Proof.
  eexists. split; [apply (observe_strings rawText h parsed s d); assumption|].
  cbn [feedbackOf summaryOf]. unfold extractFeedback, extractSummary. rewrite Hanalysis.
  destruct (String_match s overviewRegex) as [m|] eqn:Ho.
  - pose proof (header_nonblank _ _ _ Ho) as Hne.
    destruct (trim s) as [|c t] eqn:Et; [congruence|]. cbn [nonEmpty isSet andb].
    destruct (trim (at_ m 1)) as [|c' t'] eqn:Eb; cbn [nonEmpty negb].
    + split.
      * split; [intros _; exists m; auto|discriminate].
      * intros f [= <-]. split; [reflexivity|]. split; [|reflexivity].
        unfold substring. rewrite length_firstn. lia.
    + split.
      * split; [congruence|]. intros (m' & [= <-] & Hb). congruence.
      * discriminate.
  - destruct (nonEmpty (trim s)) eqn:Et; cbn [andb].
    + assert (Hset : isSet (Some (orString (trim (hd [] (split s (u "##")))) (substring s 0 500)))
                     = true).
      { unfold isSet, orString.
        destruct (trim (hd [] (split s (u "##")))) eqn:E; simpl; [|reflexivity].
        destruct s; [discriminate Et|reflexivity]. }
      rewrite Hset. cbn [negb].
      split; [split; [congruence|intros (m' & Hm' & _); discriminate]|discriminate].
    + split; [split; [congruence|intros (m' & Hm' & _); discriminate]|discriminate].
Qed.

(** *** The segments *)

Lemma whileExec_Forall (P : Segment -> Prop) (R : RegExp) (text : str) body (fuel : nat) :
  (forall m state, Forall P (found state) -> Forall P (found (body m state))) ->
  forall i state, Forall P (found state) ->
    Forall P (found (whileExec R text body fuel i state)).
Proof.
  intros Hbody. induction fuel as [|fuel IH]; intros i state Hs; simpl; [exact Hs|].
  destruct (exec R text i) as [m|]; [|exact Hs]. apply IH, Hbody, Hs.
Qed.

Lemma extractSegments_Forall (P : Segment -> Prop) (detailText : str) :
  (forall m, P {| title := trim (at_ m 1); content := boldSpeakers (trim (at_ m 2)) |}) ->
  Forall P (found (extractSegments detailText)).
Proof.
  intros HP.
  assert (Hpush : forall name m state,
            Forall P (found state) -> Forall P (found (pushSegment name m state))).
  { intros name m state Hs. unfold pushSegment. cbn [found].
    apply Forall_app. split; [exact Hs|]. constructor; [apply HP|constructor]. }
  assert (Hplain : forall m state,
            Forall P (found state) -> Forall P (found (pushPlainSegment m state))).
  { intros m state Hs. unfold pushPlainSegment.
    destruct (_ <? _)%nat; [exact Hs|]. cbn [found].
    apply Forall_app. split; [exact Hs|]. constructor; [apply HP|constructor]. }
  assert (Hunless : forall step state,
            (forall st, Forall P (found st) -> Forall P (found (step st))) ->
            Forall P (found state) -> Forall P (found (unlessFound step state))).
  { intros step state Hstep Hs. unfold unlessFound.
    destruct (Nat.eqb _ _); [apply Hstep, Hs|exact Hs]. }
  unfold extractSegments, tryRegex, tryPlainText.
  repeat (apply Hunless; [intros st Hst; apply whileExec_Forall; auto|]).
  apply whileExec_Forall; [auto|constructor].
Qed.

(** X11. Each block [Parser] extracts comes out trimmed: [suggestions],
    [feedback] when its header is found, [summary] unless it is the prefix
    of 500 code units, and the title of every segment have no white space
    at either end. *)
Theorem extracted_blocks_are_trimmed (rawText : str) (h : heap) (parsed : json) (s d : str)
    (Hintact : intact h)
    (Hparse : JSON_parse rawText = Some parsed)
    (Hsummary : summaryTextOf parsed = JString s)
    (Hdetail : detailTextOf parsed = JString d) :
  exists report,
    observe (fst (Parser' rawText h)) = Some (Result report) /\
    (forall t, suggestionsOf report = Some t -> trimmed t = true) /\
    (forall t, feedbackOf report = Some t ->
       trimmed t = true \/ t = substring s 0 500) /\
    (forall t, summaryOf report = Some t ->
       trimmed t = true \/ t = substring s 0 500) /\
    Forall (fun segment => trimmed (title segment) = true) (segmentsOf report).
Proof.
  eexists. split; [apply (observe_strings rawText h parsed s d); assumption|].
  cbn [suggestionsOf feedbackOf summaryOf segmentsOf].
  split; [|split; [|split]].
  - intros t. unfold extractSuggestions.
    destruct (String_match s recommendationsRegex); [|discriminate].
    intros [= <-]. apply trim_trimmed.
  - intros t. unfold extractFeedback.
    destruct (String_match s analysisRegex).
    + intros [= <-]. left. apply trim_trimmed.
    + destruct (_ && _); [|discriminate]. intros [= <-]. right. reflexivity.
  - intros t. unfold extractSummary.
    destruct (String_match s overviewRegex).
    + intros [= <-]. left. apply trim_trimmed.
    + destruct (nonEmpty (trim s)); [|discriminate]. intros [= <-].
      unfold orString. destruct (nonEmpty _); [left; apply trim_trimmed|right; reflexivity].
  - apply extractSegments_Forall. intros m. apply trim_trimmed.
Qed.

End ParserTexts.

Section ParserInstances.
Import Js RegExp Json Report Reading ParserSamples Samples.

Lemma absent_texts_give_default_at_falsyTexts :
  observe (fst (Parser noNumbers falsyTexts moduleHeap)) = Some (Result defaultReport).
Proof.
  refine (proj1 (absent_texts_give_default noNumbers falsyTexts moduleHeap
                   (JObject [(u "summary", JNull); (u "detail", JNumber 0 0);
                             (u "other", JString (u "x"))]) _ _ _)).
  - reflexivity.
  - vm_compute. reflexivity.
  - intros key Hkey. simpl in Hkey.
    destruct Hkey as [<-|[<-|[<-|[<-|[]]]]]; vm_compute; reflexivity.
Defined.

Lemma ill_typed_texts_throw_at_numericSummary :
  observe (fst (Parser noNumbers numericSummary moduleHeap)) = Some TypeError.
Proof.
  apply (ill_typed_texts_throw noNumbers numericSummary moduleHeap
           (JObject [(u "summaryAnalysis", JNumber 7 0); (u "detailedFeedback", JString [])])
           (JNumber 7 0)).
  - reflexivity.
  - vm_compute. reflexivity.
  - reflexivity.
  - left. split; [vm_compute; reflexivity|discriminate].
Defined.

Lemma earlier_results_survive_at_wellFormed :
  exists r1 h1 report,
    fst (Parser noNumbers wellFormed moduleHeap) = (Returned r1, h1) /\
    read h1 r1 = Some report /\
    read (snd (fst (Parser noNumbers repeatedScores h1))) r1 = Some report.
Proof.
  destruct (fst (Parser noNumbers wellFormed moduleHeap)) as [o h1] eqn:Hrun.
  assert (Ho : exists r1, o = Returned r1).
  { vm_compute in Hrun. injection Hrun as <- _. eexists. reflexivity. }
  destruct Ho as [r1 ->].
  destruct (earlier_results_survive noNumbers wellFormed repeatedScores moduleHeap h1 r1)
    as (report & H1 & H2 & _).
  - reflexivity.
  - exact Hrun.
  - exists r1, h1, report. split; [reflexivity|]. split; [exact H1|exact H2].
Defined.

Lemma feedback_fallback_needs_empty_overview_at_emptyOverview :
  exists report,
    observe (fst (Parser noNumbers emptyOverview moduleHeap)) = Some (Result report) /\
    summaryOf report = Some [] /\
    feedbackOf report <> None.
Proof.
  destruct (feedback_fallback_needs_empty_overview noNumbers emptyOverview moduleHeap
              (JObject [(u "summaryAnalysis", JString emptyOverviewSummary);
                        (u "detailedFeedback", JString [])])
              emptyOverviewSummary [])
    as (report & Hobs & Hiff & Hf).
  - reflexivity.
  - vm_compute. reflexivity.
  - reflexivity.
  - reflexivity.
  - vm_compute. reflexivity.
  - exists report. split; [exact Hobs|].
    assert (Hset : feedbackOf report <> None).
    { apply Hiff. eexists. split; vm_compute; reflexivity. }
    split; [|exact Hset].
    destruct (feedbackOf report) as [f|] eqn:E; [|congruence].
    apply (Hf f eq_refl).
Defined.

Lemma extracted_blocks_are_trimmed_at_wellFormed :
  exists report,
    observe (fst (Parser noNumbers wellFormed moduleHeap)) = Some (Result report) /\
    Forall (fun segment => trimmed (title segment) = true) (segmentsOf report).
Proof.
  destruct (extracted_blocks_are_trimmed noNumbers wellFormed moduleHeap
              (JObject [(u "summaryAnalysis", JString wellFormedSummary);
                        (u "detailedFeedback", JString wellFormedDetail)])
              wellFormedSummary wellFormedDetail)
    as (report & Hobs & _ & _ & _ & Hseg).
  - reflexivity.
  - vm_compute. reflexivity.
  - reflexivity.
  - reflexivity.
  - exists report. split; [exact Hobs|exact Hseg].
Defined.

End ParserInstances.

(** ** The score extractor *)

Section ExtractorShape.
Import Js RegExp Extractor Keys.

Lemma assign_keys (scores : record) (key : string) (score : jsNumber) :
  map fst (assign scores key score) =
  if existsb (String.eqb key) (map fst scores) then map fst scores
  else map fst scores ++ [key].
Proof.
  induction scores as [|[k v] scores IH]; simpl; [reflexivity|].
  rewrite (String.eqb_sym key k).
  destruct (String.eqb k key) eqn:E; simpl; [reflexivity|].
  rewrite IH. destruct (existsb _ _); reflexivity.
Qed.

Lemma assign_wellKeyed (scores : record) (key : string) (score : jsNumber) :
  In key extractorKeys -> Report.wholeOrInfinite score ->
  wellKeyed scores -> wellKeyed (assign scores key score).
Proof.
  intros Hkey Hscore [Hnd Hall]. split.
  - rewrite assign_keys. destruct (existsb _ _) eqn:E; [exact Hnd|].
    apply NoDup_app. split; [exact Hnd|]. split; [|apply NoDup_singleton].
    intros k Hk Hk'. apply list_elem_of_singleton in Hk'. subst k.
    apply list_elem_of_In in Hk.
    assert (existsb (String.eqb key) (map fst scores) = true); [|congruence].
    apply existsb_exists. exists key. split; [exact Hk|apply String.eqb_refl].
  - clear Hnd. induction scores as [|[k v] scores IH]; simpl.
    + constructor; [split; assumption|constructor].
    + inversion Hall as [|? ? [Hk Hv] Hrest]; subst.
      destruct (String.eqb k key) eqn:E.
      * constructor; [split; assumption|assumption].
      * constructor; [split; assumption|apply IH; assumption].
Qed.

Lemma assignCategory_wellKeyed (scores : record) (category : str) (score : jsNumber) :
  Report.wholeOrInfinite score -> wellKeyed scores -> wellKeyed (assignCategory scores category score).
Proof.
  intros Hscore Hw. unfold assignCategory.
  repeat (match goal with
          | |- wellKeyed (if ?b then _ else _) => destruct b
          end;
          [apply assign_wellKeyed; [simpl; tauto|exact Hscore|exact Hw]|]).
  exact Hw.
Qed.

Lemma scanLine_wellKeyed (scores : record) (line : str) :
  wellKeyed scores -> wellKeyed (scanLine scores line).
Proof.
  intros Hw. unfold scanLine. destruct (String_match line lineRegex); [|exact Hw].
  apply assignCategory_wellKeyed; [apply roundToDouble_whole, digitsValue_nonneg|exact Hw].
Qed.

Lemma fold_scanLine_wellKeyed (lines : list str) : forall scores,
  wellKeyed scores -> wellKeyed (fold_left scanLine lines scores).
Proof.
  induction lines as [|line lines IH]; intros scores Hw; simpl; [exact Hw|].
  apply IH, scanLine_wellKeyed, Hw.
Qed.

(** X12. The extractor returns [null] when the text has no RATING header,
    and never an empty mapping. A mapping it returns has each property at
    most once, every property is one of [empathy], [clarity],
    [assertiveness], [persuasion], [activeListening], [objectionHandling],
    [closingAbility] and [flexibility], and every score is a non-negative
    integer or [Infinity]; [openMindedness] and [conflictManagement] are
    never set. *)
Theorem extractor_sets_known_keys_only (summaryAnalysis : str) :
  (String_match summaryAnalysis ratingRegex = None ->
   extractScoresFromSummary summaryAnalysis = None) /\
  (forall scores,
     extractScoresFromSummary summaryAnalysis = Some scores ->
     scores <> [] /\
     NoDup (map fst scores) /\
     Forall (fun kv => In (fst kv) extractorKeys /\ Report.wholeOrInfinite (snd kv)) scores /\
     property scores "openMindedness" = None /\
     property scores "conflictManagement" = None).
Proof.
  split.
  - intros H. unfold extractScoresFromSummary. rewrite H. reflexivity.
  - intros scores. unfold extractScoresFromSummary.
    destruct (String_match summaryAnalysis ratingRegex) as [m|]; [|discriminate].
    set (lines := List.filter nonEmpty (map trim (split (at_ m 1) newline))).
    pose proof (fold_scanLine_wellKeyed lines [] (conj (NoDup_nil_2) (Forall_nil_2 _)))
      as [Hnd Hall].
    destruct (fold_left scanLine lines []) as [|kv rest] eqn:E; [discriminate|].
    intros [= <-]. split; [discriminate|]. split; [exact Hnd|]. split; [exact Hall|].
    assert (Hno : forall key, ~ In key extractorKeys -> property (kv :: rest) key = None).
    { intros key Hkey. clear - Hall Hkey.
      induction Hall as [|[k v] l [Hk _] _ IH]; simpl; [reflexivity|].
      destruct (String.eqb k key) eqn:Ek; [|exact IH].
      apply String.eqb_eq in Ek. subst. contradiction. }
    split; apply Hno; simpl; intuition discriminate.
Qed.

End ExtractorShape.


(** ** [JSON.parse] of what [JSON.stringify] prints *)

Section StringifyFacts.
Import Js Json Stringify.

(** *** Strings *)

Lemma hexValue_hexDigit (d : N) : (d < 16)%N -> hexValue (hexDigit d) = Some d.
Proof.
  intros Hd. unfold hexValue, hexDigit, isDigit.
  destruct (d <? 10)%N eqn:E.
  - apply N.ltb_lt in E.
    replace (48 <=? 48 + d)%N with true by (symmetry; apply N.leb_le; lia).
    replace (48 + d <=? 57)%N with true by (symmetry; apply N.leb_le; lia).
    simpl. f_equal. lia.
  - apply N.ltb_ge in E.
    replace (87 + d <=? 57)%N with false by (symmetry; apply N.leb_gt; lia).
    rewrite andb_false_r.
    replace (87 + d <=? 70)%N with false by (symmetry; apply N.leb_gt; lia).
    rewrite andb_false_r.
    replace (97 <=? 87 + d)%N with true by (symmetry; apply N.leb_le; lia).
    replace (87 + d <=? 102)%N with true by (symmetry; apply N.leb_le; lia).
    simpl. f_equal. lia.
Qed.

Lemma hex4_escape (c : N) :
  (c < 65536)%N ->
  hex4 (hexDigit (c / 4096)) (hexDigit ((c / 256) mod 16))
       (hexDigit ((c / 16) mod 16)) (hexDigit (c mod 16)) = Some c.
Proof.
  intros Hc. unfold hex4.
  assert (H1 : (c / 4096 < 16)%N) by (apply N.Div0.div_lt_upper_bound; lia).
  assert (H2 : ((c / 256) mod 16 < 16)%N) by (apply N.mod_lt; lia).
  assert (H3 : ((c / 16) mod 16 < 16)%N) by (apply N.mod_lt; lia).
  assert (H4 : (c mod 16 < 16)%N) by (apply N.mod_lt; lia).
  rewrite !hexValue_hexDigit by assumption. f_equal.
  pose proof (N.div_mod c 16 ltac:(lia)).
  pose proof (N.div_mod (c / 16) 16 ltac:(lia)).
  pose proof (N.div_mod (c / 256) 16 ltac:(lia)).
  assert (E1 : (c / 16 / 16 = c / 256)%N) by (rewrite N.Div0.div_div; reflexivity).
  assert (E2 : (c / 256 / 16 = c / 4096)%N) by (rewrite N.Div0.div_div; reflexivity).
  assert (E3 : ((c / 4096) mod 16 = c / 4096)%N) by (apply N.mod_small; assumption).
  lia.
Qed.

Lemma stringBody_escape (c : N) (t acc : str) :
  (c < 65536)%N ->
  stringBody (unicodeEscape c ++ t) acc = stringBody t (acc ++ [c]).
Proof.
  intros Hc. unfold unicodeEscape. cbn [app stringBody].
  change (92 =? 34)%N with false. change (92 =? 92)%N with true.
  change (117 =? 34)%N with false. change (117 =? 92)%N with false.
  change (117 =? 47)%N with false. change (117 =? 98)%N with false.
  change (117 =? 102)%N with false. change (117 =? 110)%N with false.
  change (117 =? 114)%N with false. change (117 =? 116)%N with false.
  change (117 =? 117)%N with true. cbv iota.
  rewrite hex4_escape by exact Hc. reflexivity.
Qed.

Lemma stringBody_short (e x : N) (t acc : str) :
  In (e, x) [(34, 34); (92, 92); (98, 8); (102, 12); (110, 10); (114, 13); (116, 9)]%N ->
  stringBody (92%N :: e :: t) acc = stringBody t (acc ++ [x]).
Proof.
  intros H. simpl in H.
  repeat (destruct H as [[= <- <-]|H]; [reflexivity|]). destruct H.
Qed.

Lemma stringBody_plain (c : N) (t acc : str) :
  (32 <= c)%N -> c <> 34%N -> c <> 92%N ->
  stringBody (c :: t) acc = stringBody t (acc ++ [c]).
Proof.
  intros H1 H2 H3. cbn [stringBody].
  replace (c =? 34)%N with false by (symmetry; apply N.eqb_neq; assumption).
  replace (c =? 92)%N with false by (symmetry; apply N.eqb_neq; assumption).
  replace (c <? 32)%N with false by (symmetry; apply N.ltb_ge; assumption).
  reflexivity.
Qed.

(** The case of a character that has a short escape. *)
Local Ltac short c k Hstep s' :=
  let E := fresh "E" in
  destruct (c =? k)%N eqn:E;
  [ apply N.eqb_eq in E; subst c;
    rewrite <- app_assoc; cbn [app];
    erewrite stringBody_short by (simpl; tauto);
    apply (Hstep s' ltac:(lia) [_])
  | ].

(** The body of a quoted string reads back as the string. *)
Lemma stringBody_quoteBody (n : nat) : forall s acc rest,
  (length s <= n)%nat ->
  stringBody (quoteBody s ++ 34%N :: rest) acc = Some (acc ++ s, rest).
Proof.
  induction n as [|n IH]; intros s acc rest Hn.
  { destruct s; [|simpl in Hn; lia]. simpl. rewrite app_nil_r. reflexivity. }
  destruct s as [|c s']; [simpl; rewrite app_nil_r; reflexivity|].
  simpl in Hn.
  assert (Hstep : forall t, (length t <= n)%nat -> forall pre,
            stringBody (quoteBody t ++ 34%N :: rest) ((acc ++ pre)) = Some (acc ++ pre ++ t, rest)).
  { intros t Ht pre. rewrite IH by exact Ht. rewrite <- app_assoc. reflexivity. }
  cbn [quoteBody].
  short c 8%N Hstep s'. short c 9%N Hstep s'. short c 10%N Hstep s'.
  short c 12%N Hstep s'. short c 13%N Hstep s'. short c 34%N Hstep s'.
  short c 92%N Hstep s'.
  repeat match goal with
         | H : (c =? _)%N = false |- _ => apply N.eqb_neq in H
         end.
  destruct (c <? 32)%N eqn:Hlow.
  { apply N.ltb_lt in Hlow. rewrite <- app_assoc, stringBody_escape by lia.
    apply (Hstep s' ltac:(lia) [c]). }
  apply N.ltb_ge in Hlow.
  unfold isHighSurrogate, isLowSurrogate.
  destruct ((55296 <=? c)%N && (c <=? 56319)%N) eqn:Hhigh.
  { apply andb_prop in Hhigh as [H1 H2]. apply N.leb_le in H1, H2.
    destruct s' as [|d s''].
    - rewrite stringBody_escape by lia. apply (Hstep [] ltac:(simpl; lia) [c]).
    - destruct ((56320 <=? d)%N && (d <=? 57343)%N) eqn:Hpair.
      + apply andb_prop in Hpair as [H3 H4]. apply N.leb_le in H3, H4.
        cbn [app]. rewrite stringBody_plain by lia. rewrite stringBody_plain by lia.
        rewrite <- app_assoc. apply (Hstep s'' ltac:(simpl in Hn; lia) [c; d]).
      + rewrite <- app_assoc, stringBody_escape by lia.
        apply (Hstep (d :: s'') ltac:(lia) [c]). }
  destruct ((56320 <=? c)%N && (c <=? 57343)%N) eqn:Hlowsur.
  { apply andb_prop in Hlowsur as [H1 H2]. apply N.leb_le in H1, H2.
    rewrite <- app_assoc, stringBody_escape by lia.
    apply (Hstep s' ltac:(lia) [c]). }
  cbn [app]. rewrite stringBody_plain by (try lia; assumption).
  apply (Hstep s' ltac:(lia) [c]).
Qed.

(** *** Numbers *)

Lemma digitsValue_snoc (ds : str) (d : N) :
  digitsValue (ds ++ [d]) = digitsValue ds * 10 + Z.of_N (d - 48).
Proof. unfold digitsValue. rewrite fold_left_app. reflexivity. Qed.

Lemma isDigit_digit (r : N) : (r < 10)%N -> isDigit (48 + r) = true.
Proof.
  intros Hr. unfold isDigit. apply andb_true_intro. split; apply N.leb_le; lia.
Qed.

Lemma decimalFrom_spec (fuel : nat) : forall n acc,
  (n < 10 ^ N.of_nat (S fuel))%N ->
  exists ds,
    decimalFrom (S fuel) n acc = ds ++ acc /\
    Forall (fun c => isDigit c = true) ds /\
    digitsValue ds = Z.of_N n /\
    (n = 0%N -> ds = [48%N]) /\
    ((0 < n)%N -> exists c t, ds = c :: t /\ c <> 48%N).
Proof.
  induction fuel as [|fuel IH]; intros n acc Hn.
  - assert (Hlt : (n < 10)%N) by exact Hn.
    cbn [decimalFrom]. apply N.ltb_lt in Hlt as Hb. rewrite Hb.
    rewrite N.mod_small by exact Hlt.
    exists [(48 + n)%N]. split; [reflexivity|].
    split; [constructor; [apply isDigit_digit; assumption|constructor]|].
    split; [unfold digitsValue; simpl; lia|].
    split; [intros ->; reflexivity|].
    intros Hpos. exists (48 + n)%N, []. split; [reflexivity|lia].
  - assert (Hd : (n mod 10 < 10)%N) by (apply N.mod_lt; lia).
    assert (Hdigit : isDigit (48 + n mod 10) = true) by (apply isDigit_digit, Hd).
    change (decimalFrom (S (S fuel)) n acc) with
      (if (n <? 10)%N then (48 + n mod 10)%N :: acc
       else decimalFrom (S fuel) (n / 10) ((48 + n mod 10)%N :: acc)).
    destruct (n <? 10)%N eqn:Hb.
    + apply N.ltb_lt in Hb. rewrite N.mod_small by exact Hb.
      exists [(48 + n)%N]. split; [reflexivity|].
      split; [constructor; [|constructor]; unfold isDigit;
              apply andb_true_intro; split; apply N.leb_le; lia|].
      split; [unfold digitsValue; simpl; lia|].
      split; [intros ->; reflexivity|].
      intros Hpos. exists (48 + n)%N, []. split; [reflexivity|lia].
    + apply N.ltb_ge in Hb.
      destruct (IH (n / 10)%N ((48 + n mod 10)%N :: acc)) as (ds & Hrun & Hall & Hval & _ & Hhead).
      { apply N.Div0.div_lt_upper_bound.
        replace (10 * 10 ^ N.of_nat (S fuel))%N with (10 ^ N.of_nat (S (S fuel)))%N; [exact Hn|].
        rewrite (Nat2N.inj_succ (S fuel)), N.pow_succ_r'. reflexivity. }
      exists (ds ++ [(48 + n mod 10)%N]).
      split; [rewrite Hrun, <- app_assoc; reflexivity|].
      split; [apply Forall_app; split; [exact Hall|constructor; [exact Hdigit|constructor]]|].
      split.
      { rewrite digitsValue_snoc, Hval.
        pose proof (N.div_mod n 10 ltac:(lia)) as Hdm.
        clear - Hdm Hd.
        remember (n / 10)%N as q. remember (n mod 10)%N as r. clear Heqq Heqr. lia. }
      split; [intros ->; simpl in Hb; lia|].
      intros _. destruct Hhead as (c & t & -> & Hc).
      { apply N.div_str_pos. lia. }
      exists c, (t ++ [(48 + n mod 10)%N]). split; [reflexivity|exact Hc].
Qed.

Lemma decimal_spec (n : N) :
  Forall (fun c => isDigit c = true) (decimal n) /\
  digitsValue (decimal n) = Z.of_N n /\
  (n = 0%N -> decimal n = [48%N]) /\
  ((0 < n)%N -> exists c t, decimal n = c :: t /\ c <> 48%N).
Proof.
  unfold decimal.
  destruct (decimalFrom_spec (N.to_nat (N.size n)) n []) as (ds & Hrun & H).
  - rewrite Nat2N.inj_succ, N2Nat.id, N.pow_succ_r'.
    pose proof (N.size_gt n).
    assert ((2 ^ N.size n <= 10 ^ N.size n)%N) by (apply N.pow_le_mono_l; lia).
    lia.
  - rewrite Hrun, app_nil_r. exact H.
Qed.

Lemma digits_run (ds : str) : forall acc rest,
  Forall (fun c => isDigit c = true) ds ->
  closes rest ->
  digits (ds ++ rest) acc = (acc ++ ds, rest).
Proof.
  induction ds as [|d ds IH]; intros acc rest Hall Hrest.
  - rewrite app_nil_r. destruct rest as [|c rest]; [reflexivity|].
    simpl. destruct Hrest as [-> _]. reflexivity.
  - inversion Hall as [|? ? Hd Hds]; subst. cbn [app digits]. rewrite Hd.
    rewrite IH by assumption. rewrite <- app_assoc. reflexivity.
Qed.

Lemma expect_same (c : N) (t : str) : expect c (c :: t) = Some t.
Proof. simpl. rewrite N.eqb_refl. reflexivity. Qed.

Lemma expect_other (c x : N) (t : str) : x <> c -> expect c (x :: t) = None.
Proof. intros H. simpl. apply N.eqb_neq in H. rewrite H. reflexivity. Qed.

Lemma expect_closes (c : N) (rest : str) :
  closes rest -> In c [46; 101; 69]%N -> expect c rest = None.
Proof.
  destruct rest as [|x rest]; [reflexivity|]. intros (_ & H1 & H2 & H3) Hc.
  apply expect_other. simpl in Hc. intuition congruence.
Qed.

Lemma isDigit_range (c : N) : isDigit c = true -> (48 <= c <= 57)%N.
Proof.
  unfold isDigit. intros H. apply andb_prop in H as [H1 H2].
  apply N.leb_le in H1, H2. lia.
Qed.

Lemma decimal_cases (n : N) :
  (n = 0%N /\ decimal n = [48%N]) \/
  (exists c t, decimal n = c :: t /\ c <> 48%N /\ (48 <= c <= 57)%N).
Proof.
  destruct (decimal_spec n) as (Hall & _ & Hzero & Hpos).
  destruct (N.eq_dec n 0%N) as [Hn|Hn]; [left; auto|right].
  destruct Hpos as (c & t & Hc & Hne); [lia|].
  exists c, t. rewrite Hc in Hall. inversion Hall as [|? ? Hd _]; subst.
  split; [exact Hc|]. split; [exact Hne|]. apply isDigit_range, Hd.
Qed.

(** The integer part of a literal, then no fraction and no exponent. *)
Local Ltac read_digits n Hrest :=
  let Hall := fresh "Hall" in
  let Hval := fresh "Hval" in
  let Hd := fresh "Hd" in
  let c := fresh "c" in
  let t := fresh "t" in
  let Hne := fresh "Hne" in
  destruct (decimal_spec n) as (Hall & Hval & _ & _);
  destruct (decimal_cases n) as [[-> Hd]|(c & t & Hd & Hne & _)];
  [ rewrite Hd; cbn [app expect]; change (48 =? 48)%N with true; cbv iota;
    rewrite !expect_closes by (assumption || (simpl; tauto));
    reflexivity
  | rewrite Hd in *; cbn [app]; rewrite expect_other by exact Hne;
    change (c :: t ++ ?r) with ((c :: t) ++ r);
    rewrite digits_run by assumption; cbn [app];
    rewrite !expect_closes by (assumption || (simpl; tauto));
    rewrite app_nil_r, Hval; reflexivity ].

(** The digits of a natural number read back as that number. *)
Lemma number_decimal (n : N) (rest : str) :
  closes rest ->
  number (decimal n ++ rest) = Some (JNumber (Z.of_N n) 0, rest).
Proof.
  intros Hrest. unfold number.
  assert (Hminus : expect 45 (decimal n ++ rest) = None).
  { destruct (decimal_cases n) as [[_ ->]|(c & t & -> & _ & Hc)];
      apply expect_other; lia. }
  rewrite Hminus. read_digits n Hrest.
Qed.

Lemma number_negative (n : N) (rest : str) :
  closes rest ->
  number (45%N :: decimal n ++ rest) = Some (JNumber (- Z.of_N n) 0, rest).
Proof.
  intros Hrest. unfold number. cbn [expect]. change (45 =? 45)%N with true. cbv iota.
  read_digits n Hrest.
Qed.

(** *** Values *)

Variable Number_toString : Z -> Z -> str.

Local Abbreviation print := (JSON_stringify Number_toString).

Lemma printNumber_integral (m e : Z) (rest : str) :
  (e =? 0) && (Z.abs m <=? 2 ^ 53) = true ->
  closes rest ->
  number (printNumber Number_toString m e ++ rest) = Some (JNumber m e, rest) /\
  exists c t, printNumber Number_toString m e = c :: t /\ (c = 45%N \/ (48 <= c <= 57)%N).
Proof.
  intros Hint Hrest. unfold printNumber. rewrite Hint.
  apply andb_prop in Hint as [He _]. apply Z.eqb_eq in He. subst e.
  destruct (m <? 0) eqn:Hneg.
  - apply Z.ltb_lt in Hneg. cbn [app]. split.
    + rewrite number_negative by exact Hrest. do 3 f_equal. lia.
    + eexists _, _. split; [reflexivity|]. left. reflexivity.
  - apply Z.ltb_ge in Hneg. cbn [app]. split.
    + rewrite number_decimal by exact Hrest. do 3 f_equal. lia.
    + destruct (decimal_cases (Z.to_N (Z.abs m))) as [[_ ->]|(c & t & -> & _ & Hc)];
        eexists _, _; (split; [reflexivity|]); right; lia.
Qed.

(** A text that starts a number is handed to [number]. *)
Lemma value_number (fuel : nat) (c : N) (t : str) :
  c = 45%N \/ (48 <= c <= 57)%N ->
  value (S fuel) (c :: t) = ofOption (number (c :: t)).
Proof.
  intros Hc. cbn [value skipSpace].
  assert (Hs : isJsonSpace c = false).
  { unfold isJsonSpace. repeat (apply orb_false_intro); apply N.eqb_neq; lia. }
  rewrite Hs. cbv zeta.
  rewrite !expect_other by lia.
  assert (Hw : forall w x, (x <> c) -> startsWith (c :: t) (x :: w) = false).
  { intros w x Hx. cbn [startsWith]. apply N.eqb_neq in Hx. rewrite Hx. reflexivity. }
  change (u "true") with (116%N :: u "rue"). change (u "false") with (102%N :: u "alse").
  change (u "null") with (110%N :: u "ull").
  rewrite !Hw by lia. reflexivity.
Qed.

Lemma print_head (v : json) :
  integral v = true ->
  exists c t, print v = c :: t /\ isJsonSpace c = false /\ c <> 93%N /\ c <> 125%N.
Proof.
  intros Hint. destruct v as [ |[|]|m e|s|els|ms]; cbn [JSON_stringify];
    try (eexists _, _; split; [reflexivity|]; repeat split; discriminate).
  destruct (printNumber_integral m e [] Hint I) as (_ & c & t & -> & Hc).
  exists c, t. split; [reflexivity|].
  unfold isJsonSpace. split; [repeat (apply orb_false_intro); apply N.eqb_neq; lia|lia].
Qed.

Lemma closes_separator (c : N) (t : str) : In c [44; 93; 125]%N -> closes (c :: t).
Proof.
  intros H. simpl in H. destruct H as [<-|[<-|[<-|[]]]]; repeat split; discriminate.
Qed.

Lemma skipSpace_head (c : N) (t : str) : isJsonSpace c = false -> skipSpace (c :: t) = c :: t.
Proof. intros H. simpl. rewrite H. reflexivity. Qed.

Local Abbreviation sizes := (fold_right (fun e n => S (size e + n)) O).
Local Abbreviation sizesOf :=
  (fold_right (fun (kv : str * json) n => S (size (snd kv) + n)) O).

(** The elements of an array that is not empty. *)
Lemma elements_print (els : list json) :
  (forall e, In e els -> forall f rest, (size e <= f)%nat -> closes rest ->
     value f (print e ++ rest) = Ok e rest) ->
  els <> [] ->
  forall f acc rest, (sizes els <= f)%nat ->
    elements f (join (map print els) [44%N] ++ 93%N :: rest) acc = Ok (JArray (acc ++ els)) rest.
Proof.
  induction els as [|e els IH]; intros Hval Hne f acc rest Hf; [congruence|].
  cbn [fold_right] in Hf. destruct f as [|f]; [lia|].
  cbn [elements].
  destruct els as [|e' els].
  - cbn [map join]. rewrite Hval; [|left; reflexivity|lia|apply closes_separator; simpl; tauto].
    rewrite skipSpace_head by reflexivity.
    rewrite expect_other by discriminate. rewrite expect_same. reflexivity.
  - change (join (map print (e :: e' :: els)) [44%N])
      with (print e ++ [44%N] ++ join (map print (e' :: els)) [44%N]).
    rewrite <- !app_assoc. cbn [app].
    rewrite Hval; [|left; reflexivity|lia|apply closes_separator; simpl; tauto].
    rewrite skipSpace_head by reflexivity. rewrite expect_same.
    rewrite IH; [rewrite <- app_assoc; reflexivity| |discriminate|lia].
    intros x Hx. apply Hval. right. exact Hx.
Qed.

(** The members of an object that is not empty. *)
Lemma members_print (ms : list (str * json)) :
  (forall kv, In kv ms -> forall f rest, (size (snd kv) <= f)%nat -> closes rest ->
     value f (print (snd kv) ++ rest) = Ok (snd kv) rest) ->
  ms <> [] ->
  forall f acc rest, (sizesOf ms <= f)%nat ->
    members f
      (join (map (fun kv => quote (fst kv) ++ 58%N :: print (snd kv)) ms) [44%N]
       ++ 125%N :: rest) acc
    = Ok (JObject (acc ++ ms)) rest.
Proof.
  induction ms as [|[k v] ms IH]; intros Hval Hne f acc rest Hf; [congruence|].
  cbn [fold_right snd] in Hf. destruct f as [|f]; [lia|].
  assert (Hkey : forall t,
            members (S f) (quote k ++ 58%N :: print v ++ t) acc =
            match value f (print v ++ t) with
            | Ok v' rest'' =>
                match expect 44 (skipSpace rest''), expect 125 (skipSpace rest'') with
                | Some t', _ => members f t' (acc ++ [(k, v')])
                | None, Some t' => Ok (JObject (acc ++ [(k, v')])) t'
                | None, None => Invalid
                end
            | Invalid => Invalid
            | OutOfFuel => OutOfFuel
            end).
  { intros t. unfold quote. cbn [app members].
    rewrite skipSpace_head by reflexivity. rewrite expect_same.
    rewrite <- app_assoc. cbn [app].
    rewrite (stringBody_quoteBody (length k)) by lia.
    rewrite skipSpace_head by reflexivity. rewrite expect_same. reflexivity. }
  destruct ms as [|kv' ms].
  - cbn [map join fst snd]. rewrite <- !app_assoc, <- app_comm_cons. rewrite Hkey.
    rewrite (Hval (k, v)); [|left; reflexivity|simpl; lia|apply closes_separator; simpl; tauto].
    rewrite skipSpace_head by reflexivity.
    rewrite expect_other by discriminate. rewrite expect_same. reflexivity.
  - change (join (map (fun kv => quote (fst kv) ++ 58%N :: print (snd kv))
                       ((k, v) :: kv' :: ms)) [44%N])
      with ((quote k ++ 58%N :: print v) ++ [44%N]
            ++ join (map (fun kv => quote (fst kv) ++ 58%N :: print (snd kv)) (kv' :: ms))
                 [44%N]).
    rewrite <- !app_assoc, <- app_comm_cons. rewrite Hkey. cbn [app].
    rewrite (Hval (k, v)); [|left; reflexivity|simpl; lia|apply closes_separator; simpl; tauto].
    rewrite skipSpace_head by reflexivity. rewrite expect_same.
    rewrite IH; [rewrite <- app_assoc; reflexivity| |discriminate|lia].
    intros x Hx. apply Hval. right. exact Hx.
Qed.

Lemma sizes_In (els : list json) (e : json) : In e els -> (size e < S (sizes els))%nat.
Proof.
  induction els as [|x els IH]; simpl; [tauto|].
  intros [->|H]; [lia|]. apply IH in H. lia.
Qed.

Lemma sizesOf_In (ms : list (str * json)) (kv : str * json) :
  In kv ms -> (size (snd kv) < S (sizesOf ms))%nat.
Proof.
  induction ms as [|x ms IH]; simpl; [tauto|].
  intros [->|H]; [lia|]. apply IH in H. lia.
Qed.

(** A printed value reads back as the value, with any fuel from its size
    on. *)
Lemma value_print (n : nat) : forall v,
  (size v <= n)%nat -> integral v = true ->
  forall f rest, (size v <= f)%nat -> closes rest ->
    value f (print v ++ rest) = Ok v rest.
Proof.
  induction n as [|n IH]; intros v Hn Hint f rest Hf Hrest.
  { destruct v; simpl in Hn; lia. }
  destruct v as [ |[|]|m e|s|els|ms].
  - destruct f as [|f]; [simpl in Hf; lia|]. destruct rest; reflexivity.
  - destruct f as [|f]; [simpl in Hf; lia|]. destruct rest; reflexivity.
  - destruct f as [|f]; [simpl in Hf; lia|]. destruct rest; reflexivity.
  - destruct f as [|f]; [simpl in Hf; lia|].
    cbn [JSON_stringify integral] in *.
    destruct (printNumber_integral m e rest Hint Hrest) as (Hnum & c & t & Hp & Hc).
    rewrite Hp in *. cbn [app] in *. rewrite value_number by exact Hc.
    rewrite Hnum. reflexivity.
  - destruct f as [|f]; [simpl in Hf; lia|].
    cbn [JSON_stringify]. unfold quote. cbn [app value].
    rewrite skipSpace_head by reflexivity. cbv zeta.
    rewrite !expect_other by discriminate. rewrite expect_same.
    rewrite <- app_assoc. cbn [app].
    rewrite (stringBody_quoteBody (length s)) by lia. reflexivity.
  - cbn [size] in Hn, Hf. cbn [integral] in Hint.
    destruct f as [|f]; [lia|].
    cbn [JSON_stringify]. rewrite <- !app_assoc.
    cbn [app value].
    rewrite skipSpace_head by reflexivity. cbv zeta.
    rewrite !expect_other by discriminate. rewrite expect_same.
    destruct els as [|e els].
    + reflexivity.
    + assert (Hsub : forall x, In x (e :: els) -> integral x = true).
      { rewrite forallb_forall in Hint. exact Hint. }
      destruct (print_head e (Hsub e (or_introl eq_refl))) as (c & t & Hp & Hsp & Hc & _).
      assert (Hnot : expect 93
                (skipSpace (join (map print (e :: els)) [44%N] ++ 93%N :: rest)) = None).
      { cbn [map join]. destruct (map print els); rewrite Hp; cbn [app];
          rewrite skipSpace_head by exact Hsp; apply expect_other; exact Hc. }
      change ([93%N] ++ rest) with (93%N :: rest). rewrite Hnot.
      apply (elements_print (e :: els)); [|discriminate|lia].
      intros x Hx f' rest' Hf' Hrest'. apply IH; auto.
      pose proof (sizes_In _ _ Hx). lia.
  - cbn [size] in Hn, Hf. cbn [integral] in Hint.
    destruct f as [|f]; [lia|].
    cbn [JSON_stringify]. rewrite <- !app_assoc.
    cbn [app value].
    rewrite skipSpace_head by reflexivity. cbv zeta.
    rewrite expect_same.
    destruct ms as [|[k v] ms].
    + reflexivity.
    + assert (Hsub : forall kv, In kv ((k, v) :: ms) -> integral (snd kv) = true).
      { rewrite forallb_forall in Hint. exact Hint. }
      assert (Hnot : expect 125
                (skipSpace
                   (join (map (fun kv => quote (fst kv) ++ 58%N :: print (snd kv))
                            ((k, v) :: ms)) [44%N] ++ 125%N :: rest)) = None).
      { cbn [map join fst]. unfold quote.
        destruct (map _ ms); cbn [app]; reflexivity. }
      change ([125%N] ++ rest) with (125%N :: rest). rewrite Hnot.
      apply (members_print ((k, v) :: ms)); [|discriminate|lia].
      intros x Hx f' rest' Hf' Hrest'. apply IH; auto.
      pose proof (sizesOf_In _ _ Hx). lia.
Qed.

(** With fuel for twice the text, the result is the one of any run that
    did not run out. *)
Lemma value_add_fuel (extra fuel : nat) (s : str) (r : result json) :
  value fuel s = r -> r <> OutOfFuel -> value (fuel + extra) s = r.
Proof.
  induction extra as [|extra IH]; intros H Hr; [rewrite Nat.add_0_r; exact H|].
  rewrite Nat.add_succ_r. apply (proj1 (value_more_fuel _)); auto.
Qed.

Lemma value_any_fuel (f F : nat) (s : str) (v : json) (rest : str) :
  value f s = Ok v rest -> (2 * length s < F)%nat -> value F s = Ok v rest.
Proof.
  intros H HF. destruct (Nat.le_gt_cases f F) as [Hle|Hgt].
  - replace F with (f + (F - f))%nat by lia. apply value_add_fuel; [exact H|discriminate].
  - pose proof (proj1 (value_fuel F) s HF) as Hne.
    rewrite <- H. replace f with (F + (f - F))%nat by lia.
    symmetry. apply value_add_fuel; [reflexivity|exact Hne].
Qed.

(** [JSON.parse (JSON.stringify v)] is [v]. *)
Lemma JSON_parse_stringify (v : json) :
  integral v = true -> JSON_parse (print v) = Some v.
Proof.
  intros Hint. unfold JSON_parse, parseText.
  pose proof (value_print (size v) v (le_n _) Hint (size v) [] (le_n _) I) as H.
  rewrite app_nil_r in H.
  rewrite (value_any_fuel _ _ _ _ _ H) by lia. reflexivity.
Qed.

End StringifyFacts.

(** ** The session store and the usage limits *)

Section SessionFacts.
Import Js Json Stringify Session.

Variable Number_toString : Z -> Z -> str.

Lemma request_served (w : namespace) : faults w = [] -> request w = (false, w).
Proof. intros H. unfold request. rewrite H. reflexivity. Qed.

Lemma getSessionData_served (sessionId key : str) (w : namespace) :
  faults w = [] ->
  getSessionData sessionId key w =
    (match entries w !! dataKey sessionId key with
     | Some text =>
         match JSON_parse text with
         | Some JNull => None
         | Some data => Some data
         | None => None
         end
     | None => None
     end, w).
Proof.
  intros H. unfold getSessionData, kvGet. rewrite (request_served w H).
  destruct (entries w !! dataKey sessionId key); reflexivity.
Qed.

Lemma setSessionData_served (sessionId key : str) (data : json) (w : namespace) :
  faults w = [] ->
  setSessionData Number_toString sessionId key data w =
    (Done tt,
     {| entries := <[dataKey sessionId key := JSON_stringify Number_toString data]> (entries w);
        faults := [] |}).
Proof.
  intros H. unfold setSessionData, kvPut. rewrite (request_served w H), H. reflexivity.
Qed.

(** X13. On a namespace that serves its requests, what [setSessionData]
    has stored under a session and a key is what [getSessionData] returns
    for them, the data under any other key of the namespace is left as it
    was, and after [deleteSessionData] the data reads [null]. The data is
    any value but [null] whose numbers are integers that a double holds
    exactly. *)
Theorem session_data_round_trip (sessionId key : str) (data : json) (w : namespace)
    (Hserved : faults w = [])
    (Hintegral : integral data = true)
    (Hdata : data <> JNull) :
  let stored := snd (setSessionData Number_toString sessionId key data w) in
  fst (setSessionData Number_toString sessionId key data w) = Done tt /\
  getSessionData sessionId key stored = (Some data, stored) /\
  (forall sessionId' key',
     dataKey sessionId' key' <> dataKey sessionId key ->
     fst (getSessionData sessionId' key' stored) = fst (getSessionData sessionId' key' w)) /\
  fst (getSessionData sessionId key (snd (deleteSessionData sessionId key stored))) = None.
Proof.
  intros stored. subst stored. rewrite (setSessionData_served _ _ _ _ Hserved). cbn [fst snd].
  split; [reflexivity|]. split; [|split].
  - rewrite getSessionData_served by reflexivity. cbn [entries].
    rewrite lookup_insert_eq, (JSON_parse_stringify Number_toString data Hintegral).
    destruct data; congruence.
  - intros sessionId' key' Hne.
    rewrite !getSessionData_served by (reflexivity || assumption). cbn [entries fst].
    rewrite lookup_insert_ne by congruence. reflexivity.
  - unfold deleteSessionData, kvDelete. rewrite request_served by reflexivity.
    cbn [snd entries faults].
    rewrite getSessionData_served by reflexivity. cbn [entries fst].
    rewrite lookup_delete_eq. reflexivity.
Qed.

End SessionFacts.

Section UsageFacts.
Import Js Json Stringify Session Usage.

Variable Number_toString : Z -> Z -> str.
Variable today : str.

Local Abbreviation holds' := (holds Number_toString).
Local Abbreviation settled' := (settled Number_toString today).
Local Abbreviation getUsageLimits' := (getUsageLimits Number_toString today).
Local Abbreviation incrementScenarioUsage' := (incrementScenarioUsage Number_toString today).
Local Abbreviation canStartScenario' := (canStartScenario Number_toString today).
Local Abbreviation setPremiumStatus' := (setPremiumStatus Number_toString today).
Local Abbreviation store' := (store Number_toString).

Lemma ofJson_toJson (l : UsageLimits) :
  isSafeInteger (dailyScenariosUsed l) = true -> isSafeInteger (dailyLimit l) = true ->
  ofJson (toJson l) = Some l.
Proof.
  intros H1 H2. destruct l as [used limit premium date]. cbn in H1, H2.
  unfold toJson, ofJson. cbn [dailyScenariosUsed dailyLimit isPremium resetDate].
  rewrite H1, H2. reflexivity.
Qed.

Lemma integral_toJson (l : UsageLimits) :
  isSafeInteger (dailyScenariosUsed l) = true -> isSafeInteger (dailyLimit l) = true ->
  integral (toJson l) = true.
Proof.
  unfold isSafeInteger. intros H1 H2. unfold toJson. cbn [integral forallb snd].
  apply Z.ltb_lt in H1, H2.
  rewrite (proj2 (Z.leb_le _ _)), (proj2 (Z.leb_le _ _)) by lia. reflexivity.
Qed.

Lemma limitOf_safe (premium : bool) : isSafeInteger (limitOf premium) = true.
Proof. destruct premium; reflexivity. Qed.

(** Reading the limits a store holds. *)
Lemma read_held (resourceId : str) (w : namespace) (l : UsageLimits) :
  faults w = [] -> holds' w resourceId (Some l) ->
  isSafeInteger (dailyScenariosUsed l) = true -> isSafeInteger (dailyLimit l) = true ->
  getSessionData resourceId (limitsKey resourceId) w = (Some (toJson l), w).
Proof.
  intros Hf Hh H1 H2. rewrite getSessionData_served by exact Hf.
  unfold holds in Hh. rewrite Hh. cbn [option_map].
  rewrite JSON_parse_stringify by (apply integral_toJson; assumption). reflexivity.
Qed.

Lemma read_nothing (resourceId : str) (w : namespace) :
  faults w = [] -> holds' w resourceId None ->
  getSessionData resourceId (limitsKey resourceId) w = (None, w).
Proof.
  intros Hf Hh. rewrite getSessionData_served by exact Hf.
  unfold holds in Hh. rewrite Hh. reflexivity.
Qed.

(** Storing limits on a store that serves its requests. *)
Lemma store_served (resourceId : str) (l : UsageLimits) (w : namespace) :
  faults w = [] ->
  exists w', store' resourceId l w = (Done tt, w') /\
             faults w' = [] /\ holds' w' resourceId (Some l) /\
             forall k, k <> dataKey resourceId (limitsKey resourceId) ->
                       entries w' !! k = entries w !! k.
Proof.
  intros Hf. unfold store. rewrite setSessionData_served by exact Hf.
  eexists. split; [reflexivity|]. split; [reflexivity|]. split.
  - unfold holds. cbn [entries]. rewrite lookup_insert_eq. reflexivity.
  - intros k Hk. cbn [entries]. rewrite lookup_insert_ne by congruence. reflexivity.
Qed.

(** On a settled store [getUsageLimits] returns the limits held and
    writes nothing. *)
Lemma getUsageLimits_settled (resourceId : str) (w : namespace) (l : UsageLimits) :
  settled' w resourceId l -> getUsageLimits' resourceId w = (Reply l, w).
Proof.
  intros (Hf & Hh & Hdate & Hlimit & Hused). unfold getUsageLimits.
  assert (Hsafe : isSafeInteger (dailyLimit l) = true)
    by (rewrite Hlimit; apply limitOf_safe).
  rewrite (read_held resourceId w l Hf Hh Hused Hsafe). cbn [present toJson truthy].
  fold (toJson l). rewrite (ofJson_toJson l Hused Hsafe), Hdate.
  unfold str_eqb. rewrite decide_True by reflexivity. cbn [negb].
  rewrite Hlimit. destruct (isPremium l); reflexivity.
Qed.

(** One more scenario for a resource that is not premium. *)
Lemma increment_settled (resourceId : str) (w : namespace) (l : UsageLimits) :
  settled' w resourceId l -> isPremium l = false ->
  isSafeInteger (dailyScenariosUsed l + 1) = true ->
  exists w',
    incrementScenarioUsage' resourceId w
      = (Reply {| dailyScenariosUsed := dailyScenariosUsed l + 1;
                  dailyLimit := dailyLimit l;
                  isPremium := isPremium l; resetDate := resetDate l |}, w') /\
    settled' w' resourceId
      {| dailyScenariosUsed := dailyScenariosUsed l + 1; dailyLimit := dailyLimit l;
         isPremium := isPremium l; resetDate := resetDate l |}.
Proof.
  intros Hs Hp Hnext. unfold incrementScenarioUsage.
  rewrite (getUsageLimits_settled resourceId w l Hs), Hp.
  destruct Hs as (Hf & Hh & Hdate & Hlimit & Hused).
  destruct (store_served resourceId
              {| dailyScenariosUsed := dailyScenariosUsed l + 1; dailyLimit := dailyLimit l;
                 isPremium := false; resetDate := resetDate l |} w Hf)
    as (w' & Hstore & Hf' & Hh' & _).
  fold (store' resourceId) in *. rewrite Hstore.
  exists w'. split; [reflexivity|].
  repeat split; try assumption. cbn. rewrite Hp in Hlimit. exact Hlimit.
Qed.

(** The first call for a resource. *)
Lemma getUsageLimits_first (resourceId : str) (w : namespace) :
  faults w = [] -> holds' w resourceId None ->
  exists w',
    getUsageLimits' resourceId w = (Reply (fallbackLimits today), w') /\
    settled' w' resourceId (fallbackLimits today).
Proof.
  intros Hf Hh. unfold getUsageLimits.
  rewrite (read_nothing resourceId w Hf Hh). cbn [present]. unfold storeAndReturn.
  destruct (store_served resourceId (fallbackLimits today) w Hf) as (w' & Hstore & Hf' & Hh' & _).
  fold (store' resourceId) in *. unfold fallbackLimits in Hstore at 1. rewrite Hstore.
  exists w'. split; [reflexivity|].
  repeat split; assumption.
Qed.

Lemma canStartScenario_settled (resourceId : str) (w : namespace) (l : UsageLimits) :
  settled' w resourceId l ->
  exists d,
    canStartScenario' resourceId w = (Reply d, w) /\
    limits d = l /\
    allowed d = isPremium l || (dailyScenariosUsed l <? dailyLimit l).
Proof.
  intros Hs. unfold canStartScenario.
  rewrite (getUsageLimits_settled resourceId w l Hs).
  destruct (isPremium l); [eexists; split; [reflexivity|]; split; reflexivity|].
  rewrite Z.leb_antisym.
  destruct (dailyScenariosUsed l <? dailyLimit l); cbn [negb orb];
    eexists; (split; [reflexivity|]); split; reflexivity.
Qed.

Lemma incrementTimes_settled (n : nat) : forall (resourceId : str) (w : namespace) (l : UsageLimits),
  settled' w resourceId l -> isPremium l = false ->
  0 <= dailyScenariosUsed l -> dailyScenariosUsed l + Z.of_nat n < 2 ^ 53 ->
  settled' (incrementTimes Number_toString today n resourceId w) resourceId
    {| dailyScenariosUsed := dailyScenariosUsed l + Z.of_nat n; dailyLimit := dailyLimit l;
       isPremium := false; resetDate := resetDate l |}.
Proof.
  induction n as [|n IH]; intros resourceId w l Hs Hp H0 Hn.
  - cbn [incrementTimes]. rewrite Z.add_0_r. rewrite <- Hp. destruct l. exact Hs.
  - cbn [incrementTimes].
    destruct (increment_settled resourceId w l Hs Hp) as (w' & Hrun & Hs');
      [apply Z.ltb_lt; lia|].
    fold (incrementScenarioUsage' resourceId w). rewrite Hrun. cbn [snd].
    specialize (IH resourceId w' _ Hs' Hp). cbn in IH.
    replace (dailyScenariosUsed l + Z.of_nat (S n))
      with (dailyScenariosUsed l + 1 + Z.of_nat n) by lia.
    apply IH; lia.
Qed.

(** X14. A resource that is new on a store serving its requests may start
    a scenario until it has used four on the day: after [n] calls of
    [incrementScenarioUsage], [canStartScenario] reports [n] scenarios used
    of a limit of 4, and allows one more exactly when [n < 4]; when it
    refuses, it gives a reason. *)
Theorem daily_limit_is_enforced (resourceId : str) (w : namespace) (n : nat)
    (Hserved : faults w = [])
    (Hnew : holds' w resourceId None)
    (Hcount : Z.of_nat n < 2 ^ 53) :
  exists d w',
    canStartScenario' resourceId (incrementTimes Number_toString today n resourceId w)
      = (Reply d, w') /\
    dailyScenariosUsed (limits d) = Z.of_nat n /\
    dailyLimit (limits d) = 4 /\
    isPremium (limits d) = false /\
    allowed d = (Z.of_nat n <? 4) /\
    (allowed d = false -> reason d <> None).
Proof.
  destruct n as [|n].
  - cbn [incrementTimes]. unfold canStartScenario.
    destruct (getUsageLimits_first resourceId w Hserved Hnew) as (w' & Hrun & _).
    fold (getUsageLimits' resourceId w). rewrite Hrun.
    eexists _, _. split; [reflexivity|]. repeat split; discriminate.
  - cbn [incrementTimes]. unfold incrementScenarioUsage.
    destruct (getUsageLimits_first resourceId w Hserved Hnew) as (w1 & Hrun & Hs1).
    fold (getUsageLimits' resourceId w). rewrite Hrun. cbn [isPremium fallbackLimits].
    destruct Hs1 as (Hf1 & Hh1 & _).
    destruct (store_served resourceId
                {| dailyScenariosUsed := 0 + 1; dailyLimit := DEFAULT_DAILY_LIMIT;
                   isPremium := false; resetDate := today |} w1 Hf1)
      as (w2 & Hstore & Hf2 & Hh2 & _).
    change (dailyScenariosUsed (fallbackLimits today)) with 0.
    change (dailyLimit (fallbackLimits today)) with DEFAULT_DAILY_LIMIT.
    change (resetDate (fallbackLimits today)) with today.
    fold (store' resourceId) in *. rewrite Hstore. cbn [snd].
    assert (Hs2 : settled' w2 resourceId
              {| dailyScenariosUsed := 0 + 1; dailyLimit := DEFAULT_DAILY_LIMIT;
                 isPremium := false; resetDate := today |}).
    { repeat split; assumption. }
    pose proof (incrementTimes_settled n resourceId w2 _ Hs2 eq_refl) as Hs3.
    cbn [dailyScenariosUsed dailyLimit resetDate] in Hs3.
    specialize (Hs3 ltac:(lia) ltac:(lia)).
    destruct (canStartScenario_settled resourceId _ _ Hs3) as (d & Hd & Hl & Ha).
    exists d, (incrementTimes Number_toString today n resourceId w2).
    split; [exact Hd|]. rewrite Hl. cbn.
    split; [lia|]. split; [reflexivity|]. split; [reflexivity|].
    split.
    + rewrite Ha. cbn. f_equal. lia.
    + intros Hno. revert Hd. unfold canStartScenario.
      rewrite (getUsageLimits_settled resourceId _ _ Hs3). cbn.
      rewrite Ha in Hno. cbn in Hno. rewrite Z.leb_antisym, Hno. cbn.
      intros [= <-]. discriminate.
Qed.

(** X15. On a new day the count starts again: when the limits held are
    those of another day, [getUsageLimits] returns and stores limits with no
    scenario used, the premium status kept and the limit of that status,
    and [canStartScenario] allows a scenario. *)
Theorem new_day_resets_usage (resourceId : str) (w : namespace) (l : UsageLimits)
    (Hserved : faults w = [])
    (Hheld : holds' w resourceId (Some l))
    (Hused : isSafeInteger (dailyScenariosUsed l) = true)
    (Hlimit : isSafeInteger (dailyLimit l) = true)
    (Hday : resetDate l <> today) :
  let fresh :=
    {| dailyScenariosUsed := 0; dailyLimit := limitOf (isPremium l);
       isPremium := isPremium l; resetDate := today |} in
  exists w',
    getUsageLimits' resourceId w = (Reply fresh, w') /\
    holds' w' resourceId (Some fresh) /\
    canStartScenario' resourceId w
      = (Reply {| allowed := true; limits := fresh; reason := None |}, w').
Proof.
  intros fresh.
  assert (Hget : exists w', getUsageLimits' resourceId w = (Reply fresh, w') /\
                            holds' w' resourceId (Some fresh)).
  { unfold getUsageLimits.
    rewrite (read_held resourceId w l Hserved Hheld Hused Hlimit). cbn [present toJson truthy].
    fold (toJson l). rewrite (ofJson_toJson l Hused Hlimit).
    unfold str_eqb. rewrite decide_False by exact Hday. cbn [negb].
    unfold storeAndReturn.
    destruct (store_served resourceId fresh w Hserved) as (w' & Hstore & _ & Hh' & _).
    fold (store' resourceId) in *. subst fresh. rewrite Hstore.
    exists w'. split; [reflexivity|exact Hh']. }
  destruct Hget as (w' & Hget & Hh'). exists w'.
  split; [exact Hget|]. split; [exact Hh'|].
  unfold canStartScenario. fold (getUsageLimits' resourceId w). rewrite Hget.
  subst fresh. cbn. destruct (isPremium l); reflexivity.
Qed.

Lemma increment_premium (resourceId : str) (w : namespace) (l : UsageLimits) :
  settled' w resourceId l -> isPremium l = true ->
  incrementScenarioUsage' resourceId w = (Reply l, w).
Proof.
  intros Hs Hp. unfold incrementScenarioUsage.
  rewrite (getUsageLimits_settled resourceId w l Hs), Hp. reflexivity.
Qed.

(** X16. Once [setPremiumStatus] has made a resource premium, its limit
    is 999, [incrementScenarioUsage] no longer counts - any number of calls
    leaves the store as it is - and [canStartScenario] allows a scenario
    whatever the count. *)
Theorem premium_is_not_counted (resourceId : str) (w : namespace) (l : UsageLimits) (n : nat)
    (Hsettled : settled' w resourceId l) :
  let premium :=
    {| dailyScenariosUsed := dailyScenariosUsed l; dailyLimit := PREMIUM_DAILY_LIMIT;
       isPremium := true; resetDate := resetDate l |} in
  exists w',
    setPremiumStatus' resourceId true w = (Reply premium, w') /\
    incrementTimes Number_toString today n resourceId w' = w' /\
    canStartScenario' resourceId w'
      = (Reply {| allowed := true; limits := premium; reason := None |}, w').
Proof.
  intros premium. unfold setPremiumStatus.
  rewrite (getUsageLimits_settled resourceId w l Hsettled).
  destruct Hsettled as (Hf & Hh & Hdate & Hlimit & Hused).
  destruct (store_served resourceId premium w Hf) as (w' & Hstore & Hf' & Hh' & _).
  fold (store' resourceId) in *. subst premium. cbn [limitOf]. rewrite Hstore.
  exists w'.
  assert (Hs' : settled' w' resourceId
            {| dailyScenariosUsed := dailyScenariosUsed l; dailyLimit := PREMIUM_DAILY_LIMIT;
               isPremium := true; resetDate := resetDate l |}).
  { repeat split; assumption. }
  split; [reflexivity|]. split.
  - induction n as [|n IH]; [reflexivity|]. cbn [incrementTimes].
    fold (incrementScenarioUsage' resourceId w').
    rewrite (increment_premium resourceId w' _ Hs' eq_refl). exact IH.
  - unfold canStartScenario. rewrite (getUsageLimits_settled resourceId w' _ Hs'). reflexivity.
Qed.

(** *** One resource and another *)

Lemma limits_key_inj (r r' : str) :
  dataKey r (limitsKey r) = dataKey r' (limitsKey r') -> r = r'.
Proof.
  unfold dataKey, limitsKey. intros H.
  apply app_inv_head in H.
  assert (Hlen : length r = length r').
  { apply (f_equal (@length N)) in H. rewrite !length_app in H. simpl in H. lia. }
  apply app_inj_1 in H; [tauto|exact Hlen].
Qed.

Lemma elsewhere_refl r w : elsewhere r w w.
Proof. intros k _. reflexivity. Qed.

Lemma elsewhere_trans r w1 w2 w3 :
  elsewhere r w1 w2 -> elsewhere r w2 w3 -> elsewhere r w1 w3.
Proof. intros H1 H2 k Hk. rewrite H2, H1 by exact Hk. reflexivity. Qed.

Lemma request_entries (w : namespace) : entries (snd (request w)) = entries w.
Proof. unfold request. destruct (faults w); reflexivity. Qed.

Lemma getSessionData_elsewhere r sessionId key w :
  elsewhere r w (snd (getSessionData sessionId key w)).
Proof.
  intros k _. unfold getSessionData, kvGet.
  pose proof (request_entries w) as He.
  destruct (request w) as [[|] w']; cbn [snd] in *; [rewrite He; reflexivity|].
  destruct (entries w' !! dataKey sessionId key); cbn [snd]; rewrite He; reflexivity.
Qed.

Lemma store_elsewhere r l w : elsewhere r w (snd (store' r l w)).
Proof.
  intros k Hk. unfold store, setSessionData, kvPut.
  pose proof (request_entries w) as He.
  destruct (request w) as [[|] w']; cbn [snd entries] in *; [rewrite He; reflexivity|].
  rewrite lookup_insert_ne by congruence. rewrite He. reflexivity.
Qed.

Lemma storeAndReturn_elsewhere r l w :
  elsewhere r w (snd (storeAndReturn Number_toString today r l w)).
Proof.
  unfold storeAndReturn. pose proof (store_elsewhere r l w) as H.
  fold (store' r) in *. destruct (store' r l w) as [[|] w']; exact H.
Qed.

Lemma getUsageLimits_elsewhere r w : elsewhere r w (snd (getUsageLimits' r w)).
Proof.
  unfold getUsageLimits.
  pose proof (getSessionData_elsewhere r r (limitsKey r) w) as H1.
  destruct (getSessionData r (limitsKey r) w) as [stored w1]; cbn [snd] in H1.
  destruct (present stored) as [stored'|].
  - destruct (ofJson stored') as [l|]; [|exact H1].
    repeat match goal with
           | |- context [if ?b then _ else _] => destruct b
           end;
      try (eapply elsewhere_trans; [exact H1|apply storeAndReturn_elsewhere]).
    exact H1.
  - eapply elsewhere_trans; [exact H1|apply storeAndReturn_elsewhere].
Qed.

Lemma incrementScenarioUsage_elsewhere r w :
  elsewhere r w (snd (incrementScenarioUsage' r w)).
Proof.
  unfold incrementScenarioUsage.
  pose proof (getUsageLimits_elsewhere r w) as H1.
  fold (getUsageLimits' r w). destruct (getUsageLimits' r w) as [[l|] w1]; [|exact H1].
  destruct (isPremium l); [exact H1|].
  match goal with |- context [store ?n r ?x w1] => pose proof (store_elsewhere r x w1) as H2 end.
  fold (store' r) in *.
  match goal with |- context [store' r ?x w1] => destruct (store' r x w1) as [[|] w2] end;
    cbn [snd] in *.
  - eapply elsewhere_trans; eassumption.
  - eapply elsewhere_trans; [exact H1|]. eapply elsewhere_trans; [exact H2|].
    apply getUsageLimits_elsewhere.
Qed.

Lemma setPremiumStatus_elsewhere r premium w :
  elsewhere r w (snd (setPremiumStatus' r premium w)).
Proof.
  unfold setPremiumStatus.
  pose proof (getUsageLimits_elsewhere r w) as H1.
  fold (getUsageLimits' r w). destruct (getUsageLimits' r w) as [[l|] w1]; [|exact H1].
  match goal with |- context [store ?n r ?x w1] => pose proof (store_elsewhere r x w1) as H2 end.
  fold (store' r) in *.
  match goal with |- context [store' r ?x w1] => destruct (store' r x w1) as [[|] w2] end;
    cbn [snd] in *.
  - eapply elsewhere_trans; eassumption.
  - eapply elsewhere_trans; [exact H1|]. eapply elsewhere_trans; [exact H2|].
    apply getUsageLimits_elsewhere.
Qed.

Lemma canStartScenario_elsewhere r w : elsewhere r w (snd (canStartScenario' r w)).
Proof.
  unfold canStartScenario.
  pose proof (getUsageLimits_elsewhere r w) as H1.
  fold (getUsageLimits' r w). destruct (getUsageLimits' r w) as [[l|] w1]; [|exact H1].
  destruct (isPremium l); [exact H1|]. destruct (_ <=? _); exact H1.
Qed.

(** X17. The limits are kept per resource: whatever the store holds and
    whether its requests are served or rejected, a call of
    [getUsageLimits], [incrementScenarioUsage], [setPremiumStatus] or
    [canStartScenario] for one resource leaves what is held for any other
    resource as it was. *)
Theorem usage_is_per_resource (resourceId other : str) (w : namespace) (premium : bool)
    (stored : option UsageLimits)
    (Hother : other <> resourceId)
    (Hheld : holds' w other stored) :
  holds' (snd (getUsageLimits' resourceId w)) other stored /\
  holds' (snd (incrementScenarioUsage' resourceId w)) other stored /\
  holds' (snd (setPremiumStatus' resourceId premium w)) other stored /\
  holds' (snd (canStartScenario' resourceId w)) other stored.
Proof.
  assert (Hkey : dataKey other (limitsKey other) <> dataKey resourceId (limitsKey resourceId)).
  { intros H. apply Hother, limits_key_inj, H. }
  unfold holds in *.
  rewrite (getUsageLimits_elsewhere resourceId w _ Hkey),
          (incrementScenarioUsage_elsewhere resourceId w _ Hkey),
          (setPremiumStatus_elsewhere resourceId premium w _ Hkey),
          (canStartScenario_elsewhere resourceId w _ Hkey).
  auto.
Qed.

(** X18. A read of the store that is rejected is taken for a first visit:
    [getSessionData] returns [null], and [getUsageLimits] answers with, and
    writes over whatever was held, the limits of a new resource - no
    scenario used, a limit of 4, not premium. *)
Theorem rejected_read_resets_limits (resourceId : str) (w : namespace)
    (Hfaults : faults w = [true]) :
  exists w',
    getUsageLimits' resourceId w = (Reply (fallbackLimits today), w') /\
    holds' w' resourceId (Some (fallbackLimits today)) /\
    faults w' = [].
Proof.
  unfold getUsageLimits, getSessionData, kvGet, request. rewrite Hfaults.
  cbn [present]. unfold storeAndReturn.
  destruct (store_served resourceId (fallbackLimits today)
              {| entries := entries w; faults := [] |} eq_refl)
    as (w' & Hstore & Hf' & Hh' & _).
  fold (store' resourceId) in *. unfold fallbackLimits in Hstore at 1. rewrite Hstore.
  exists w'. auto.
Qed.

End UsageFacts.

(** ** The stream of a chat response *)

Section SseFacts.
Import Js Json Stringify Sse.

Variable Number_toString : Z -> Z -> str.

Local Abbreviation print := (JSON_stringify Number_toString).
Local Abbreviation linesFrom piece s := (splitFrom newline s O piece).

(** *** Lines *)

Lemma linesFrom_nil (piece : str) : linesFrom piece [] = [piece].
Proof. reflexivity. Qed.

Lemma linesFrom_newline (piece s : str) :
  linesFrom piece (10%N :: s) = piece :: linesFrom [] s.
Proof. destruct s; reflexivity. Qed.

Lemma linesFrom_other (piece s : str) (c : N) :
  c <> 10%N -> linesFrom piece (c :: s) = linesFrom (piece ++ [c]) s.
Proof.
  intros Hc. cbn [splitFrom].
  replace (startsWith (c :: s) newline) with false; [reflexivity|].
  destruct s; cbn [startsWith newline];
    replace (10 =? c)%N with false by (symmetry; apply N.eqb_neq; congruence);
    reflexivity.
Qed.

Lemma linesFrom_nonempty (s : str) : forall piece, linesFrom piece s <> [].
Proof.
  induction s as [|c s IH]; intros piece; [discriminate|].
  destruct (N.eq_dec c 10%N) as [->|Hc].
  - rewrite linesFrom_newline. discriminate.
  - rewrite linesFrom_other by exact Hc. apply IH.
Qed.

(** The lines of a text that comes in two parts. *)
Lemma linesFrom_app (a b : str) : forall piece,
  linesFrom piece (a ++ b) =
  removelast (linesFrom piece a) ++ linesFrom (List.last (linesFrom piece a) []) b.
Proof.
  induction a as [|c a IH]; intros piece; [reflexivity|].
  cbn [app]. destruct (N.eq_dec c 10%N) as [->|Hc].
  - rewrite !linesFrom_newline, IH.
    pose proof (linesFrom_nonempty a []) as Hne.
    destruct (linesFrom [] a) as [|l ls] eqn:E; [congruence|]. reflexivity.
  - rewrite !linesFrom_other by exact Hc. apply IH.
Qed.

(** A line that is complete, and the start of a line. *)
Lemma linesFrom_line (l : str) : forall piece rest,
  ~ In 10%N l ->
  linesFrom piece (l ++ 10%N :: rest) = (piece ++ l) :: linesFrom [] rest.
Proof.
  induction l as [|c l IH]; intros piece rest Hl.
  - rewrite app_nil_r. apply linesFrom_newline.
  - cbn [app]. rewrite linesFrom_other by (intros ->; apply Hl; left; reflexivity).
    rewrite IH by (intros H; apply Hl; right; exact H).
    rewrite <- app_assoc. reflexivity.
Qed.

Lemma linesFrom_start (l : str) : forall piece rest,
  ~ In 10%N l -> linesFrom piece (l ++ rest) = linesFrom (piece ++ l) rest.
Proof.
  induction l as [|c l IH]; intros piece rest Hl.
  - rewrite app_nil_r. reflexivity.
  - cbn [app]. rewrite linesFrom_other by (intros ->; apply Hl; left; reflexivity).
    rewrite IH by (intros H; apply Hl; right; exact H).
    rewrite <- app_assoc. reflexivity.
Qed.

Lemma linesFrom_last (s : str) : forall piece,
  ~ In 10%N piece -> ~ In 10%N (List.last (linesFrom piece s) []).
Proof.
  induction s as [|c s IH]; intros piece Hp; [exact Hp|].
  destruct (N.eq_dec c 10%N) as [->|Hc].
  - rewrite linesFrom_newline.
    pose proof (linesFrom_nonempty s []) as Hne.
    destruct (linesFrom [] s) as [|l ls] eqn:E; [congruence|].
    change (List.last (piece :: l :: ls) []) with (List.last (l :: ls) ([] : str)).
    rewrite <- E. apply IH. tauto.
  - rewrite linesFrom_other by exact Hc. apply IH.
    intros H. apply in_app_or in H as [H|[H|[]]]; [tauto|congruence].
Qed.

(** The reader sees the lines of the stream, however the stream is cut
    into reads. *)
Lemma readAll_lines (reads : list str) : forall buffer full,
  ~ In 10%N buffer ->
  readAll Number_toString reads buffer full =
    (List.last (linesFrom buffer (concat reads)) [],
     fold_left (processLine Number_toString) (removelast (linesFrom buffer (concat reads))) full).
Proof.
  induction reads as [|value reads IH]; intros buffer full Hb; [reflexivity|].
  cbn [readAll concat]. unfold split.
  rewrite (linesFrom_start buffer [] value Hb). cbn [app].
  rewrite IH by (apply linesFrom_last, Hb).
  rewrite (linesFrom_app value (concat reads) buffer).
  pose proof (linesFrom_nonempty (concat reads) (List.last (linesFrom buffer value) [])) as Hne.
  destruct (linesFrom (List.last (linesFrom buffer value) []) (concat reads)) as [|l ls] eqn:E;
    [congruence|].
  rewrite last_app_cons.
  rewrite removelast_app by discriminate.
  rewrite fold_left_app. reflexivity.
Qed.

(** *** What is written has no line break of its own *)

Lemma hexDigit_line (d : N) : hexDigit d <> 10%N.
Proof. unfold hexDigit. destruct (d <? 10)%N; lia. Qed.

Lemma unicodeEscape_line (c : N) : ~ In 10%N (unicodeEscape c).
Proof.
  unfold unicodeEscape. intros [H|[H|[H|[H|[H|[H|[]]]]]]]; try discriminate;
    exact (hexDigit_line _ H).
Qed.

Lemma quoteBody_line (n : nat) : forall s, (length s <= n)%nat -> ~ In 10%N (quoteBody s).
Proof.
  induction n as [|n IH]; intros s Hn.
  { destruct s; [intros []|simpl in Hn; lia]. }
  destruct s as [|c s]; [intros []|]. simpl in Hn.
  assert (Hs : ~ In 10%N (quoteBody s)) by (apply IH; lia).
  assert (He : ~ In 10%N (unicodeEscape c ++ quoteBody s)).
  { intros H. apply in_app_or in H as [H|H]; [exact (unicodeEscape_line c H)|tauto]. }
  cbn [quoteBody].
  repeat match goal with
  | |- ~ In _ (if (c =? ?k)%N then _ else _) =>
      destruct (N.eqb_spec c k);
      [intros [H|[H|H]]; [discriminate|discriminate|tauto] | ]
  end.
  destruct (c <? 32)%N; [exact He|].
  destruct (isHighSurrogate c) eqn:Hh.
  { destruct s as [|d s']; [apply unicodeEscape_line|].
    destruct (isLowSurrogate d) eqn:Hl; [|exact He].
    intros [H|[H|H]].
    - subst c. discriminate.
    - subst d. discriminate.
    - revert H. apply IH. simpl in Hn. lia. }
  destruct (isLowSurrogate c); [exact He|].
  intros [H|H]; [congruence|tauto].
Qed.

Lemma quote_line (s : str) : ~ In 10%N (quote s).
Proof.
  unfold quote. intros H. apply in_app_or in H as [H|H]; [destruct H as [H|[]]; discriminate|].
  apply in_app_or in H as [H|H]; [exact (quoteBody_line _ s (le_n _) H)|].
  destruct H as [H|[]]; discriminate.
Qed.

Lemma object_print (k1 v1 k2 v2 : str) :
  print (JObject [(k1, JString v1); (k2, JString v2)]) =
  123%N :: (quote k1 ++ 58%N :: quote v1 ++ 44%N :: quote k2 ++ 58%N :: quote v2) ++ [125%N].
Proof.
  cbn [JSON_stringify map join fst snd app].
  repeat (rewrite <- ?app_assoc, <- ?app_comm_cons; cbn [app]). reflexivity.
Qed.

Lemma object_line (k1 v1 k2 v2 : str) :
  ~ In 10%N (print (JObject [(k1, JString v1); (k2, JString v2)])).
Proof.
  rewrite object_print. intros H.
  repeat first
    [ exact (quote_line _ H)
    | apply in_app_or in H as [H|H]
    | destruct H as [H|H]; [discriminate|]
    | destruct H ].
Qed.

(** *** What the reader makes of a line *)

Lemma trim_braces (body : str) :
  trim (123%N :: body ++ [125%N]) = 123%N :: body ++ [125%N].
Proof.
  unfold trim, trimEnd. cbn [trimStart].
  change (isWhiteSpace 123) with false. cbn iota.
  change (123%N :: body ++ [125%N]) with ([123%N] ++ body ++ [125%N]).
  rewrite !rev_app_distr. cbn [rev app trimStart].
  change (isWhiteSpace 125) with false. cbn iota.
  change (125%N :: rev body ++ [123%N]) with ([125%N] ++ rev body ++ [123%N]).
  rewrite !rev_app_distr, rev_involutive. reflexivity.
Qed.

Lemma trim_space (s : str) : trim (32%N :: s) = trim s.
Proof. unfold trim. cbn [trimStart]. change (isWhiteSpace 32) with true. reflexivity. Qed.

Lemma JSON_parse_space (s : str) (v : json) :
  JSON_parse s = Some v -> JSON_parse (32%N :: s) = Some v.
Proof.
  unfold JSON_parse, parseText. intros H.
  destruct (value (2 * length s + 2) s) as [w rest| |] eqn:E; try discriminate.
  replace (2 * length (32%N :: s) + 2)%nat with (S (2 * length s + 3)) by (simpl; lia).
  change (value (S (2 * length s + 3)) (32%N :: s)) with (value (S (2 * length s + 3)) s).
  rewrite (value_any_fuel _ (S (2 * length s + 3)) _ _ _ E) by lia.
  exact H.
Qed.

Lemma str_eqb_head (c d : N) (s t : str) : c <> d -> str_eqb (c :: s) (d :: t) = false.
Proof. intros H. unfold str_eqb. destruct (decide _) as [E|]; [congruence|reflexivity]. Qed.

(** The text of an object of two strings: it is not empty, has no blank
    at either end and is not the mark "[DONE]". *)
Section ObjectText.
Variables k1 v1 k2 v2 : str.

Local Abbreviation object := (JObject [(k1, JString v1); (k2, JString v2)]).

Lemma object_nonEmpty : nonEmpty (print object) = true.
Proof. rewrite object_print. reflexivity. Qed.

Lemma object_trim : trim (print object) = print object.
Proof. rewrite object_print. apply trim_braces. Qed.

Lemma object_not_done : str_eqb (print object) (u "[DONE]") = false.
Proof.
  rewrite object_print. change (u "[DONE]") with (91%N :: u "DONE]").
  apply str_eqb_head. discriminate.
Qed.

Lemma object_brace : startsWith (print object) (u "{") = true.
Proof. rewrite object_print. reflexivity. Qed.

Lemma object_parse : JSON_parse (print object) = Some object.
Proof. apply JSON_parse_stringify. reflexivity. Qed.

End ObjectText.

(** A line of data. *)
Lemma data_space (data : str) : u "data: " ++ data = u "data:" ++ 32%N :: data.
Proof. reflexivity. Qed.

Lemma startsWith_data (data : str) : startsWith (u "data:" ++ data) (u "data:") = true.
Proof. destruct data; reflexivity. Qed.

Lemma processLine_data (full data : str) :
  processLine Number_toString full (u "data:" ++ data) =
  if negb (nonEmpty data) || negb (nonEmpty (trim data)) || str_eqb (trim data) (u "[DONE]")
  then full
  else
    match JSON_parse data with
    | Some JNull => plainText full data
    | Some parsed =>
        if isText (get parsed (u "type")) then
          match get parsed (u "content") with
          | Some content =>
              if truthy content then
                match ToString Number_toString content with
                | Some text => full ++ text
                | None => plainText full data
                end
              else full
          | None => full
          end
        else full
    | None => plainText full data
    end.
Proof. unfold processLine. rewrite startsWith_data. reflexivity. Qed.

Lemma panelLine_data (full data : str) :
  panelLine Number_toString full (u "data:" ++ data) =
  if negb (nonEmpty (trim data)) then full
  else
    match JSON_parse (trim data) with
    | Some JNull => plainChunk full (trim data)
    | Some jsonData =>
        if isError (get jsonData (u "type")) then plainChunk full (trim data)
        else if isText (get jsonData (u "type")) then
          match get jsonData (u "content") with
          | Some content =>
              if truthy content then
                match ToString Number_toString content with
                | Some text => full ++ text
                | None => plainChunk full (trim data)
                end
              else full
          | None => full
          end
        else full
    | None => plainChunk full (trim data)
    end.
Proof. unfold panelLine. rewrite startsWith_data. reflexivity. Qed.

(** A text event adds its chunk. *)
Lemma processLine_text (full chunk : str) :
  processLine Number_toString full (u "data:" ++ print (textObject chunk)) = full ++ chunk.
Proof.
  rewrite processLine_data. unfold textObject.
  rewrite object_trim, object_nonEmpty, object_not_done, object_parse.
  destruct chunk as [|c t]; [rewrite app_nil_r|]; reflexivity.
Qed.

(** The error event adds nothing. *)
Lemma processLine_error (full message : str) :
  processLine Number_toString full (u "data: " ++ print (errorObject message)) = full.
Proof.
  rewrite data_space.
  rewrite processLine_data. unfold errorObject.
  rewrite trim_space, object_trim, object_nonEmpty, object_not_done.
  rewrite (JSON_parse_space _ _ (object_parse _ _ _ _)).
  reflexivity.
Qed.

(** The same for the transcript chat panel, which takes the error event
    for a text that does not parse. *)
Lemma panelLine_text (full chunk : str) :
  panelLine Number_toString full (u "data:" ++ print (textObject chunk)) = full ++ chunk.
Proof.
  rewrite panelLine_data. unfold textObject.
  rewrite object_trim, object_nonEmpty, object_parse.
  destruct chunk as [|c t]; [rewrite app_nil_r|]; reflexivity.
Qed.

Lemma panelLine_error (message : str) :
  neutral Number_toString (u "data: " ++ print (errorObject message)).
Proof.
  intros full.
  rewrite data_space.
  rewrite panelLine_data. unfold errorObject.
  rewrite trim_space, object_trim, object_nonEmpty, object_parse.
  cbn [negb]. unfold plainChunk. rewrite object_brace, object_nonEmpty. reflexivity.
Qed.

(** *** The stream and its lines *)

(** The line of a text event. *)
Local Abbreviation eventLine := (fun chunk => u "data:" ++ print (textObject chunk)).

Lemma eventLine_line (chunk : str) : ~ In 10%N (eventLine chunk).
Proof.
  intros H. apply in_app_or in H as [H|H].
  - revert H. vm_compute. intuition discriminate.
  - revert H. apply object_line.
Qed.

Lemma handleTextStream_all (chunks : list str) : forall controller,
  fold_left (fun c chunk => handleTextStream Number_toString chunk c) chunks controller =
  controller ++ map (textEvent Number_toString) chunks.
Proof.
  induction chunks as [|chunk chunks IH]; intros controller; cbn [fold_left map].
  - rewrite app_nil_r. reflexivity.
  - rewrite IH. unfold handleTextStream. rewrite <- app_assoc. reflexivity.
Qed.

(** The lines of what [handleTextStream] has written: for each chunk the
    line of its event and an empty line. *)
Lemma textEvents_lines (tail : str) (chunks : list str) :
  linesFrom [] (concat (map (textEvent Number_toString) chunks) ++ tail) =
  flat_map (fun chunk => [eventLine chunk; []]) chunks ++ linesFrom [] tail.
Proof.
  induction chunks as [|chunk chunks IH]; [reflexivity|].
  cbn [map concat flat_map]. unfold textEvent at 1.
  rewrite <- !app_assoc.
  change (newline ++ newline ++ ?x) with (10%N :: 10%N :: x).
  rewrite app_assoc.
  rewrite linesFrom_line by apply eventLine_line.
  rewrite linesFrom_newline, IH. reflexivity.
Qed.

Lemma createSSEStream_lines (chunks : list str) (failure : option str) :
  removelast (linesFrom [] (concat (createSSEStream Number_toString chunks failure))) =
  flat_map (fun chunk => [eventLine chunk; []]) chunks ++ closingLines Number_toString failure.
Proof.
  unfold createSSEStream. rewrite handleTextStream_all. cbn [app].
  assert (Htail : forall tail closing,
            linesFrom [] tail = closing ++ [[]] ->
            removelast (linesFrom [] (concat (map (textEvent Number_toString) chunks) ++ tail))
            = flat_map (fun chunk => [eventLine chunk; []]) chunks ++ closing).
  { intros tail closing H. rewrite textEvents_lines, H, app_assoc. apply removelast_last. }
  destruct failure as [message|]; rewrite concat_app; apply Htail; cbn [concat app].
  - rewrite app_nil_r.
    change (u "data: " ++ ?a ++ newline ++ newline)
      with (u "data: " ++ a ++ 10%N :: 10%N :: []).
    rewrite app_assoc, linesFrom_line; [reflexivity|].
    intros H. apply in_app_or in H as [H|H].
    + revert H. vm_compute. intuition discriminate.
    + revert H. apply object_line.
  - reflexivity.
Qed.

(** What a reader makes of those lines when it adds the chunk of a text
    event and nothing for the other lines. *)
Section Readers.

Variable step : str -> str -> str.
Hypothesis step_text : forall text chunk, step text (eventLine chunk) = text ++ chunk.
Hypothesis step_empty : forall text, step text [] = text.
Hypothesis step_closing : forall failure text,
  fold_left step (closingLines Number_toString failure) text = text.

Lemma reader_events (chunks : list str) : forall text,
  fold_left step (flat_map (fun chunk => [eventLine chunk; []]) chunks) text
  = text ++ concat chunks.
Proof.
  induction chunks as [|chunk chunks IH]; intros text; cbn [flat_map concat app fold_left].
  - rewrite app_nil_r. reflexivity.
  - rewrite step_text, step_empty, IH, <- app_assoc. reflexivity.
Qed.

Lemma reader_stream (chunks : list str) (failure : option str) :
  fold_left step
    (removelast (linesFrom [] (concat (createSSEStream Number_toString chunks failure)))) []
  = concat chunks.
Proof.
  rewrite createSSEStream_lines, fold_left_app, reader_events, step_closing. reflexivity.
Qed.

End Readers.

(** *** The batches of the transcript chat panel *)

Lemma panelLines_neutral (lines : list str) : forall text,
  Forall (neutral Number_toString) lines ->
  panelLines Number_toString lines text = text /\
  fold_left (panelLine Number_toString) lines text = text.
Proof.
  induction lines as [|line lines IH]; intros text Hall; [split; reflexivity|].
  apply Forall_cons_1 in Hall as [Hline Hall]. cbn [panelLines fold_left].
  rewrite Hline. destruct (IH text Hall) as [H1 H2].
  split; [destruct (endsBatch line); [reflexivity|exact H1]|exact H2].
Qed.

Lemma panelLines_orderly (lines : list str) : forall text,
  orderly Number_toString lines ->
  panelLines Number_toString lines text = fold_left (panelLine Number_toString) lines text.
Proof.
  induction lines as [|line lines IH]; intros text Hord; [reflexivity|].
  destruct Hord as [[Hgo Hord]|Hall].
  - cbn [panelLines fold_left]. rewrite Hgo. apply IH, Hord.
  - destruct (panelLines_neutral _ text Hall) as [-> ->]. reflexivity.
Qed.

Lemma orderly_neutral (lines : list str) :
  Forall (neutral Number_toString) lines -> orderly Number_toString lines.
Proof. destruct lines; [exact (fun _ => I)|]. intros H. right. exact H. Qed.

Lemma orderly_app (a b : list str) :
  orderly Number_toString (a ++ b) ->
  orderly Number_toString a /\ orderly Number_toString b.
Proof.
  induction a as [|line a IH]; intros H; [split; [exact I|exact H]|].
  destruct H as [[Hgo Hord]|Hall].
  - destruct (IH Hord) as [Ha Hb]. split; [left; split; assumption|exact Hb].
  - change (Forall (neutral Number_toString) ((line :: a) ++ b)) in Hall.
    apply Forall_app in Hall as [Ha Hb].
    split; [right; exact Ha|apply orderly_neutral, Hb].
Qed.

Lemma panelReadAll_lines (reads : list str) : forall buffer text,
  ~ In 10%N buffer ->
  orderly Number_toString (removelast (linesFrom buffer (concat reads))) ->
  snd (panelReadAll Number_toString reads buffer text) =
    fold_left (panelLine Number_toString) (removelast (linesFrom buffer (concat reads))) text.
Proof.
  induction reads as [|value reads IH]; intros buffer text Hb Hord; [reflexivity|].
  cbn [panelReadAll concat] in *. unfold split.
  rewrite (linesFrom_start buffer [] value Hb). cbn [app].
  rewrite (linesFrom_app value (concat reads) buffer) in Hord |- *.
  pose proof (linesFrom_nonempty (concat reads) (List.last (linesFrom buffer value) [])) as Hne.
  rewrite removelast_app in Hord |- * by exact Hne.
  apply orderly_app in Hord as [Hfirst Hrest].
  rewrite IH by (apply linesFrom_last, Hb || exact Hrest).
  rewrite fold_left_app, panelLines_orderly by exact Hfirst. reflexivity.
Qed.

Lemma stream_orderly (chunks : list str) (failure : option str) :
  orderly Number_toString
    (flat_map (fun chunk => [eventLine chunk; []]) chunks ++ closingLines Number_toString failure).
Proof.
  induction chunks as [|chunk chunks IH].
  - destruct failure as [message|].
    + left. split; [unfold errorObject; rewrite object_print; reflexivity|].
      left. split; [reflexivity|exact I].
    + right. repeat constructor; intros text; reflexivity.
  - cbn [flat_map app]. left. split.
    + unfold textObject. rewrite object_print. reflexivity.
    + left. split; [reflexivity|exact IH].
Qed.

End SseFacts.

Section SseTheorems.
Import Js Json Stringify Sse.

Variable Number_toString : Z -> Z -> str.

(** X19. Whatever parts of the stream the reads of the chat page return,
    the text it has put together when the stream has been read is the
    chunks that [handleTextStream] was given, one after the other: the
    events that end the stream - "done", or the error event of a callback
    that throws - add nothing to it, and no chunk is lost, doubled or
    changed, whatever characters it has. *)
Theorem chat_stream_delivers_the_chunks (chunks : list str) (failure : option str)
    (reads : list str) :
  concat reads = concat (createSSEStream Number_toString chunks failure) ->
  received Number_toString reads = concat chunks.
Proof.
  intros Hreads. unfold received.
  rewrite readAll_lines by (intros []). cbn [snd]. rewrite Hreads.
  apply reader_stream.
  - apply processLine_text.
  - reflexivity.
  - intros [message|] text; cbn [closingLines fold_left];
      [rewrite processLine_error|]; reflexivity.
Qed.

(** X20. The transcript chat panel puts together the same text from the
    same stream, however it is cut into reads. The error event of a
    callback that throws changes nothing for it: the Error the panel
    throws for such an event is caught where the texts that do not parse
    are, the event is taken for one of those, and the text stays as it
    was. *)
Theorem panel_stream_delivers_the_chunks (chunks : list str) (failure : option str)
    (reads : list str) :
  concat reads = concat (createSSEStream Number_toString chunks failure) ->
  panelReceived Number_toString reads = concat chunks.
Proof.
  intros Hreads. unfold panelReceived.
  rewrite panelReadAll_lines; rewrite ?Hreads, ?createSSEStream_lines.
  - rewrite <- (createSSEStream_lines Number_toString). apply reader_stream.
    + apply panelLine_text.
    + reflexivity.
    + intros [message|] text; cbn [closingLines fold_left];
        [rewrite panelLine_error|]; reflexivity.
  - intros [].
  - apply stream_orderly.
Qed.

End SseTheorems.

(** ** Instances *)

Section StoreInstances.
Import Js Json Stringify Session Usage Samples StoreSamples.

Lemma emptyNamespace_holds (resourceId : str) : holds noNumbers emptyNamespace resourceId None.
Proof. unfold holds. apply lookup_empty. Qed.

Lemma holding_holds (resourceId : str) (l : UsageLimits) :
  holds noNumbers (holding resourceId l) resourceId (Some l).
Proof. unfold holds, holding. cbn [entries option_map]. apply lookup_singleton_eq. Qed.

Lemma session_data_round_trip_at_reportData :
  let stored := snd (setSessionData noNumbers visitor (u "reportData") reportData emptyNamespace) in
  getSessionData visitor (u "reportData") stored = (Some reportData, stored).
Proof.
  exact (proj1 (proj2 (session_data_round_trip noNumbers visitor (u "reportData") reportData
                         emptyNamespace eq_refl eq_refl ltac:(discriminate)))).
Defined.

Lemma daily_limit_is_enforced_at_fourth :
  exists d w',
    canStartScenario noNumbers today visitor
      (incrementTimes noNumbers today 4 visitor emptyNamespace) = (Reply d, w') /\
    dailyScenariosUsed (limits d) = 4 /\
    allowed d = false.
Proof.
  destruct (daily_limit_is_enforced noNumbers today visitor emptyNamespace 4 eq_refl
              (emptyNamespace_holds visitor) eq_refl)
    as (d & w' & Hrun & Hused & _ & _ & Hallowed & _).
  exists d, w'. split; [exact Hrun|]. split; [exact Hused|exact Hallowed].
Defined.

Lemma new_day_resets_usage_at_yesterday :
  exists w',
    canStartScenario noNumbers today visitor (holding visitor yesterdaysLimits)
      = (Reply {| allowed := true;
                  limits := {| dailyScenariosUsed := 0; dailyLimit := 4; isPremium := false;
                               resetDate := today |};
                  reason := None |}, w').
Proof.
  destruct (new_day_resets_usage noNumbers today visitor (holding visitor yesterdaysLimits)
              yesterdaysLimits eq_refl (holding_holds visitor yesterdaysLimits) eq_refl eq_refl
              ltac:(vm_compute; discriminate))
    as (w' & _ & _ & Hrun).
  exists w'. exact Hrun.
Defined.

Lemma premium_is_not_counted_at_visitor :
  exists w',
    fst (setPremiumStatus noNumbers today visitor true (holding visitor todaysLimits))
      = Reply {| dailyScenariosUsed := 2; dailyLimit := 999; isPremium := true;
                 resetDate := today |} /\
    incrementTimes noNumbers today 3 visitor w' = w'.
Proof.
  destruct (premium_is_not_counted noNumbers today visitor (holding visitor todaysLimits)
              todaysLimits 3
              (conj eq_refl (conj (holding_holds visitor todaysLimits)
                 (conj eq_refl (conj eq_refl eq_refl)))))
    as (w' & Hset & Hcount & _).
  exists w'. split; [rewrite Hset; reflexivity|exact Hcount].
Defined.

Lemma usage_is_per_resource_at_guest :
  holds noNumbers
    (snd (incrementScenarioUsage noNumbers today guest (holding visitor todaysLimits)))
    visitor (Some todaysLimits).
Proof.
  exact (proj1 (proj2 (usage_is_per_resource noNumbers today guest visitor
                         (holding visitor todaysLimits) false (Some todaysLimits)
                         ltac:(vm_compute; discriminate)
                         (holding_holds visitor todaysLimits)))).
Defined.

Lemma rejected_read_resets_limits_at_visitor :
  exists w',
    getUsageLimits noNumbers today visitor rejectingOnce = (Reply (fallbackLimits today), w') /\
    holds noNumbers w' visitor (Some (fallbackLimits today)) /\
    faults w' = [].
Proof. exact (rejected_read_resets_limits noNumbers today visitor rejectingOnce eq_refl). Defined.

End StoreInstances.

Section StreamInstances.
Import Js Json Stringify Sse Samples StreamSamples Extractor Keys.

Lemma chat_stream_delivers_the_chunks_at_greeting :
  received noNumbers greetingReads = u "Hi" ++ newline ++ u "there".
Proof.
  apply (chat_stream_delivers_the_chunks noNumbers greeting None greetingReads).
  vm_compute. reflexivity.
Defined.

Lemma panel_stream_delivers_the_chunks_at_greeting :
  panelReceived noNumbers greetingReads = u "Hi" ++ newline ++ u "there".
Proof.
  apply (panel_stream_delivers_the_chunks noNumbers greeting None greetingReads).
  vm_compute. reflexivity.
Defined.

Lemma extractor_sets_known_keys_only_at_openMindedness :
  exists scores,
    extractScoresFromSummary openMindedness = Some scores /\
    NoDup (map fst scores) /\
    property scores "openMindedness" = None.
Proof.
  destruct (extractScoresFromSummary openMindedness) as [scores|] eqn:E;
    [|vm_compute in E; discriminate E].
  destruct (proj2 (extractor_sets_known_keys_only openMindedness) scores E)
    as (_ & Hnd & _ & Hopen & _).
  exists scores. split; [reflexivity|]. split; [exact Hnd|exact Hopen].
Defined.

End StreamInstances.
